(** * Classify-grammar construction of the inverse text normalisation taggers

    Embedding of [ClassifyFst.__init__] of
    [nemo_text_processing/inverse_text_normalization/en/taggers/tokenize_and_classify.py]
    and of its Russian sibling
    [nemo_text_processing/inverse_text_normalization/ru/taggers/tokenize_and_classify.py].

    The constructor is stateful Python: it logs, prints, mutates the
    [class_weights] dictionary it receives, creates directories, reads and
    writes the grammar archive.  It is embedded in a state-and-exception monad
    over an explicit [World]; the grammars that pynini builds are embedded as
    the expression trees of the pynini calls the constructor makes.

    The weights are the decimal literals of the source (1.1, 1.09, 1.01,
    100).  The constructor does no arithmetic on them, it hands them to
    [pynutil.add_weight]; they are kept exactly, as rationals.

    The module [Transcribe] embeds [main] of
    [examples/asr/transcribe_speech.py], the script that drives a speech
    model, in a monad over the trace of the calls it makes. *)

From Stdlib Require Import QArith Lqa Ascii String.
From stdpp Require Import base gmap strings list pretty.

Close Scope Q_scope.
Open Scope string_scope.
Set Warnings "-register-all".

(** ** Python dictionaries

    A Python [dict] keeps its keys in insertion order and the constructor
    iterates over its dictionaries (the order of the diagnostics depends on
    it), so a dictionary is an association list; [dict_set] overwrites the
    value of a key in place and appends a new key at the end. *)

Abbreviation dict V := (list (string * V)) (only parsing).

Fixpoint dict_get {V} (k : string) (d : dict V) : option V :=
  match d with
  | [] => None
  | (k', v) :: d' => if String.eqb k k' then Some v else dict_get k d'
  end.

Fixpoint dict_set {V} (k : string) (v : V) (d : dict V) : dict V :=
  match d with
  | [] => [(k, v)]
  | (k', v') :: d' =>
      if String.eqb k k' then (k', v) :: d' else (k', v') :: dict_set k v d'
  end.

(** [k in d] *)
Definition dict_mem {V} (k : string) (d : dict V) : bool :=
  match dict_get k d with Some _ => true | None => false end.

(** [d.get(k, dflt)] *)
Definition dict_get_default {V} (k : string) (dflt : V) (d : dict V) : V :=
  match dict_get k d with Some v => v | None => dflt end.

(** [list(d)], [d.keys()] *)
Definition dict_keys {V} (d : dict V) : list string := map fst d.

(** [x in l] for a list of strings *)
Definition str_in (x : string) (l : list string) : bool :=
  existsb (String.eqb x) l.

(** ** Grammars

    pynini is an external library: an automaton is represented by the
    expression that builds it.  [a | b] is [union], [a + b] is [concat], both
    left associative as in Python. *)

Inductive Fst : Type :=
| string_map_nil                              (* pynini.string_map([]) *)
| Grammar (cls : string) (deps : list Fst)    (* SomeFst(deps...).fst *)
| delete_space                                (* graph_utils.delete_space *)
| delete_extra_space                          (* graph_utils.delete_extra_space *)
| insert (s : string)                         (* pynutil.insert(s) *)
| add_weight (g : Fst) (w : Q)                (* pynutil.add_weight(g, w) *)
| union (a b : Fst)                           (* a | b *)
| concat (a b : Fst)                          (* a + b *)
| closure (a : Fst)                           (* pynini.closure(a) *)
| optimize (a : Fst).                         (* a.optimize() *)

Declare Scope fst_scope.
Delimit Scope fst_scope with fst.
Bind Scope fst_scope with Fst.
Notation "a |: b" := (union a b) (at level 52, left associativity) : fst_scope.
Notation "a +: b" := (concat a b) (at level 51, left associativity) : fst_scope.

(** The operands of a left-nested alternation [a1 | a2 | ... | an], in the
    order they are written. *)
Fixpoint union_operands (g : Fst) : list Fst :=
  match g with
  | union a b => union_operands a ++ [b]
  | _ => [g]
  end.

(** The object under construction: [GraphFst.__init__] stores [name] and
    [kind], the constructor sets [self.fst]. *)
Record GraphFst : Type := mkGraphFst { name : string; kind : string; fst_ : Fst }.

(** ** The world the constructor runs in *)

(** A regular file is a readable archive of named grammars or anything
    else. *)
Inductive file : Type :=
| FarArchive (entries : dict Fst)
| Garbage (content : string).

(** Arguments of the forward-direction (text normalisation) constructor. *)
Record TNArgs : Type := mkTNArgs {
  tn_input_case : string;
  tn_deterministic : bool;
  tn_cache_dir : option string;
  tn_overwrite_cache : bool
}.

Inductive event : Type :=
| LogInfo (msg : string)                 (* logging.info(msg) *)
| Print (d : dict Q)                     (* print(d) *)
| FarExport (path : string)              (* an archive written at path *)
| TNConstructed (args : TNArgs).         (* TNClassifyFst(...) was called *)

(** Dictionaries are objects: the caller and the constructor hold a
    reference ([loc]) into [heap]. *)
Abbreviation loc := nat (only parsing).

Record World : Type := mkWorld {
  heap : list (dict Q);
  files : gmap string file;
  dirs : gset string;
  trace : list event
}.

Inductive exn : Type :=
| FstIOError (path : string)
| KeyError (key : string)
| FileExistsError (path : string)
| FileNotFoundError (path : string).

Inductive result (A : Type) : Type :=
| Ok (a : A)
| Raise (e : exn).
Arguments Ok {A} a.
Arguments Raise {A} e.

(** State and exceptions: the effects made before an exception is raised
    stay. *)
Definition M (A : Type) : Type := World -> result A * World.

Definition ret {A} (a : A) : M A := fun w => (Ok a, w).

Definition bind {A B} (m : M A) (k : A -> M B) : M B :=
  fun w =>
    match m w with
    | (Ok a, w') => k a w'
    | (Raise e, w') => (Raise e, w')
    end.

Definition raise {A} (e : exn) : M A := fun w => (Raise e, w).

Declare Scope py_scope.
Delimit Scope py_scope with py.
Notation "x <- m ;; k" := (bind m (fun x => k))
  (at level 100, m at next level, right associativity) : py_scope.
Notation "m ;; k" := (bind m (fun _ => k))
  (at level 100, right associativity) : py_scope.
Open Scope py_scope.

(** [for x in l: body(x)] *)
Fixpoint for_each {A} (l : list A) (body : A -> M unit) : M unit :=
  match l with
  | [] => ret tt
  | x :: l' => body x ;; for_each l' body
  end.

Definition emit (e : event) : M unit :=
  fun w => (Ok tt, mkWorld (heap w) (files w) (dirs w) (trace w ++ [e])).

Definition logging_info (msg : string) : M unit := emit (LogInfo msg).

Definition print (d : dict Q) : M unit := emit (Print d).

(** [{}]: a new dictionary object. *)
Definition new_dict : M loc :=
  fun w => (Ok (length (heap w)),
            mkWorld (heap w ++ [[]]) (files w) (dirs w) (trace w)).

Definition deref (l : loc) : M (dict Q) :=
  fun w => (Ok (default [] (heap w !! l)), w).

(** [d[k] = v] on the object at [l] *)
Definition setitem (l : loc) (k : string) (v : Q) : M unit :=
  fun w =>
    (Ok tt,
     mkWorld (<[l := dict_set k v (default [] (heap w !! l))]> (heap w))
             (files w) (dirs w) (trace w)).

(** [d[k]] *)
Definition getitem {V} (d : dict V) (k : string) : M V :=
  match dict_get k d with
  | Some v => ret v
  | None => raise (KeyError k)
  end.

(** ** The file system and the archive

    Only what the constructor touches: regular files by path, and the
    directories that exist. *)

(** [os.makedirs(path, exist_ok=True)]: the empty path does not name a
    directory, a regular file in the way is an error, an existing directory
    is not. *)
Definition os_makedirs (path : string) : M unit :=
  fun w =>
    if String.eqb path "" then (Raise (FileNotFoundError path), w)
    else match files w !! path with
         | Some _ => (Raise (FileExistsError path), w)
         | None =>
             (Ok tt, mkWorld (heap w) (files w) ({[path]} ∪ dirs w) (trace w))
         end.

Definition ends_with_slash (s : string) : bool :=
  match last (String.list_ascii_of_string s) with
  | Some c => Ascii.eqb c "/"%char
  | None => false
  end.

(** [os.path.join(a, b)] for a relative [b] (posix). *)
Definition os_path_join (a b : string) : string :=
  if String.eqb a "" then b
  else if ends_with_slash a then a ++ b
  else a ++ "/" ++ b.

(** [os.path.exists(path)] *)
Definition os_path_exists (path : string) : M bool :=
  fun w =>
    (Ok (match files w !! path with
         | Some _ => true
         | None => bool_decide (path ∈ dirs w)
         end), w).

(** [pynini.Far(path, mode="r")[key]]: opening anything that is not an
    archive fails, and so does asking an archive for a name it lacks. *)
Definition Far_getitem (path key : string) : M Fst :=
  fun w =>
    match files w !! path with
    | Some (FarArchive entries) =>
        match dict_get key entries with
        | Some g => (Ok g, w)
        | None => (Raise (KeyError key), w)
        end
    | _ => (Raise (FstIOError path), w)
    end.

(** Modelled from the spec: [generator_main] of [graph_utils] is not among
    the sources.  Section 4.6 and section 6 of the specification: [store]
    persists the compiled grammar as one archive file, written whole, at the
    artifact path. *)
Definition generator_main (file_name : string) (graphs : dict Fst) : M unit :=
  fun w =>
    (Ok tt,
     mkWorld (heap w) (<[file_name := FarArchive graphs]> (files w)) (dirs w)
             (trace w ++ [FarExport file_name])).

(** A string is true when it is not empty; [None] is false. *)
Definition truthy (s : option string) : bool :=
  match s with
  | Some s => negb (String.eqb s "")
  | None => false
  end.

(** ** The parts of the constructor that the two languages share

    Lines 71 to 114 and 162 to 185 of the English file are lines 71 to 114
    and 161 to 184 of the Russian file; where a line number is given twice,
    the one in brackets is the Russian one. *)

Definition classes : list string :=
  [ "cardinal"; "ordinal"; "decimal"; "measure"; "date"; "word"; "time";
    "money"; "whitelist"; "electronic"; "telephone" ].

(** [for excluded_class in excluded_classes: if excluded_class not in
    classes: logging.info(...)] *)
Definition warn_excluded_classes (excluded_classes : dict bool) : M unit :=
  for_each (dict_keys excluded_classes) (fun excluded_class =>
    if negb (str_in excluded_class classes) then
      logging_info ("The class " ++ excluded_class ++
                    " is not being excluded as the class does not exist.")
    else ret tt).

Definition default_class_weights : dict Q :=
  [ ("cardinal", 1.1%Q); ("ordinal", 1.1%Q); ("decimal", 1.1%Q);
    ("measure", 1.1%Q); ("date", 1.09%Q); ("word", 100%Q); ("time", 1.1%Q);
    ("money", 1.1%Q); ("electronic", 1.1%Q); ("telephone", 1.1%Q);
    ("whitelist", 1.01%Q) ].

(** [for _class, weight in default_class_weights.items(): if _class not in
    class_weights: class_weights[_class] = weight], on the dictionary object
    the caller passed. *)
Definition fill_default_weights (class_weights : loc) : M unit :=
  for_each default_class_weights (fun '(_class, weight) =>
    d <- deref class_weights ;;
    if negb (dict_mem _class d) then setitem class_weights _class weight
    else ret tt).

(** [for class_weight in class_weights: if class_weight not in classes:
    logging.info(...)] *)
Definition warn_class_weights (class_weights : loc) : M unit :=
  d <- deref class_weights ;;
  for_each (dict_keys d) (fun class_weight =>
    if negb (str_in class_weight classes) then
      logging_info ("The class " ++ class_weight ++
        " does not have a custom class weight applied to it as the class does not exist.")
    else ret tt).

Definition empty_fst : Fst := string_map_nil.

(** [for _class, _graph in class_graphs.items()] (English),
    [for _class in class_graphs.keys()] (Russian): [is_empty_graph =
    excluded_classes.get(_class, False); if is_empty_graph:
    class_graphs[_class] = empty_fst] *)
Definition exclusion_filter (excluded_classes : dict bool)
    (class_graphs : dict Fst) : dict Fst :=
  foldl (fun graphs _class =>
           let is_empty_graph := dict_get_default _class false excluded_classes in
           if is_empty_graph then dict_set _class empty_fst graphs else graphs)
        class_graphs (dict_keys class_graphs).

(** [pynutil.add_weight(class_graphs[c], class_weights[c])] *)
Definition weighted (class_graphs : dict Fst) (class_weights : dict Q)
    (c : string) : M Fst :=
  g <- getitem class_graphs c ;;
  w <- getitem class_weights c ;;
  ret (add_weight g w).

Definition classify (class_graphs : dict Fst) (class_weights : dict Q) : M Fst :=
  let weighted := weighted class_graphs class_weights in
  whitelist <- weighted "whitelist" ;;
  time <- weighted "time" ;;
  date <- weighted "date" ;;
  decimal <- weighted "decimal" ;;
  measure <- weighted "measure" ;;
  cardinal <- weighted "cardinal" ;;
  ordinal <- weighted "ordinal" ;;
  money <- weighted "money" ;;
  telephone <- weighted "telephone" ;;
  electronic <- weighted "electronic" ;;
  word <- weighted "word" ;;
  ret (whitelist |: time |: date |: decimal |: measure |: cardinal |: ordinal
       |: money |: telephone |: electronic |: word)%fst.

Definition punct (punct_graph : Fst) : Fst :=
  (insert "tokens { " +: add_weight punct_graph 1.1%Q +: insert " }")%fst.

Definition token (classify : Fst) : Fst :=
  (insert "tokens { " +: classify +: insert " }")%fst.

Definition token_plus_punct (punct token : Fst) : Fst :=
  (closure (punct +: insert " ") +: token +: closure (insert " " +: punct))%fst.

(** [far_file = None; if cache_dir is not None and cache_dir != "None":
    os.makedirs(cache_dir, exist_ok=True); far_file =
    os.path.join(cache_dir, file_name)] *)
Definition cache_far_file (cache_dir : option string) (file_name : string)
    : M (option string) :=
  match cache_dir with
  | Some dir =>
      if negb (String.eqb dir "None") then
        os_makedirs dir ;;
        ret (Some (os_path_join dir file_name))
      else ret None
  | None => ret None
  end.

(** [not overwrite_cache and far_file and os.path.exists(far_file)] *)
Definition use_cache (overwrite_cache : bool) (far_file : option string)
    : M bool :=
  match far_file with
  | Some path =>
      present <- os_path_exists path ;;
      ret (negb overwrite_cache && truthy far_file && present)
  | None => ret false
  end.

(** Lines 71 to 114, the same in both files: the defaults of the two
    dictionaries and the diagnostics for the keys that name no class.
    [excluded_classes] is only read and is passed by value; [class_weights]
    is written to and is passed by reference. *)
Definition configure (excluded_classes : option (dict bool))
    (class_weights : option loc) : M (dict bool * loc) :=
  let excluded_classes := default [] excluded_classes in
  warn_excluded_classes excluded_classes ;;
  class_weights <- match class_weights with
                   | None => new_dict
                   | Some l => ret l
                   end ;;
  fill_default_weights class_weights ;;
  warn_class_weights class_weights ;;
  ret (excluded_classes, class_weights).

(** Lines 121 to 123 (120 to 122): the grammar is read from the archive. *)
Definition restore (path : string) : M GraphFst :=
  fst <- Far_getitem path "tokenize_and_classify" ;;
  logging_info ("ClassifyFst.fst was restored from " ++ path ++ ".") ;;
  ret (mkGraphFst "tokenize_and_classify" "classify" fst).

(** Lines 192 to 194 (191 to 193): [if far_file: generator_main(far_file,
    {"tokenize_and_classify": self.fst}); logging.info(...)] *)
Definition save (far_file : option string) (fst : Fst) : M unit :=
  match far_file with
  | Some path =>
      if truthy far_file then
        generator_main path [("tokenize_and_classify", fst)] ;;
        logging_info ("ClassifyFst grammars are saved to " ++ path ++ ".")
      else ret tt
  | None => ret tt
  end.

(** ** The English constructor *)

Module En.

(** Lines 128 to 161: the class grammars are built, each from the grammars it
    depends on, and put in [class_graphs]. *)
Definition punct_graph : Fst := Grammar "en.PunctuationFst" [].

Definition class_graphs : dict Fst :=
  let cardinal := Grammar "en.CardinalFst" [] in
  let cardinal_graph := cardinal in
  let ordinal := Grammar "en.OrdinalFst" [cardinal] in
  let ordinal_graph := ordinal in
  let decimal := Grammar "en.DecimalFst" [cardinal] in
  let decimal_graph := decimal in
  let measure_graph := Grammar "en.MeasureFst" [cardinal; decimal] in
  let date_graph := Grammar "en.DateFst" [ordinal] in
  let word_graph := Grammar "en.WordFst" [] in
  let time_graph := Grammar "en.TimeFst" [] in
  let money_graph := Grammar "en.MoneyFst" [cardinal; decimal] in
  let whitelist_graph := Grammar "en.WhiteListFst" [] in
  let electronic_graph := Grammar "en.ElectronicFst" [] in
  let telephone_graph := Grammar "en.TelephoneFst" [cardinal] in
  [ ("cardinal", cardinal_graph); ("ordinal", ordinal_graph);
    ("decimal", decimal_graph); ("measure", measure_graph);
    ("date", date_graph); ("word", word_graph); ("time", time_graph);
    ("money", money_graph); ("electronic", electronic_graph);
    ("telephone", telephone_graph); ("whitelist", whitelist_graph) ].

(** Lines 125 to 194, the [else] branch: the grammar is built and, when
    there is an archive path, saved. *)
Definition build (excluded_classes : dict bool) (class_weights : loc)
    (far_file : option string) : M GraphFst :=
  logging_info "Creating ClassifyFst grammars." ;;
  let class_graphs := exclusion_filter excluded_classes class_graphs in
  weights <- deref class_weights ;;
  classify <- classify class_graphs weights ;;
  let punct := punct punct_graph in
  let token := token classify in
  let token_plus_punct := token_plus_punct punct token in
  let graph :=
    (token_plus_punct +: closure (delete_extra_space +: token_plus_punct))%fst in
  let graph := (delete_space +: graph +: delete_space)%fst in
  let fst := optimize graph in
  save far_file fst ;;
  ret (mkGraphFst "tokenize_and_classify" "classify" fst).

(** Lines 117 to 194: the archive path, then the grammar restored from the
    archive or built. *)
Definition load_or_build (cache_dir : option string) (overwrite_cache : bool)
    (excluded_classes : dict bool) (class_weights : loc) : M GraphFst :=
  far_file <- cache_far_file cache_dir "_en_itn.far" ;;
  cached <- use_cache overwrite_cache far_file ;;
  match cached, far_file with
  | true, Some path => restore path
  | _, _ => build excluded_classes class_weights far_file
  end.

(** [ClassifyFst.__init__(self, cache_dir, overwrite_cache, excluded_classes,
    class_weights)] of the English tagger. *)
Definition ClassifyFst_init (cache_dir : option string) (overwrite_cache : bool)
    (excluded_classes : option (dict bool)) (class_weights : option loc)
    : M GraphFst :=
  cfg <- configure excluded_classes class_weights ;;
  let '(excluded_classes, class_weights) := cfg in
  shown <- deref class_weights ;;
  print shown ;;
  load_or_build cache_dir overwrite_cache excluded_classes class_weights.

End En.

(** ** The forward-direction grammar the Russian constructor embeds *)

Module TN.

Record ClassifyFst : Type := mkClassifyFst {
  fst : Fst;
  cardinal : Fst;
  ordinal : Fst;
  decimal : Fst;
  measure : Fst;
  date : Fst;
  time : Fst;
  money : Fst;
  electronic : Fst;
  telephone : Fst
}.

(** Modelled from the spec: the constructor of the forward-direction
    grammar, [text_normalization/ru/taggers/tokenize_and_classify.py], is not
    among the sources.  Section 4.6 and section 6 of the specification: the
    artifact is one file per language and direction under [cache_dir]; it is
    read before building when overwriting is off and the path exists;
    otherwise the grammar is built and, when there is a cache directory,
    stored, also over an existing artifact.  The class grammars it exposes are
    atoms here. *)
Definition with_fst (fst : Fst) : ClassifyFst :=
  mkClassifyFst fst
    (Grammar "ru.tn.CardinalFst" []) (Grammar "ru.tn.OrdinalFst" [])
    (Grammar "ru.tn.DecimalFst" []) (Grammar "ru.tn.MeasureFst" [])
    (Grammar "ru.tn.DateFst" []) (Grammar "ru.tn.TimeFst" [])
    (Grammar "ru.tn.MoneyFst" []) (Grammar "ru.tn.ElectronicFst" [])
    (Grammar "ru.tn.TelephoneFst" []).

Definition built_fst : Fst := optimize (Grammar "ru.tn.ClassifyFst" []).

Definition ClassifyFst_init (args : TNArgs) : M ClassifyFst :=
  emit (TNConstructed args) ;;
  far_file <- cache_far_file (tn_cache_dir args) "_ru_tn.far" ;;
  cached <- use_cache (tn_overwrite_cache args) far_file ;;
  match cached, far_file with
  | true, Some path =>
      fst <- Far_getitem path "tokenize_and_classify" ;;
      ret (with_fst fst)
  | _, _ =>
      let fst := built_fst in
      match far_file with
      | Some path => generator_main path [("tokenize_and_classify", fst)]
      | None => ret tt
      end ;;
      ret (with_fst fst)
  end.

End TN.

(** ** The Russian constructor *)

Module Ru.

(** Lines 129 to 160: the class grammars are built from the class grammars
    of the forward-direction grammar and put in [class_graphs]; the word and
    punctuation grammars are the English ones. *)
Definition punct_graph : Fst := Grammar "en.PunctuationFst" [].

Definition class_graphs (tn_classify : TN.ClassifyFst) : dict Fst :=
  let cardinal := Grammar "ru.CardinalFst" [TN.cardinal tn_classify] in
  let cardinal_graph := cardinal in
  let ordinal := Grammar "ru.OrdinalFst" [TN.ordinal tn_classify] in
  let ordinal_graph := ordinal in
  let decimal := Grammar "ru.DecimalFst" [TN.decimal tn_classify] in
  let decimal_graph := decimal in
  let measure_graph := Grammar "ru.MeasureFst" [TN.measure tn_classify] in
  let date_graph := Grammar "ru.DateFst" [TN.date tn_classify] in
  let word_graph := Grammar "en.WordFst" [] in
  let time_graph := Grammar "ru.TimeFst" [TN.time tn_classify] in
  let money_graph := Grammar "ru.MoneyFst" [TN.money tn_classify] in
  let whitelist_graph := Grammar "ru.WhiteListFst" [] in
  let electronic_graph := Grammar "ru.ElectronicFst" [TN.electronic tn_classify] in
  let telephone_graph := Grammar "ru.TelephoneFst" [TN.telephone tn_classify] in
  [ ("cardinal", cardinal_graph); ("ordinal", ordinal_graph);
    ("decimal", decimal_graph); ("measure", measure_graph);
    ("date", date_graph); ("word", word_graph); ("time", time_graph);
    ("money", money_graph); ("electronic", electronic_graph);
    ("telephone", telephone_graph); ("whitelist", whitelist_graph) ].

(** Lines 124 to 193, the [else] branch: the forward-direction grammar is
    constructed, then the grammar is built and, when there is an archive
    path, saved. *)
Definition build (cache_dir : option string) (excluded_classes : dict bool)
    (class_weights : loc) (far_file : option string) : M GraphFst :=
  logging_info "Creating ClassifyFst grammars. This might take some time..." ;;
  tn_classify <- TN.ClassifyFst_init (mkTNArgs "cased" false cache_dir true) ;;
  let class_graphs :=
    exclusion_filter excluded_classes (class_graphs tn_classify) in
  weights <- deref class_weights ;;
  classify <- classify class_graphs weights ;;
  let punct := punct punct_graph in
  let token := token classify in
  let token_plus_punct := token_plus_punct punct token in
  let graph :=
    (token_plus_punct
     +: closure (add_weight delete_extra_space 1.1%Q +: token_plus_punct))%fst in
  let graph := (delete_space +: graph +: delete_space)%fst in
  let fst := optimize graph in
  save far_file fst ;;
  ret (mkGraphFst "tokenize_and_classify" "classify" fst).

(** Lines 116 to 193. *)
Definition load_or_build (cache_dir : option string) (overwrite_cache : bool)
    (excluded_classes : dict bool) (class_weights : loc) : M GraphFst :=
  far_file <- cache_far_file cache_dir "_ru_itn.far" ;;
  cached <- use_cache overwrite_cache far_file ;;
  match cached, far_file with
  | true, Some path => restore path
  | _, _ => build cache_dir excluded_classes class_weights far_file
  end.

(** [ClassifyFst.__init__] of the Russian tagger. *)
Definition ClassifyFst_init (cache_dir : option string) (overwrite_cache : bool)
    (excluded_classes : option (dict bool)) (class_weights : option loc)
    : M GraphFst :=
  cfg <- configure excluded_classes class_weights ;;
  let '(excluded_classes, class_weights) := cfg in
  load_or_build cache_dir overwrite_cache excluded_classes class_weights.

End Ru.

(** ** The vocabulary of the properties *)

(** The order in which [classify] lists the classes. *)
Definition union_order : list string :=
  [ "whitelist"; "time"; "date"; "decimal"; "measure"; "cardinal"; "ordinal";
    "money"; "telephone"; "electronic"; "word" ].

(** The keys of a dictionary that are not class names, in iteration order. *)
Definition unknown_keys {V} (d : dict V) : list string :=
  List.filter (fun k => negb (str_in k classes)) (dict_keys d).

(** The entries of a dictionary whose keys are class names. *)
Definition known_entries {V} (d : dict V) : dict V :=
  List.filter (fun e => str_in e.1 classes) d.

Definition excluded_diagnostic (k : string) : event :=
  LogInfo ("The class " ++ k ++
           " is not being excluded as the class does not exist.").

Definition weight_diagnostic (k : string) : event :=
  LogInfo ("The class " ++ k ++
    " does not have a custom class weight applied to it as the class does not exist.").

(** One round of the loop that fills the defaults in, and the whole loop, on
    the value of the dictionary. *)
Definition fill_step (d : dict Q) (e : string * Q) : dict Q :=
  if dict_mem e.1 d then d else dict_set e.1 e.2 d.

Definition filled (d : dict Q) : dict Q := foldl fill_step d default_class_weights.

(** The weight the specification gives a class: the caller's entry when
    there is one, the entry of the default table otherwise. *)
Definition effective_weight (d : dict Q) (c : string) : Q :=
  match dict_get c d with
  | Some w => w
  | None => dict_get_default c 0%Q default_class_weights
  end.

(** The dictionary a [class_weights] argument denotes when the call
    starts. *)
Definition weights_of (w : World) (class_weights : option loc) : dict Q :=
  match class_weights with
  | Some l => default [] (heap w !! l)
  | None => []
  end.

(** A reference a caller can hold points to an object. *)
Definition valid_ref (w : World) (class_weights : option loc) : Prop :=
  match class_weights with
  | Some l => l < length (heap w)
  | None => True
  end.

(** The cache directory is in use: [cache_dir is not None and cache_dir !=
    "None"]. *)
Definition cache_on (cache_dir : option string) : bool :=
  match cache_dir with
  | Some dir => negb (String.eqb dir "None")
  | None => false
  end.

(** The object the constructor works on: the caller's, or a new one. *)
Definition ref_of (w : World) (class_weights : option loc) : loc :=
  match class_weights with
  | Some l => l
  | None => length (heap w)
  end.

(** The world when [configure] returns. *)
Definition configured (excluded_classes : option (dict bool))
    (class_weights : option loc) (w : World) : World :=
  mkWorld
    (match class_weights with
     | Some l => <[l := filled (weights_of w class_weights)]> (heap w)
     | None => heap w ++ [filled []]
     end)
    (files w) (dirs w)
    (trace w
     ++ map excluded_diagnostic (unknown_keys (default [] excluded_classes))
     ++ map weight_diagnostic (unknown_keys (filled (weights_of w class_weights)))).

(** [a1 | a2 | ... | an] *)
Definition unions (l : list Fst) : Fst :=
  match l with
  | [] => string_map_nil
  | g :: l' => foldl union g l'
  end.

(** The operand of a class: its grammar shifted by its weight. *)
Definition alternative (graphs : dict Fst) (weights : dict Q) (c : string)
    : option Fst :=
  match dict_get c graphs, dict_get c weights with
  | Some g, Some w => Some (add_weight g w)
  | _, _ => None
  end.

(** The archive path: [None] when the cache is off. *)
Definition far_file_of (cache_dir : option string) (file_name : string)
    : option string :=
  match cache_dir with
  | Some dir =>
      if negb (String.eqb dir "None") then Some (os_path_join dir file_name)
      else None
  | None => None
  end.

(** The cache directory can be made: it has a name and no regular file is in
    the way. *)
Definition usable (w : World) (cache_dir : option string) : Prop :=
  match cache_dir with
  | Some dir => String.eqb dir "None" = false -> dir <> "" /\ files w !! dir = None
  | None => True
  end.

Definition add_dir (dir : string) (w : World) : World :=
  mkWorld (heap w) (files w) ({[dir]} ∪ dirs w) (trace w).

Definition log_to (events : list event) (w : World) : World :=
  mkWorld (heap w) (files w) (dirs w) (trace w ++ events).

Definition with_cache_dir (cache_dir : option string) (w : World) : World :=
  match cache_dir with
  | Some dir => if negb (String.eqb dir "None") then add_dir dir w else w
  | None => w
  end.

Definition exists_at (w : World) (path : string) : bool :=
  match files w !! path with
  | Some _ => true
  | None => bool_decide (path ∈ dirs w)
  end.

Definition cache_hit (overwrite_cache : bool) (far_file : option string)
    (w : World) : bool :=
  match far_file with
  | Some path => negb overwrite_cache && truthy far_file && exists_at w path
  | None => false
  end.

(** The world after [save]. *)
Definition saved (far_file : option string) (g : Fst) (w : World) : World :=
  match far_file with
  | Some path =>
      if truthy far_file then
        mkWorld (heap w)
          (<[path := FarArchive [("tokenize_and_classify", g)]]> (files w))
          (dirs w)
          (trace w ++ [FarExport path;
                       LogInfo ("ClassifyFst grammars are saved to " ++ path ++ ".")])
      else w
  | None => w
  end.

(** The operand of a class as the specification describes it: the empty grammar for
    an excluded class, the class grammar otherwise, shifted by the weight of
    the class. *)
Definition shifted (excluded : dict bool) (graphs : dict Fst) (d : dict Q)
    (c : string) : Fst :=
  add_weight
    (if dict_get_default c false excluded then empty_fst
     else dict_get_default c empty_fst graphs)
    (effective_weight d c).

(** The sentence grammar as the specification describes it: the tagged token, the
    tagged punctuation shifted by [punct_weight], punctuation around the
    token, the tokens of the sentence with [separator] between them, the
    spaces at both ends deleted, the whole optimized. *)
Definition sentence (punct_weight : Q) (separator classify punct_graph : Fst)
    : Fst :=
  let token := (insert "tokens { " +: classify +: insert " }")%fst in
  let punct :=
    (insert "tokens { " +: add_weight punct_graph punct_weight +: insert " }")%fst in
  let token_plus_punct :=
    (closure (punct +: insert " ") +: token +: closure (insert " " +: punct))%fst in
  optimize (delete_space
            +: (token_plus_punct +: closure (separator +: token_plus_punct))
            +: delete_space)%fst.

(** The grammar the English constructor builds. *)
Definition En_built (excluded : dict bool) (d : dict Q) : Fst :=
  sentence 1.1%Q delete_extra_space
    (unions (map (shifted excluded En.class_graphs d) union_order))
    En.punct_graph.

(** The grammar the Russian constructor builds. *)
Definition Ru_built (excluded : dict bool) (d : dict Q) : Fst :=
  sentence 1.1%Q (add_weight delete_extra_space 1.1%Q)
    (unions (map (shifted excluded (Ru.class_graphs (TN.with_fst TN.built_fst)) d)
               union_order))
    Ru.punct_graph.

Definition self_of (g : Fst) : GraphFst :=
  mkGraphFst "tokenize_and_classify" "classify" g.

(** The arguments the Russian constructor passes to the forward-direction
    constructor. *)
Definition tn_args (cache_dir : option string) : TNArgs :=
  mkTNArgs "cased" false cache_dir true.

(** The world after the forward-direction constructor has run with these
    arguments. *)
Definition tn_rebuilt (cache_dir : option string) (w : World) : World :=
  let w1 := with_cache_dir cache_dir (log_to [TNConstructed (tn_args cache_dir)] w) in
  match far_file_of cache_dir "_ru_tn.far" with
  | Some path =>
      mkWorld (heap w1)
        (<[path := FarArchive [("tokenize_and_classify", TN.built_fst)]]> (files w1))
        (dirs w1) (trace w1 ++ [FarExport path])
  | None => w1
  end.

(** The world in which the English constructor looks for the archive. *)
Definition En_ready (cd : option string) (ex : option (dict bool))
    (cw : option loc) (w : World) : World :=
  with_cache_dir cd (log_to [Print (filled (weights_of w cw))] (configured ex cw w)).

(** The world in which the Russian constructor looks for the archive. *)
Definition Ru_ready (cd : option string) (ex : option (dict bool))
    (cw : option loc) (w : World) : World :=
  with_cache_dir cd (configured ex cw w).

(** The constructor builds: it is told to overwrite, or the cache is off, or
    nothing is at the archive path. *)
Definition builds (file_name : string) (cache_dir : option string)
    (overwrite_cache : bool) (w : World) : Prop :=
  overwrite_cache = true \/
  match far_file_of cache_dir file_name with
  | Some path => files w !! path = None /\ path ∉ dirs w
  | None => True
  end.

Definition En_alternation (excluded : dict bool) (d : dict Q) : Fst :=
  unions (map (shifted excluded En.class_graphs d) union_order).

Definition Ru_alternation (excluded : dict bool) (d : dict Q) : Fst :=
  unions (map (shifted excluded (Ru.class_graphs (TN.with_fst TN.built_fst)) d)
            union_order).

(** A world with no object, no file and no event, and worlds made from it,
    to run the constructors on. *)
Definition fresh_world : World := mkWorld [] ∅ ∅ [].

Definition world_with_dict (d : dict Q) : World := mkWorld [d] ∅ ∅ [].

Definition world_with_file (path : string) (f : file) : World :=
  mkWorld [] {[path := f]} ∅ [].

(** Modelled from the spec: the grammar algebra is pynini's and the classify
    and tokenize pass, that is the normalizer and the shortest-path search
    it calls, is not among the sources.

    Section 4.1 of the specification: [concat] accepts a string of the first
    grammar followed by a string of the second, and the weight is the sum;
    [union] accepts the strings of either; [closure] is the Kleene star;
    [insert] consumes no input, at no cost; the grammar built from no pair
    is the empty language; [optimize] does not change the accepted weighted
    relation.  Section 3: the weights of a path add up, and a class weight
    is a shift of every path of the class grammar.  Section 4.4: the leading
    and the trailing space are deleted and one or more white space between
    tokens is collapsed.  Section 4.5: the pass runs shortest-path against
    the ClassifyGrammar, the minimum total weight; paths that tie in total
    weight are resolved by the order in which the alternation lists the
    classes, then by left-most, longest match.

    A path records the weights it passes and, for every alternation it
    passes, the position of the operand it takes.  What a class grammar
    reads is not specified (section 1): [cost] gives the weight of its
    cheapest path on a text, if it reads the text.  Which characters are
    white space is declared in [graph_utils]: [space]. *)
Section ShortestPath.

Variable space : ascii -> bool.

Variable cost : Fst -> list ascii -> option Q.

Record fst_path : Type := mkPath { arcs : list Q; positions : list nat }.

Definition total_weight (p : fst_path) : Q := foldr Qplus 0%Q (arcs p).

(** The path that reads nothing at no cost. *)
Definition idle : fst_path := mkPath [] [].

Definition shift (w : Q) (p : fst_path) : fst_path := mkPath (w :: arcs p) (positions p).

(** The path through the operand at position [i] of an alternation. *)
Definition through (i : nat) (p : fst_path) : fst_path := mkPath (arcs p) (i :: positions p).

(** A path of the first grammar followed by a path of the second. *)
Definition follow (p q : fst_path) : fst_path :=
  mkPath (arcs p ++ arcs q) (positions p ++ positions q).

Definition product (ps qs : list fst_path) : list fst_path :=
  p ← ps; q ← qs; [follow p q].

(** The ways to cut a text in two, the longest first piece first. *)
Fixpoint splits (s : list ascii) : list (list ascii * list ascii) :=
  match s with
  | [] => [([], [])]
  | c :: rest => ((fun cut => (c :: cut.1, cut.2)) <$> splits rest) ++ [([], s)]
  end.

(** The paths of a Kleene star on a text: no iteration on the empty text,
    else a first iteration on a piece that is not empty and the star on the
    rest.  [fuel] bounds the number of iterations; the length of the text is
    enough. *)
Fixpoint star (step : list ascii -> list fst_path) (fuel : nat) (s : list ascii)
    : list fst_path :=
  match s with
  | [] => [idle]
  | _ :: _ =>
      match fuel with
      | 0 => []
      | S fuel' =>
          cut ← splits s;
          if bool_decide (cut.1 = []) then []
          else product (step cut.1) (star step fuel' cut.2)
      end
  end.

(** The paths of a grammar that read exactly the text [s]. *)
Fixpoint paths (g : Fst) (s : list ascii) : list fst_path :=
  match g with
  | string_map_nil => []
  | Grammar _ _ =>
      match cost g s with
      | Some c => [mkPath [c] []]
      | None => []
      end
  | delete_space => if forallb space s then [idle] else []
  | delete_extra_space =>
      if negb (bool_decide (s = [])) && forallb space s then [idle] else []
  | insert _ => if bool_decide (s = []) then [idle] else []
  | add_weight a w => shift w <$> paths a s
  | union a b =>
      match a with
      | union _ _ => paths a s
      | _ => through 0 <$> paths a s
      end ++ (through (length (union_operands a)) <$> paths b s)
  | concat a b => cut ← splits s; product (paths a cut.1) (paths b cut.2)
  | closure a => star (paths a) (length s) s
  | optimize a => paths a s
  end.

(** The position lists in the order of the alternations: the earlier
    operand at the first alternation where they differ. *)
Fixpoint earlier (l1 l2 : list nat) : bool :=
  match l1, l2 with
  | [], [] => false
  | [], _ :: _ => true
  | _ :: _, [] => false
  | i :: l1', j :: l2' => Nat.ltb i j || (Nat.eqb i j && earlier l1' l2')
  end.

(** [p] is to be taken rather than [q]: it is cheaper, or it costs the same
    and takes the earlier operand. *)
Definition better (p q : fst_path) : bool :=
  if Qeq_bool (total_weight p) (total_weight q)
  then earlier (positions p) (positions q)
  else Qle_bool (total_weight p) (total_weight q).

(** The paths are gone through in the order [paths] lists them, longer first
    pieces first; a later path takes the place of the best so far only when
    it is better. *)
Fixpoint scan (best : option fst_path) (ps : list fst_path) : option fst_path :=
  match ps with
  | [] => best
  | p :: rest =>
      scan (match best with
            | Some b => if better p b then Some p else best
            | None => Some p
            end) rest
  end.

Definition shortest_path (g : Fst) (s : list ascii) : option fst_path :=
  scan None (paths g s).

End ShortestPath.

Definition is_blank (c : ascii) : bool := Ascii.eqb c " ".

(** A span that the cardinal and the ordinal grammar both read at cost 1
    and no other grammar reads. *)
Definition cardinal_or_ordinal (g : Fst) (s : list ascii) : option Q :=
  match g with
  | Grammar cls _ =>
      if (String.eqb cls "en.CardinalFst" || String.eqb cls "en.OrdinalFst")
         && bool_decide (s = ["1"%char])
      then Some 1%Q else None
  | _ => None
  end.

(** A span that holds one token: no white space, and no piece of it is read
    by the punctuation grammar. *)
Definition plain (space : ascii -> bool) (cost : Fst -> list ascii -> option Q)
    (punct_graph : Fst) (s : list ascii) : Prop :=
  Forall (fun c => space c = false) s /\
  forall pre piece post, s = (pre ++ piece ++ post)%list ->
    cost punct_graph piece = None.

(** What the pass does on the grammar [g], whose alternation has the operands
    [operands], on the span [s]: it returns a path if and only if some
    operand reads the span; the path it returns goes through one operand,
    with the weights of the cheapest path of that operand; no operand reads
    the span at a lower total weight, and an operand that reads it at
    exactly the same total weight is not listed before it. *)
Definition ties_go_to_the_earlier (space : ascii -> bool)
    (cost : Fst -> list ascii -> option Q) (g : Fst) (operands : list Fst)
    (s : list ascii) : Prop :=
  (is_Some (shortest_path space cost g s) <->
   exists operand, operand ∈ operands /\
     is_Some (shortest_path space cost operand s)) /\
  forall winner, shortest_path space cost g s = Some winner ->
    exists i operand p,
      positions winner = [i] /\ operands !! i = Some operand /\
      shortest_path space cost operand s = Some p /\
      arcs winner = arcs p /\
      forall j other q,
        operands !! j = Some other ->
        shortest_path space cost other s = Some q ->
        (total_weight winner <= total_weight q)%Q /\
        ((total_weight q == total_weight winner)%Q -> i <= j).

(** What the pass does on the grammar [g] on any text [s]: the path it
    returns is a path of the grammar on the text, none is cheaper, and a
    path of exactly the same total weight does not take an earlier operand
    at the first alternation where the two differ. *)
Definition cheapest_then_earliest (space : ascii -> bool)
    (cost : Fst -> list ascii -> option Q) (g : Fst) (s : list ascii) : Prop :=
  forall winner, shortest_path space cost g s = Some winner ->
    winner ∈ paths space cost g s /\
    forall p, p ∈ paths space cost g s ->
      (total_weight winner <= total_weight p)%Q /\
      ((total_weight p == total_weight winner)%Q ->
       earlier (positions p) (positions winner) = false).

(** A grammar that the constructor does not put together itself. *)
Definition is_leaf (g : Fst) : bool :=
  match g with
  | string_map_nil | Grammar _ _ => true
  | _ => false
  end.

(** [g] reads the empty piece of a token and no other piece of it; [g]
    reads no piece of a token. *)
Definition silent (space : ascii -> bool) (cost : Fst -> list ascii -> option Q)
    (punct_graph g : Fst) : Prop :=
  forall piece, plain space cost punct_graph piece ->
    paths space cost g piece = if bool_decide (piece = []) then [idle] else [].

Definition dead (space : ascii -> bool) (cost : Fst -> list ascii -> option Q)
    (punct_graph g : Fst) : Prop :=
  forall piece, plain space cost punct_graph piece ->
    paths space cost g piece = [].

(** The world in which the caller's dictionaries hold the entries of the
    known classes only. *)
Definition without_unknown_keys (l : nat) (d : dict Q) (w : World) : World :=
  mkWorld (<[l := known_entries d]> (heap w)) (files w) (dirs w) (trace w).


(** * The transcription script

    Embedding of [main] of [examples/asr/transcribe_speech.py].  The script
    drives collaborators that are declared elsewhere (the model set-up, the
    audio preparation, the transcription and the writer of
    [transcribe_utils], torch, the file system); their answers are given by
    an environment, each may raise, and every call [main] makes is recorded in
    a trace with the values it is made with.  [torch.device] is one of them:
    whether it takes a device name, ['cuda:-1'] say, is for torch to decide.
    The collaborators are taken to leave the configuration they are given as
    it is; [compute_output_filename] returns the configuration to go on
    with.  The [hydra_runner] decorator, which makes the configuration and
    calls the function, is not part of the embedding. *)

Module Transcribe.

(** [CTCDecodingConfig] and [RNNTDecodingConfig] are declared elsewhere:
    the fields [main] writes are named, the others are carried along. *)
Record CTCDecodingConfig : Type := mkCTC { ctc_settings : dict string }.

Record RNNTDecodingConfig : Type := mkRNNT {
  fused_batch_size : Z;
  rnnt_compute_langs : bool;
  rnnt_settings : dict string
}.

Record TranscriptionConfig : Type := mkConfig {
  model_path : option string;
  pretrained_name : option string;
  audio_dir : option string;
  dataset_manifest : option string;
  output_filename : option string;
  batch_size : Z;
  num_workers : Z;
  append_pred : bool;
  pred_name_postfix : option string;
  compute_langs : bool;
  cuda : option Z;
  amp : bool;
  audio_type : string;
  overwrite_transcripts : bool;
  ctc_decoding : CTCDecodingConfig;
  rnnt_decoding : RNNTDecodingConfig
}.

(** [cfg.rnnt_decoding = r] *)
Definition set_rnnt_decoding (cfg : TranscriptionConfig) (r : RNNTDecodingConfig)
    : TranscriptionConfig :=
  mkConfig (model_path cfg) (pretrained_name cfg) (audio_dir cfg)
    (dataset_manifest cfg) (output_filename cfg) (batch_size cfg)
    (num_workers cfg) (append_pred cfg) (pred_name_postfix cfg)
    (compute_langs cfg) (cuda cfg) (amp cfg) (audio_type cfg)
    (overwrite_transcripts cfg) (ctc_decoding cfg) r.

(** What [main] asks of the model object: [hasattr(asr_model,
    'change_decoding_strategy')], [hasattr(asr_model, 'joint')] and
    [isinstance(asr_model, EncDecCTCModel)]. *)
Record Model : Type := mkModel {
  model_id : string;
  has_change_decoding_strategy : bool;
  has_joint : bool;
  is_EncDecCTCModel : bool
}.

(** The value of [device]: a list of device indices ([[0]], [[cfg.cuda]])
    or a number of devices ([1]). *)
Inductive device : Type :=
| DeviceList (ids : list Z)
| DeviceCount (n : Z).

(** A [torch.device] object, as [torch.device] made it. *)
Inductive torch_device : Type :=
| Device (made_from : string).

(** The transcriptions: a list of hypotheses, or a tuple. *)
Inductive pyval : Type :=
| PyList (items : list string)
| PyTuple (items : list pyval).

Inductive error : Type :=
| ValueError (msg : string)
| TypeError (msg : string)
| IndexError (msg : string)
| Raised (by_ : string).            (* raised by a collaborator *)

Inductive outcome (A : Type) : Type :=
| Returns (a : A)
| Raises (e : error).
Arguments Returns {A} a.
Arguments Raises {A} e.

Inductive event : Type :=
| Info (msg : string)                                   (* logging.info *)
| Warning (msg : string)                                (* logging.warning *)
| TorchDevice (name : string)                           (* torch.device(name) *)
| SetupModel (cfg : TranscriptionConfig) (map_location : torch_device)
| Trainer (devices : device) (accelerator : string)     (* pl.Trainer(...) *)
| SetTrainer (m : Model)
| Eval (m : Model)
| ChangeDecodingRNNT (m : Model) (r : RNNTDecodingConfig)
| ChangeDecodingCTC (m : Model) (c : CTCDecodingConfig)
| PrepareAudioData (cfg : TranscriptionConfig)
| ComputeOutputFilename (cfg : TranscriptionConfig) (model_name : string)
| PathExists (path : option string)
| Autocast (amp_enabled : bool)                         (* with autocast(): *)
| NoGrad                                                (* with torch.no_grad(): *)
| TranscribePartialAudio (m : Model) (path2manifest : option string)
    (batch_size num_workers : Z) (return_hypotheses : bool)
| TranscribeCall (m : Model) (paths2audio_files : list string)
    (batch_size num_workers : Z) (return_hypotheses : bool)
| WriteTranscription (transcriptions : pyval) (cfg : TranscriptionConfig)
    (model_name : string) (filepaths : list string) (compute_langs : bool).

(** The collaborators. *)
Record Env : Type := mkEnv {
  to_yaml : TranscriptionConfig -> string;         (* OmegaConf.to_yaml *)
  cuda_is_available : bool;                        (* torch.cuda.is_available() *)
  has_autocast : bool;   (* hasattr(torch.cuda, 'amp') and hasattr(torch.cuda.amp, 'autocast') *)
  new_torch_device : string -> outcome torch_device;        (* torch.device *)
  setup_model : TranscriptionConfig -> torch_device -> outcome (Model * string);
  prepare_audio_data : TranscriptionConfig -> outcome (list string * bool);
  compute_output_filename :
    TranscriptionConfig -> string -> outcome TranscriptionConfig;
  path_exists : string -> bool;                    (* os.path.exists *)
  transcribe_partial_audio :
    Model -> option string -> Z -> Z -> bool -> outcome pyval;
  transcribe : Model -> list string -> Z -> Z -> bool -> outcome pyval;
  write_transcription :
    pyval -> TranscriptionConfig -> string -> list string -> bool -> outcome string
}.

(** A computation adds to the trace and returns or raises. *)
Definition T (A : Type) : Type := list event -> outcome A * list event.

Definition pure {A} (a : A) : T A := fun t => (Returns a, t).

Definition throw {A} (e : error) : T A := fun t => (Raises e, t).

Definition and_then {A B} (m : T A) (k : A -> T B) : T B :=
  fun t =>
    match m t with
    | (Returns a, t') => k a t'
    | (Raises e, t') => (Raises e, t')
    end.

Definition record (e : event) : T unit := fun t => (Returns tt, (t ++ [e])%list).

(** A call of a collaborator: the call is recorded, then its answer is
    returned or its exception raised. *)
Definition call {A} (e : event) (answer : outcome A) : T A :=
  fun t => (answer, (t ++ [e])%list).

Declare Scope transcribe_scope.
Delimit Scope transcribe_scope with transcribe.
Notation "x <~ m ;; k" := (and_then m (fun x => k))
  (at level 100, m at next level, right associativity) : transcribe_scope.
Notation "m ;;; k" := (and_then m (fun _ => k))
  (at level 100, right associativity) : transcribe_scope.
Open Scope transcribe_scope.

(** [str(x)] inside an f-string *)
Definition str_bool (b : bool) : string := if b then "True" else "False".

Definition str_option (s : option string) : string :=
  match s with Some s => s | None => "None" end.

Fixpoint join_ints (l : list Z) : string :=
  match l with
  | [] => ""
  | [x] => pretty x
  | x :: rest => pretty x ++ ", " ++ join_ints rest
  end.

Definition str_device (d : device) : string :=
  match d with
  | DeviceList ids => "[" ++ join_ints ids ++ "]"
  | DeviceCount n => pretty n
  end.

(** [device[0]] *)
Definition device_0 (d : device) : T Z :=
  match d with
  | DeviceList (x :: _) => pure x
  | DeviceList [] => throw (IndexError "list index out of range")
  | DeviceCount _ => throw (TypeError "'int' object is not subscriptable")
  end.

(** Lines 131 to 140. *)
Definition select_device (env : Env) (cfg : TranscriptionConfig)
    : device * string :=
  match cuda cfg with
  | None =>
      if cuda_is_available env then (DeviceList [0%Z], "gpu")
      else (DeviceCount 1%Z, "cpu")
  | Some n => (DeviceList [n], "gpu")
  end.

(** Lines 191 to 218: the transcription, inside [with autocast():] and
    [with torch.no_grad():]. *)
Definition transcribe_audio (env : Env) (cfg : TranscriptionConfig)
    (asr_model : Model) (filepaths : list string) (partial_audio : bool)
    (amp_enabled return_hypotheses : bool) : T pyval :=
  record (Autocast amp_enabled) ;;;
  record NoGrad ;;;
  if partial_audio then
    if is_EncDecCTCModel asr_model then
      call (TranscribePartialAudio asr_model (dataset_manifest cfg)
              (batch_size cfg) (num_workers cfg) return_hypotheses)
           (transcribe_partial_audio env asr_model (dataset_manifest cfg)
              (batch_size cfg) (num_workers cfg) return_hypotheses)
    else
      record (Warning
        "RNNT models do not support transcribe partial audio for now. Transcribing full audio.") ;;;
      call (TranscribeCall asr_model filepaths (batch_size cfg)
              (num_workers cfg) return_hypotheses)
           (transcribe env asr_model filepaths (batch_size cfg)
              (num_workers cfg) return_hypotheses)
  else
    call (TranscribeCall asr_model filepaths (batch_size cfg)
            (num_workers cfg) return_hypotheses)
         (transcribe env asr_model filepaths (batch_size cfg)
            (num_workers cfg) return_hypotheses).

(** Lines 183 to 231: the early return when the transcripts exist and are
    not to be overwritten, else the transcription and the writing. *)
Definition finish (env : Env) (cfg : TranscriptionConfig) (asr_model : Model)
    (model_name : string) (filepaths : list string) (partial_audio : bool)
    (amp_enabled return_hypotheses compute_langs : bool)
    : T TranscriptionConfig :=
  skip <~ (if negb (overwrite_transcripts cfg) then
             match output_filename cfg with
             | Some path =>
                 call (PathExists (Some path)) (Returns (path_exists env path))
             | None =>
                 call (PathExists None)
                      (Raises (TypeError
                         "stat: path should be string, bytes, os.PathLike or integer, not NoneType"))
             end
           else pure false) ;;
  if (skip : bool) then
    record (Info ("Previous transcripts found at "
                  ++ str_option (output_filename cfg)
                  ++ ", and flag `overwrite_transcripts`" ++ "is "
                  ++ str_bool (overwrite_transcripts cfg)
                  ++ ". Returning without re-transcribing text.")) ;;;
    pure cfg
  else
    transcriptions <~ transcribe_audio env cfg asr_model filepaths partial_audio
                        amp_enabled return_hypotheses ;;
    record (Info ("Finished transcribing " ++ pretty (length filepaths)
                  ++ " files !")) ;;;
    record (Info ("Writing transcriptions into file: "
                  ++ str_option (output_filename cfg))) ;;;
    let transcriptions :=
      match transcriptions with
      | PyTuple [best; _] => best
      | _ => transcriptions
      end in
    written <~ call (WriteTranscription transcriptions cfg model_name filepaths
                       compute_langs)
                    (write_transcription env transcriptions cfg model_name
                       filepaths compute_langs) ;;
    record (Info ("Finished writing predictions to " ++ written ++ "!")) ;;;
    pure cfg.

(** [main(cfg)].  [is_dataclass] and [OmegaConf.structured] keep the values
    of the fields, and [asr_model.eval()] returns the model. *)
Definition main (env : Env) (cfg : TranscriptionConfig) : T TranscriptionConfig :=
  record (Info ("Hydra config: " ++ to_yaml env cfg)) ;;;
  (if bool_decide (model_path cfg = None) && bool_decide (pretrained_name cfg = None)
   then throw (ValueError "Both cfg.model_path and cfg.pretrained_name cannot be None!")
   else pure tt) ;;;
  (if bool_decide (audio_dir cfg = None) && bool_decide (dataset_manifest cfg = None)
   then throw (ValueError "Both cfg.audio_dir and cfg.dataset_manifest cannot be None!")
   else pure tt) ;;;
  let '(device, accelerator) := select_device env cfg in
  device_string <~ (if String.eqb accelerator "gpu"
                    then index <~ device_0 device ;; pure ("cuda:" ++ pretty index)
                    else pure "cpu") ;;
  map_location <~ call (TorchDevice device_string)
                       (new_torch_device env device_string) ;;
  record (Info ("Inference will be done on device : " ++ str_device device)) ;;;
  loaded <~ call (SetupModel cfg map_location) (setup_model env cfg map_location) ;;
  let '(asr_model, model_name) := loaded in
  record (Trainer device accelerator) ;;;
  record (SetTrainer asr_model) ;;;
  record (Eval asr_model) ;;;
  let return_hypotheses := true in
  let compute_langs := compute_langs cfg in
  cfg <~ (if has_change_decoding_strategy asr_model then
            if has_joint asr_model then
              let r := mkRNNT (-1) (rnnt_compute_langs (rnnt_decoding cfg))
                         (rnnt_settings (rnnt_decoding cfg)) in
              let r := mkRNNT (fused_batch_size r) (Transcribe.compute_langs cfg)
                         (rnnt_settings r) in
              let cfg := set_rnnt_decoding cfg r in
              record (ChangeDecodingRNNT asr_model (rnnt_decoding cfg)) ;;;
              pure cfg
            else
              record (ChangeDecodingCTC asr_model (ctc_decoding cfg)) ;;;
              pure cfg
          else pure cfg) ;;
  prepared <~ call (PrepareAudioData cfg) (prepare_audio_data env cfg) ;;
  let '(filepaths, partial_audio) := prepared in
  amp_enabled <~ (if amp cfg && cuda_is_available env && has_autocast env
                  then record (Info ("AMP enabled!" ++ String "010"%char "")) ;;;
                       pure true
                  else pure false) ;;
  cfg <~ call (ComputeOutputFilename cfg model_name)
              (compute_output_filename env cfg model_name) ;;
  finish env cfg asr_model model_name filepaths partial_audio amp_enabled
    return_hypotheses compute_langs.

(** ** Vocabulary of the properties of the script *)

(** Both a model and data are named. *)
Definition complete (cfg : TranscriptionConfig) : Prop :=
  (model_path cfg <> None \/ pretrained_name cfg <> None) /\
  (audio_dir cfg <> None \/ dataset_manifest cfg <> None).

(** The device of the log message, and the name [main] asks [torch.device]
    for. *)
Definition device_name (env : Env) (cfg : TranscriptionConfig) : string :=
  match cuda cfg with
  | Some n => "[" ++ pretty n ++ "]"
  | None => if cuda_is_available env then "[0]" else "1"
  end.

Definition location (env : Env) (cfg : TranscriptionConfig) : string :=
  match cuda cfg with
  | Some n => "cuda:" ++ pretty n
  | None => if cuda_is_available env then "cuda:0" else "cpu"
  end.

(** [m] only adds events to the trace, and every event it adds is in [P]. *)
Definition emits (P : event -> Prop) {A} (m : T A) : Prop :=
  forall t, exists events, (m t).2 = (t ++ events)%list /\ Forall P events.

(** The events of lines 170 to 231: what [main] does after the audio
    preparation. *)
Definition late (e : event) : Prop :=
  match e with
  | Info _ | Warning _ | ComputeOutputFilename _ _ | PathExists _ | Autocast _
  | NoGrad | TranscribePartialAudio _ _ _ _ _ | TranscribeCall _ _ _ _ _
  | WriteTranscription _ _ _ _ _ => True
  | _ => False
  end.

Definition any_event (e : event) : Prop := True.

(** The configuration after lines 157 to 164. *)
Definition decoded (m : Model) (cfg : TranscriptionConfig) : TranscriptionConfig :=
  if has_change_decoding_strategy m && has_joint m then
    set_rnnt_decoding cfg
      (mkRNNT (-1) (compute_langs cfg) (rnnt_settings (rnnt_decoding cfg)))
  else cfg.

Definition decoding_events (m : Model) (cfg : TranscriptionConfig) : list event :=
  if has_change_decoding_strategy m then
    if has_joint m then
      [ChangeDecodingRNNT m
         (mkRNNT (-1) (compute_langs cfg) (rnnt_settings (rnnt_decoding cfg)))]
    else [ChangeDecodingCTC m (ctc_decoding cfg)]
  else [].

Definition amp_enabled (env : Env) (cfg : TranscriptionConfig) : bool :=
  amp cfg && cuda_is_available env && has_autocast env.

(** What [main] has recorded when it asks for the audio files. *)
Definition loaded_events (env : Env) (cfg : TranscriptionConfig)
    (dev : torch_device) (m : Model) : list event :=
  ([ Info ("Hydra config: " ++ to_yaml env cfg);
     TorchDevice (location env cfg);
     Info ("Inference will be done on device : " ++ device_name env cfg);
     SetupModel cfg dev;
     Trainer (select_device env cfg).1 (select_device env cfg).2;
     SetTrainer m; Eval m ]
   ++ decoding_events m cfg ++ [PrepareAudioData (decoded m cfg)])%list.

(** What [main] has recorded when it reaches line 183. *)
Definition prepared_events (env : Env) (cfg : TranscriptionConfig)
    (dev : torch_device) (m : Model) (name : string) : list event :=
  (loaded_events env cfg dev m
   ++ (if amp_enabled env cfg
       then [Info ("AMP enabled!" ++ String "010"%char "")] else [])
   ++ [ComputeOutputFilename (decoded m cfg) name])%list.

(** [main] reaches line 183 with these values. *)
Definition reaches (env : Env) (cfg : TranscriptionConfig)
    (dev : torch_device) (m : Model) (name : string) (filepaths : list string)
    (partial : bool) (cfg' : TranscriptionConfig) : Prop :=
  complete cfg /\
  new_torch_device env (location env cfg) = Returns dev /\
  setup_model env cfg dev = Returns (m, name) /\
  prepare_audio_data env (decoded m cfg) = Returns (filepaths, partial) /\
  compute_output_filename env (decoded m cfg) name = Returns cfg'.

(** The transcription and the writing. *)
Definition transcribes (e : event) : bool :=
  match e with
  | TranscribePartialAudio _ _ _ _ _ | TranscribeCall _ _ _ _ _
  | WriteTranscription _ _ _ _ _ => true
  | _ => false
  end.

(** Line 183 does not return: the transcripts are to be overwritten, or
    there are none at [path]. *)
Definition transcribes_anew (env : Env) (cfg' : TranscriptionConfig)
    (path : string) : Prop :=
  overwrite_transcripts cfg' = true \/
  (output_filename cfg' = Some path /\ path_exists env path = false).

(** Lines 224 and 225. *)
Definition best (transcriptions : pyval) : pyval :=
  match transcriptions with
  | PyTuple [hypotheses; _] => hypotheses
  | _ => transcriptions
  end.

(** The transcription [main] asks for, and the answer to it. *)
Definition request (env : Env) (cfg' : TranscriptionConfig) (m : Model)
    (filepaths : list string) (partial : bool) : event * outcome pyval :=
  if partial && is_EncDecCTCModel m then
    (TranscribePartialAudio m (dataset_manifest cfg') (batch_size cfg')
       (num_workers cfg') true,
     transcribe_partial_audio env m (dataset_manifest cfg') (batch_size cfg')
       (num_workers cfg') true)
  else
    (TranscribeCall m filepaths (batch_size cfg') (num_workers cfg') true,
     transcribe env m filepaths (batch_size cfg') (num_workers cfg') true).

(** What [main] has recorded when the transcription has been asked for. *)
Definition requested_events (env : Env) (cfg cfg' : TranscriptionConfig)
    (dev : torch_device) (m : Model) (name : string) (filepaths : list string)
    (partial : bool) : list event :=
  (prepared_events env cfg dev m name
   ++ (if overwrite_transcripts cfg' then []
       else [PathExists (output_filename cfg')])
   ++ [Autocast (amp_enabled env cfg); NoGrad]
   ++ (if partial && negb (is_EncDecCTCModel m)
       then [Warning
         "RNNT models do not support transcribe partial audio for now. Transcribing full audio."]
       else [])
   ++ [(request env cfg' m filepaths partial).1])%list.

(** ** A run of the script *)

(** An RNNT model, a configuration that names it and asks for the device
    [cuda], a [torch.device] that refuses a negative index, and collaborators
    that find one partial audio file, name the output [out.json] and answer
    with a tuple of two. *)
Definition example_model : Model :=
  mkModel "stt_en_conformer_transducer_large" true true false.

Definition example_config (cuda : Z) (overwrite : bool) : TranscriptionConfig :=
  mkConfig None (Some "stt_en_conformer_transducer_large") None
    (Some "manifest.json") None 32 0 false None true (Some cuda) true "wav"
    overwrite (mkCTC []) (mkRNNT 16 false [("strategy", "greedy_batch")]).

Definition no_config : TranscriptionConfig :=
  mkConfig None None None None None 32 0 false None false None false "wav" true
    (mkCTC []) (mkRNNT (-1) false []).

Definition example_env : Env :=
  mkEnv (fun _ => "cfg") false true
    (fun name =>
       if String.prefix "cuda:-" name
       then Raises (Raised "torch.device") else Returns (Device name))
    (fun _ _ => Returns (example_model, "stt_en_conformer_transducer_large"))
    (fun _ => Returns (["a.wav"], true))
    (fun cfg _ =>
       Returns (mkConfig (model_path cfg) (pretrained_name cfg) (audio_dir cfg)
                  (dataset_manifest cfg) (Some "out.json") (batch_size cfg)
                  (num_workers cfg) (append_pred cfg) (pred_name_postfix cfg)
                  (compute_langs cfg) (cuda cfg) (amp cfg) (audio_type cfg)
                  (overwrite_transcripts cfg) (ctc_decoding cfg)
                  (rnnt_decoding cfg)))
    (fun path => String.eqb path "out.json")
    (fun _ _ _ _ _ => Raises (Raised "transcribe_partial_audio"))
    (fun _ _ _ _ _ => Returns (PyTuple [PyList ["hello"]; PyList ["hello"; "hallo"]]))
    (fun _ _ _ _ _ => Returns "out.json").

(** The same with a transcription that fails. *)
Definition failing_env : Env :=
  mkEnv (to_yaml example_env) (cuda_is_available example_env)
    (has_autocast example_env) (new_torch_device example_env)
    (setup_model example_env)
    (prepare_audio_data example_env) (compute_output_filename example_env)
    (path_exists example_env) (transcribe_partial_audio example_env)
    (fun _ _ _ _ _ => Raises (Raised "transcribe"))
    (write_transcription example_env).

(** The configuration of the example at line 183. *)
Definition example_output (overwrite : bool) : TranscriptionConfig :=
  mkConfig None (Some "stt_en_conformer_transducer_large") None
    (Some "manifest.json") (Some "out.json") 32 0 false None true
    (Some 0%Z) true "wav" overwrite (mkCTC [])
    (mkRNNT (-1) true [("strategy", "greedy_batch")]).

End Transcribe.

(** * Lemmas *)

(** ** Running the shared parts *)

Ltac wsimpl := cbn [heap files dirs trace default from_option id fst snd] in *.

Lemma world_eta w : mkWorld (heap w) (files w) (dirs w) (trace w) = w.
Proof. by destruct w. Qed.

Lemma bind_run {A B} (m : M A) (k : A -> M B) w a w' :
  m w = (Ok a, w') -> bind m k w = k a w'.
Proof. unfold bind. by intros ->. Qed.

Lemma bind_raise {A B} (m : M A) (k : A -> M B) w e w' :
  m w = (Raise e, w') -> bind m k w = (Raise e, w').
Proof. unfold bind. by intros ->. Qed.

Lemma for_each_log {A} (p : A -> bool) (msg : A -> string) (l : list A) w :
  for_each l (fun x => if p x then logging_info (msg x) else ret tt) w
  = (Ok tt, mkWorld (heap w) (files w) (dirs w)
              (trace w ++ map (fun x => LogInfo (msg x)) (List.filter p l))).
Proof.
  revert w. induction l as [|x l IH]; intros w; simpl.
  - by rewrite app_nil_r, world_eta.
  - destruct (p x); unfold bind; simpl.
    + rewrite IH. simpl. by rewrite <- app_assoc.
    + by rewrite IH.
Qed.

Lemma warn_excluded_classes_run ex w :
  warn_excluded_classes ex w
  = (Ok tt, mkWorld (heap w) (files w) (dirs w)
              (trace w ++ map excluded_diagnostic (unknown_keys ex))).
Proof.
  unfold warn_excluded_classes.
  rewrite (for_each_log (fun k => negb (str_in k classes))
             (fun k => "The class " ++ k ++
                " is not being excluded as the class does not exist.")).
  done.
Qed.

Lemma warn_class_weights_run l w :
  warn_class_weights l w
  = (Ok tt, mkWorld (heap w) (files w) (dirs w)
              (trace w ++ map weight_diagnostic
                            (unknown_keys (default [] (heap w !! l))))).
Proof.
  unfold warn_class_weights, bind, deref.
  rewrite (for_each_log (fun k => negb (str_in k classes))
             (fun k => "The class " ++ k ++
                " does not have a custom class weight applied to it as the class does not exist.")).
  done.
Qed.

Lemma fill_loop_run (tbl : dict Q) l w d :
  heap w !! l = Some d ->
  for_each tbl (fun '(_class, weight) =>
    d <- deref l ;;
    if negb (dict_mem _class d) then setitem l _class weight else ret tt) w
  = (Ok tt, mkWorld (<[l := foldl fill_step d tbl]> (heap w))
              (files w) (dirs w) (trace w)).
Proof.
  revert w d. induction tbl as [|[c wt] tbl IH]; intros w d Hl; simpl.
  - by rewrite list_insert_id, world_eta.
  - unfold bind at 1. unfold bind at 1. unfold deref at 1. cbv beta.
    rewrite Hl. cbn [default from_option id]. unfold fill_step at 2. cbn [fst snd].
    destruct (dict_mem c d); cbn [negb].
    + by apply IH.
    + unfold setitem at 1. rewrite Hl. cbn [default from_option id].
      erewrite IH; cbn [heap files dirs trace].
      * by rewrite list_insert_insert_eq.
      * apply list_lookup_insert_eq. by eapply lookup_lt_Some.
Qed.

Lemma fill_default_weights_run l w d :
  heap w !! l = Some d ->
  fill_default_weights l w
  = (Ok tt, mkWorld (<[l := filled d]> (heap w)) (files w) (dirs w) (trace w)).
Proof. apply fill_loop_run. Qed.

(** ** Dictionaries: lookups after updates *)

Lemma dict_get_set {V} (c k : string) (v : V) (d : dict V) :
  dict_get c (dict_set k v d) = if String.eqb c k then Some v else dict_get c d.
Proof.
  induction d as [|[k' v'] d IH]; simpl.
  - done.
  - destruct (String.eqb k k') eqn:Ek; simpl.
    + apply String.eqb_eq in Ek as ->. by destruct (String.eqb c k').
    + destruct (String.eqb c k') eqn:Ec; [|done].
      apply String.eqb_eq in Ec as ->. by rewrite String.eqb_sym, Ek.
Qed.

Lemma dict_get_keys {V} (c : string) (d : dict V) :
  str_in c (dict_keys d) = dict_mem c d.
Proof.
  unfold dict_mem. induction d as [|[k v] d IH]; simpl; [done|].
  destruct (String.eqb c k); [done|]. by rewrite IH.
Qed.

Lemma dict_get_fill (c : string) (tbl d : dict Q) :
  dict_get c (foldl fill_step d tbl)
  = match dict_get c d with Some v => Some v | None => dict_get c tbl end.
Proof.
  revert d. induction tbl as [|[c' wt] tbl IH]; intros d; simpl.
  - by destruct (dict_get c d).
  - rewrite IH. unfold fill_step, dict_mem. simpl.
    destruct (dict_get c' d) eqn:Ec'.
    + destruct (dict_get c d) eqn:Ec; [done|].
      destruct (String.eqb c c') eqn:E; [|done].
      apply String.eqb_eq in E as ->. congruence.
    + rewrite dict_get_set.
      destruct (String.eqb c c') eqn:E.
      * apply String.eqb_eq in E as ->. by rewrite Ec'.
      * done.
Qed.

Lemma classes_have_defaults (c : string) :
  str_in c classes = dict_mem c default_class_weights.
Proof.
  rewrite <- dict_get_keys. unfold str_in.
  destruct (existsb (String.eqb c) (dict_keys default_class_weights)) eqn:E.
  - apply existsb_exists in E as (k & Hin & ->%String.eqb_eq).
    assert (H : forallb (fun k => existsb (String.eqb k) classes)
                  (dict_keys default_class_weights) = true) by reflexivity.
    by eapply forallb_forall in H.
  - destruct (existsb (String.eqb c) classes) eqn:E'; [|done].
    apply existsb_exists in E' as (k & Hin & ->%String.eqb_eq).
    assert (H : forallb (fun k => existsb (String.eqb k)
                                    (dict_keys default_class_weights))
                  classes = true) by reflexivity.
    eapply forallb_forall in H; [|done]. congruence.
Qed.

Lemma dict_get_filled (c : string) (d : dict Q) :
  str_in c classes = true ->
  dict_get c (filled d) = Some (effective_weight d c).
Proof.
  rewrite classes_have_defaults. unfold dict_mem.
  intros Hc. unfold filled, effective_weight, dict_get_default.
  rewrite dict_get_fill. destruct (dict_get c d); [done|].
  by destruct (dict_get c default_class_weights).
Qed.

Lemma dict_get_filled_other (c : string) (d : dict Q) :
  str_in c classes = false ->
  dict_get c (filled d) = dict_get c d.
Proof.
  rewrite classes_have_defaults. unfold dict_mem.
  intros Hc. unfold filled. rewrite dict_get_fill.
  destruct (dict_get c d); [done|].
  by destruct (dict_get c default_class_weights).
Qed.

Lemma exclusion_loop_get (ex : dict bool) (ks : list string) (gs : dict Fst) c :
  dict_get c
    (foldl (fun graphs _class =>
              let is_empty_graph := dict_get_default _class false ex in
              if is_empty_graph then dict_set _class empty_fst graphs else graphs)
           gs ks)
  = if str_in c ks && dict_get_default c false ex
    then Some empty_fst else dict_get c gs.
Proof.
  revert gs. induction ks as [|k ks IH]; intros gs; simpl; [done|].
  rewrite IH.
  destruct (String.eqb c k) eqn:E; simpl.
  - apply String.eqb_eq in E as ->.
    destruct (dict_get_default k false ex) eqn:Ek; simpl.
    + rewrite andb_true_r, dict_get_set, String.eqb_refl. by destruct (str_in k ks).
    + by rewrite andb_false_r.
  - destruct (dict_get_default k false ex); simpl; [|done].
    rewrite dict_get_set, E. done.
Qed.

Lemma exclusion_filter_get (ex : dict bool) (gs : dict Fst) (c : string) :
  dict_get c (exclusion_filter ex gs)
  = option_map (fun g => if dict_get_default c false ex then empty_fst else g)
               (dict_get c gs).
Proof.
  unfold exclusion_filter. rewrite exclusion_loop_get, dict_get_keys.
  unfold dict_mem. destruct (dict_get c gs); simpl; [|done].
  by destruct (dict_get_default c false ex).
Qed.

(** ** Running the configuration part *)

Lemma configured_lookup ex cw w :
  valid_ref w cw ->
  heap (configured ex cw w) !! ref_of w cw = Some (filled (weights_of w cw)).
Proof.
  destruct cw as [l|]; simpl; intros Hv.
  - by apply list_lookup_insert_eq.
  - by rewrite lookup_app_r, Nat.sub_diag.
Qed.

Lemma configure_run ex cw w :
  valid_ref w cw ->
  configure ex cw w = (Ok (default [] ex, ref_of w cw), configured ex cw w).
Proof.
  intros Hv. unfold configure.
  erewrite bind_run by apply warn_excluded_classes_run.
  destruct cw as [l|]; simpl in Hv.
  - destruct (lookup_lt_is_Some_2 _ _ Hv) as [d Hd].
    erewrite bind_run by reflexivity.
    erewrite bind_run by (apply fill_default_weights_run; exact Hd).
    erewrite bind_run by apply warn_class_weights_run.
    unfold ret, configured, weights_of, ref_of. wsimpl. rewrite Hd. wsimpl.
    rewrite list_lookup_insert_eq by done. wsimpl.
    by rewrite <- app_assoc.
  - erewrite bind_run by reflexivity.
    erewrite bind_run.
    2:{ apply (fill_default_weights_run _ _ []). wsimpl.
        by rewrite lookup_app_r, Nat.sub_diag. }
    erewrite bind_run by apply warn_class_weights_run.
    unfold ret, configured, weights_of, ref_of. wsimpl.
    rewrite insert_app_r_alt, Nat.sub_diag by done.
    rewrite lookup_app_r, Nat.sub_diag by done.
    change (<[0:=filled []]> [[]]) with [filled []].
    change ([filled []] !! 0) with (Some (filled [])). wsimpl.
    by rewrite <- app_assoc.
Qed.

(** ** Running the alternation *)

(** One class of the alternation: its two lookups; a missing key ends the
    case. *)
Ltac case_class gs ws c :=
  destruct (dict_get c gs); cbn;
  [destruct (dict_get c ws); cbn; [|first [discriminate | reflexivity]]
  |first [discriminate | reflexivity]].

Ltac case_classes gs ws :=
  case_class gs ws "whitelist"; case_class gs ws "time";
  case_class gs ws "date"; case_class gs ws "decimal";
  case_class gs ws "measure"; case_class gs ws "cardinal";
  case_class gs ws "ordinal"; case_class gs ws "money";
  case_class gs ws "telephone"; case_class gs ws "electronic";
  case_class gs ws "word".

Lemma classify_ok gs ws w l :
  mapM (alternative gs ws) union_order = Some l ->
  classify gs ws w = (Ok (unions l), w).
Proof.
  unfold classify, weighted, getitem, bind, ret, raise, alternative.
  cbn [mapM union_order mbind option_bind mret option_ret fmap option_fmap option_map].
  case_classes gs ws.
  by intros [= <-].
Qed.

Lemma classify_inv gs ws w g w' :
  classify gs ws w = (Ok g, w') ->
  w' = w /\ exists l, mapM (alternative gs ws) union_order = Some l /\ g = unions l.
Proof.
  unfold classify, weighted, getitem, bind, ret, raise, alternative.
  cbn [mapM union_order mbind option_bind mret option_ret fmap option_fmap option_map].
  case_classes gs ws.
  intros [= <- <-]. split; [done|]. eexists. split; reflexivity.
Qed.

(** ** Running the cache and the build *)

Lemma cache_far_file_run cd n w :
  usable w cd ->
  cache_far_file cd n w = (Ok (far_file_of cd n), with_cache_dir cd w).
Proof.
  unfold usable, cache_far_file, far_file_of, with_cache_dir.
  destruct cd as [dir|]; [|done].
  destruct (String.eqb dir "None"); cbn [negb]; [done|].
  intros [Hne Hfile]; [done|].
  unfold bind, os_makedirs. rewrite Hfile.
  apply String.eqb_neq in Hne. by rewrite Hne.
Qed.

Lemma use_cache_run ow far w :
  use_cache ow far w = (Ok (cache_hit ow far w), w).
Proof. by destruct far. Qed.

Lemma save_run far g w : save far g w = (Ok tt, saved far g w).
Proof.
  unfold save, saved. destruct far as [path|]; [|done].
  destruct (truthy (Some path)); [|done].
  unfold bind, generator_main, logging_info, emit. wsimpl.
  by rewrite <- app_assoc.
Qed.

Lemma mapM_all_Some {A B} (f : A -> option B) (g : A -> B) (l : list A) :
  Forall (fun x => f x = Some (g x)) l -> mapM f l = Some (map g l).
Proof.
  induction 1 as [|x l Hx _ IH]; [done|].
  cbn. rewrite Hx. cbn. rewrite IH. done.
Qed.

Lemma alternatives_run ex gs d :
  Forall (fun c => is_Some (dict_get c gs)) union_order ->
  mapM (alternative (exclusion_filter ex gs) (filled d)) union_order
  = Some (map (shifted ex gs d) union_order).
Proof.
  intros Hgs. apply mapM_all_Some.
  assert (Hcls : Forall (fun c => str_in c classes = true) union_order).
  { repeat constructor. }
  revert Hcls. induction Hgs as [|c l [g Hg] _ IH]; intros Hcls; [done|].
  inversion Hcls as [|? ? Hc Hcls']; subst. constructor; [|by apply IH].
  unfold alternative, shifted, dict_get_default.
  rewrite exclusion_filter_get, Hg, (dict_get_filled _ _ Hc). simpl.
  unfold dict_get_default. by destruct (dict_get c ex) as [[]|].
Qed.

(** The world after [restore] has read the archive. *)
Lemma restore_run path entries g w :
  files w !! path = Some (FarArchive entries) ->
  dict_get "tokenize_and_classify" entries = Some g ->
  restore path w
  = (Ok (mkGraphFst "tokenize_and_classify" "classify" g),
     log_to [LogInfo ("ClassifyFst.fst was restored from " ++ path ++ ".")] w).
Proof.
  intros Hfile Hg. unfold restore, bind, Far_getitem. by rewrite Hfile, Hg.
Qed.

(** Anything that is not an archive makes [restore] raise. *)
Lemma restore_unreadable path w :
  (forall entries, files w !! path <> Some (FarArchive entries)) ->
  restore path w = (Raise (FstIOError path), w).
Proof.
  intros Hfile. unfold restore, bind, Far_getitem.
  destruct (files w !! path) as [[entries|content]|] eqn:E; try done.
  by destruct (Hfile entries).
Qed.

Lemma deref_run l w d : heap w !! l = Some d -> deref l w = (Ok d, w).
Proof. unfold deref. by intros ->. Qed.

Lemma En_build_run ex l far w d :
  heap w !! l = Some (filled d) ->
  En.build ex l far w
  = (Ok (self_of (En_built ex d)),
     saved far (En_built ex d)
       (log_to [LogInfo "Creating ClassifyFst grammars."] w)).
Proof.
  intros Hl. unfold En.build.
  erewrite bind_run by reflexivity.
  erewrite bind_run by (apply deref_run; exact Hl).
  erewrite bind_run.
  2:{ apply classify_ok, alternatives_run. repeat constructor; by eexists. }
  erewrite bind_run by apply save_run.
  reflexivity.
Qed.

Lemma TN_overwrite_run cd w :
  usable w cd ->
  TN.ClassifyFst_init (tn_args cd) w = (Ok (TN.with_fst TN.built_fst), tn_rebuilt cd w).
Proof.
  intros Hu. unfold TN.ClassifyFst_init.
  erewrite bind_run by reflexivity.
  erewrite bind_run by (apply cache_far_file_run; destruct cd; exact Hu).
  erewrite bind_run by apply use_cache_run.
  unfold tn_rebuilt, tn_args, log_to. cbn [tn_cache_dir tn_overwrite_cache].
  destruct (far_file_of cd "_ru_tn.far") as [path|]; cbn [cache_hit negb andb].
  - unfold bind, generator_main, ret. reflexivity.
  - reflexivity.
Qed.

Lemma heap_tn_rebuilt cd w : heap (tn_rebuilt cd w) = heap w.
Proof.
  unfold tn_rebuilt, with_cache_dir, add_dir, log_to.
  destruct cd as [dir|]; [destruct (String.eqb dir "None")|]; cbn;
    by repeat case_match.
Qed.

Lemma Ru_build_run cd ex l far w d :
  heap w !! l = Some (filled d) ->
  usable w cd ->
  Ru.build cd ex l far w
  = (Ok (self_of (Ru_built ex d)),
     saved far (Ru_built ex d)
       (tn_rebuilt cd
          (log_to [LogInfo "Creating ClassifyFst grammars. This might take some time..."] w))).
Proof.
  intros Hl Hu. unfold Ru.build.
  erewrite bind_run by reflexivity.
  erewrite bind_run by (apply TN_overwrite_run; destruct cd; exact Hu).
  erewrite bind_run by (apply deref_run; rewrite heap_tn_rebuilt; exact Hl).
  erewrite bind_run.
  2:{ apply classify_ok, alternatives_run. repeat constructor; by eexists. }
  erewrite bind_run by apply save_run.
  reflexivity.
Qed.

(** ** Running the constructors *)

Lemma usable_files w w' cd : files w' = files w -> usable w cd -> usable w' cd.
Proof. unfold usable. by intros ->. Qed.

Lemma heap_with_cache_dir cd w : heap (with_cache_dir cd w) = heap w.
Proof.
  unfold with_cache_dir. destruct cd as [dir|]; [|done].
  by destruct (String.eqb dir "None").
Qed.

Lemma files_with_cache_dir cd w : files (with_cache_dir cd w) = files w.
Proof.
  unfold with_cache_dir. destruct cd as [dir|]; [|done].
  by destruct (String.eqb dir "None").
Qed.

Lemma trace_with_cache_dir cd w : trace (with_cache_dir cd w) = trace w.
Proof.
  unfold with_cache_dir. destruct cd as [dir|]; [|done].
  by destruct (String.eqb dir "None").
Qed.

Lemma En_load_or_build_run cd ow ex l w :
  usable w cd ->
  En.load_or_build cd ow ex l w
  = match far_file_of cd "_en_itn.far" with
    | Some path =>
        if cache_hit ow (Some path) (with_cache_dir cd w)
        then restore path (with_cache_dir cd w)
        else En.build ex l (Some path) (with_cache_dir cd w)
    | None => En.build ex l None (with_cache_dir cd w)
    end.
Proof.
  intros Hu. unfold En.load_or_build.
  erewrite bind_run by (by apply cache_far_file_run).
  erewrite bind_run by apply use_cache_run.
  destruct (far_file_of cd "_en_itn.far") as [path|]; [|done].
  by destruct (cache_hit ow (Some path) (with_cache_dir cd w)).
Qed.

Lemma Ru_load_or_build_run cd ow ex l w :
  usable w cd ->
  Ru.load_or_build cd ow ex l w
  = match far_file_of cd "_ru_itn.far" with
    | Some path =>
        if cache_hit ow (Some path) (with_cache_dir cd w)
        then restore path (with_cache_dir cd w)
        else Ru.build cd ex l (Some path) (with_cache_dir cd w)
    | None => Ru.build cd ex l None (with_cache_dir cd w)
    end.
Proof.
  intros Hu. unfold Ru.load_or_build.
  erewrite bind_run by (by apply cache_far_file_run).
  erewrite bind_run by apply use_cache_run.
  destruct (far_file_of cd "_ru_itn.far") as [path|]; [|done].
  by destruct (cache_hit ow (Some path) (with_cache_dir cd w)).
Qed.

Lemma En_init_unfold cd ow ex cw w :
  valid_ref w cw ->
  En.ClassifyFst_init cd ow ex cw w
  = En.load_or_build cd ow (default [] ex) (ref_of w cw)
      (log_to [Print (filled (weights_of w cw))] (configured ex cw w)).
Proof.
  intros Hv. unfold En.ClassifyFst_init.
  erewrite bind_run by (by apply configure_run).
  cbv iota beta.
  erewrite bind_run by (apply deref_run; by apply configured_lookup).
  erewrite bind_run by reflexivity.
  reflexivity.
Qed.

Lemma Ru_init_unfold cd ow ex cw w :
  valid_ref w cw ->
  Ru.ClassifyFst_init cd ow ex cw w
  = Ru.load_or_build cd ow (default [] ex) (ref_of w cw) (configured ex cw w).
Proof.
  intros Hv. unfold Ru.ClassifyFst_init.
  erewrite bind_run by (by apply configure_run).
  reflexivity.
Qed.

(** The constructor finds the archive and restores the grammar from it. *)
Lemma En_init_hit cd ow ex cw w path :
  valid_ref w cw -> usable w cd ->
  far_file_of cd "_en_itn.far" = Some path ->
  cache_hit ow (Some path) (En_ready cd ex cw w) = true ->
  En.ClassifyFst_init cd ow ex cw w = restore path (En_ready cd ex cw w).
Proof.
  intros Hv Hu Hfar Hhit. rewrite En_init_unfold by done.
  rewrite En_load_or_build_run by done. rewrite Hfar.
  fold (En_ready cd ex cw w). by rewrite Hhit.
Qed.

Lemma Ru_init_hit cd ow ex cw w path :
  valid_ref w cw -> usable w cd ->
  far_file_of cd "_ru_itn.far" = Some path ->
  cache_hit ow (Some path) (Ru_ready cd ex cw w) = true ->
  Ru.ClassifyFst_init cd ow ex cw w = restore path (Ru_ready cd ex cw w).
Proof.
  intros Hv Hu Hfar Hhit. rewrite Ru_init_unfold by done.
  rewrite Ru_load_or_build_run by done. rewrite Hfar.
  fold (Ru_ready cd ex cw w). by rewrite Hhit.
Qed.

(** The constructor builds the grammar. *)
Lemma En_init_miss cd ow ex cw w :
  valid_ref w cw -> usable w cd ->
  cache_hit ow (far_file_of cd "_en_itn.far") (En_ready cd ex cw w) = false ->
  En.ClassifyFst_init cd ow ex cw w
  = (Ok (self_of (En_built (default [] ex) (weights_of w cw))),
     saved (far_file_of cd "_en_itn.far")
       (En_built (default [] ex) (weights_of w cw))
       (log_to [LogInfo "Creating ClassifyFst grammars."] (En_ready cd ex cw w))).
Proof.
  intros Hv Hu Hmiss. rewrite En_init_unfold by done.
  rewrite En_load_or_build_run by done.
  fold (En_ready cd ex cw w).
  assert (Hl : heap (En_ready cd ex cw w) !! ref_of w cw
               = Some (filled (weights_of w cw))).
  { unfold En_ready. rewrite heap_with_cache_dir. by apply configured_lookup. }
  destruct (far_file_of cd "_en_itn.far") as [path|].
  - rewrite Hmiss. by apply En_build_run.
  - by apply En_build_run.
Qed.

Lemma Ru_init_miss cd ow ex cw w :
  valid_ref w cw -> usable w cd ->
  cache_hit ow (far_file_of cd "_ru_itn.far") (Ru_ready cd ex cw w) = false ->
  Ru.ClassifyFst_init cd ow ex cw w
  = (Ok (self_of (Ru_built (default [] ex) (weights_of w cw))),
     saved (far_file_of cd "_ru_itn.far")
       (Ru_built (default [] ex) (weights_of w cw))
       (tn_rebuilt cd
          (log_to [LogInfo "Creating ClassifyFst grammars. This might take some time..."]
             (Ru_ready cd ex cw w)))).
Proof.
  intros Hv Hu Hmiss. rewrite Ru_init_unfold by done.
  rewrite Ru_load_or_build_run by done.
  fold (Ru_ready cd ex cw w).
  assert (Hl : heap (Ru_ready cd ex cw w) !! ref_of w cw
               = Some (filled (weights_of w cw))).
  { unfold Ru_ready. rewrite heap_with_cache_dir. by apply configured_lookup. }
  assert (Hu' : usable (Ru_ready cd ex cw w) cd).
  { eapply usable_files; [|exact Hu]. unfold Ru_ready.
    by rewrite files_with_cache_dir. }
  destruct (far_file_of cd "_ru_itn.far") as [path|].
  - rewrite Hmiss. by apply Ru_build_run.
  - by apply Ru_build_run.
Qed.

(** ** Paths *)

Lemma string_length_app (a b : string) :
  String.length (a ++ b) = String.length a + String.length b.
Proof.
  induction a as [|c a IH]; [done|].
  change (String c a ++ b) with (String c (a ++ b)).
  cbn [String.length]. by rewrite IH.
Qed.

Lemma os_path_join_nonempty (a b : string) : b <> "" -> os_path_join a b <> "".
Proof.
  intros Hb. unfold os_path_join.
  destruct a as [|c a]; [done|]. cbn [String.eqb].
  by destruct (ends_with_slash (String c a)).
Qed.

Lemma os_path_join_neq_dir (a b : string) : b <> "" -> os_path_join a b <> a.
Proof.
  intros Hb. unfold os_path_join.
  destruct (String.eqb a "") eqn:Ea.
  - apply String.eqb_eq in Ea as ->. done.
  - assert (Hlen : String.length b <> 0) by (by destruct b).
    destruct (ends_with_slash a); intros Heq;
      apply (f_equal String.length) in Heq;
      rewrite !string_length_app in Heq; cbn in Heq; lia.
Qed.

Lemma os_path_join_inj (a b b' : string) :
  os_path_join a b = os_path_join a b' -> b = b'.
Proof.
  unfold os_path_join. destruct (String.eqb a ""); [done|].
  destruct (ends_with_slash a); intros Heq.
  - by apply (inj (String.app a)) in Heq.
  - apply (inj (String.app a)) in Heq. by apply (inj (String.app "/")) in Heq.
Qed.

(** ** When the archive is used and when the grammar is built *)

Lemma dirs_with_cache_dir cd w :
  dirs (with_cache_dir cd w)
  = match cd with
    | Some dir => if negb (String.eqb dir "None") then {[dir]} ∪ dirs w else dirs w
    | None => dirs w
    end.
Proof.
  unfold with_cache_dir. destruct cd as [dir|]; [|done].
  by destruct (String.eqb dir "None").
Qed.

Lemma miss_of_builds name cd ow w w' :
  name <> "" -> files w' = files w -> dirs w' = dirs w ->
  builds name cd ow w ->
  cache_hit ow (far_file_of cd name) (with_cache_dir cd w') = false.
Proof.
  intros Hname Hfiles Hdirs [->|Habsent].
  - by destruct (far_file_of cd name).
  - unfold cache_hit, exists_at.
    rewrite files_with_cache_dir, dirs_with_cache_dir, Hfiles, Hdirs.
    unfold far_file_of in *. destruct cd as [dir|]; [|done].
    destruct (String.eqb dir "None"); cbn [negb] in *; [done|].
    destruct Habsent as [-> Hdir].
    rewrite bool_decide_eq_false_2; [by rewrite andb_false_r|].
    intros [Heq%elem_of_singleton|?]%elem_of_union; [|done].
    by apply os_path_join_neq_dir in Heq.
Qed.

Lemma hit_of_present name cd w w' path f :
  name <> "" -> files w' = files w ->
  far_file_of cd name = Some path ->
  files w !! path = Some f ->
  cache_hit false (Some path) (with_cache_dir cd w') = true.
Proof.
  intros Hname Hfiles Hfar Hf. unfold cache_hit, exists_at, truthy.
  rewrite files_with_cache_dir, Hfiles, Hf.
  unfold far_file_of in Hfar. destruct cd as [dir|]; [|done].
  destruct (String.eqb dir "None"); [done|]. cbn in Hfar.
  injection Hfar as <-.
  destruct (String.eqb (os_path_join dir name) "") eqn:E; [|done].
  apply String.eqb_eq in E. by apply os_path_join_nonempty in E.
Qed.

Lemma usable_dec w cd : usable w cd \/ ~ usable w cd.
Proof.
  unfold usable. destruct cd as [dir|]; [|by left].
  destruct (String.eqb dir "None"); [by left|].
  destruct (decide (dir = "")) as [->|Hne].
  - right. intros H. by destruct H.
  - destruct (files w !! dir) eqn:E.
    + right. intros H. by destruct H.
    + left. done.
Qed.

(** A cache directory that cannot be made ends the constructor with the
    error of [os.makedirs]; the error depends on the files only. *)
Lemma cache_far_file_unusable cd n w :
  ~ usable w cd ->
  exists e, forall w', files w' = files w ->
    cache_far_file cd n w' = (Raise e, w').
Proof.
  unfold usable, cache_far_file.
  destruct cd as [dir|]; [|intros H; by destruct H].
  destruct (String.eqb dir "None"); [intros H; by destruct H|]. cbn [negb].
  intros Hu. unfold bind, os_makedirs.
  destruct (String.eqb dir "") eqn:E.
  - eexists. by intros w' _.
  - apply String.eqb_neq in E.
    destruct (files w !! dir) as [f|] eqn:Ef.
    + eexists. intros w' ->. by rewrite Ef.
    + by destruct Hu.
Qed.

(** ** What every run keeps: the dictionaries, and the events already
    logged *)

Lemma restore_frame path w :
  heap (restore path w).2 = heap w /\
  files (restore path w).2 = files w /\
  exists events : list event, trace (restore path w).2 = (trace w ++ events)%list.
Proof.
  unfold restore, bind, Far_getitem.
  destruct (files w !! path) as [[entries|content]|]; cbn;
    [destruct (dict_get "tokenize_and_classify" entries); cbn| |];
    (split; [done|split; [done|]]);
    first [by eexists [_] | exists []; by rewrite app_nil_r].
Qed.

Lemma restore_ext path w w' :
  files w = files w' -> (restore path w).1 = (restore path w').1.
Proof.
  intros Hfiles. unfold restore, bind, Far_getitem. rewrite Hfiles.
  destruct (files w' !! path) as [[entries|content]|]; cbn; [|done..].
  by destruct (dict_get "tokenize_and_classify" entries).
Qed.

Lemma heap_saved far g w : heap (saved far g w) = heap w.
Proof. unfold saved. destruct far; [|done]. by case_match. Qed.

Lemma trace_saved far g w :
  exists events : list event, trace (saved far g w) = (trace w ++ events)%list.
Proof.
  unfold saved. destruct far as [path|]; [case_match|].
  - by eexists.
  - exists []. by rewrite app_nil_r.
  - exists []. by rewrite app_nil_r.
Qed.

Lemma trace_tn_rebuilt cd w :
  exists events : list event,
    trace (tn_rebuilt cd w) = (trace w ++ TNConstructed (tn_args cd) :: events)%list.
Proof.
  unfold tn_rebuilt. destruct (far_file_of cd "_ru_tn.far"); cbn [trace].
  - rewrite trace_with_cache_dir. cbn [trace log_to]. rewrite <- app_assoc.
    by eexists.
  - rewrite trace_with_cache_dir. by exists [].
Qed.

Lemma En_load_or_build_frame cd ow ex l w d :
  heap w !! l = Some (filled d) ->
  heap (En.load_or_build cd ow ex l w).2 = heap w /\
  exists events : list event, trace (En.load_or_build cd ow ex l w).2 = (trace w ++ events)%list.
Proof.
  intros Hl. destruct (usable_dec w cd) as [Hu|Hu].
  - rewrite En_load_or_build_run by done.
    assert (Hl' : heap (with_cache_dir cd w) !! l = Some (filled d))
      by (by rewrite heap_with_cache_dir).
    pose proof (restore_frame) as Hrestore.
    destruct (far_file_of cd "_en_itn.far") as [path|];
      [destruct (cache_hit ow (Some path) (with_cache_dir cd w))|].
    + destruct (Hrestore path (with_cache_dir cd w)) as (-> & _ & events & ->).
      rewrite heap_with_cache_dir, trace_with_cache_dir. eauto.
    + rewrite (En_build_run _ _ _ _ _ Hl'). cbn [snd].
      rewrite heap_saved. cbn [heap log_to]. rewrite heap_with_cache_dir.
      split; [done|].
      destruct (trace_saved (Some path) (En_built ex d)
                  (log_to [LogInfo "Creating ClassifyFst grammars."]
                     (with_cache_dir cd w))) as [events ->].
      cbn [trace log_to]. rewrite trace_with_cache_dir, <- app_assoc. eauto.
    + rewrite (En_build_run _ _ _ _ _ Hl'). cbn [snd saved heap trace log_to].
      rewrite heap_with_cache_dir, trace_with_cache_dir. eauto.
  - destruct (cache_far_file_unusable cd "_en_itn.far" w Hu) as [e He].
    unfold En.load_or_build. erewrite bind_raise by (by apply He).
    cbn [snd]. split; [done|]. exists []. by rewrite app_nil_r.
Qed.

Lemma Ru_load_or_build_frame cd ow ex l w d :
  heap w !! l = Some (filled d) ->
  heap (Ru.load_or_build cd ow ex l w).2 = heap w /\
  exists events : list event, trace (Ru.load_or_build cd ow ex l w).2 = (trace w ++ events)%list.
Proof.
  intros Hl. destruct (usable_dec w cd) as [Hu|Hu].
  - rewrite Ru_load_or_build_run by done.
    assert (Hl' : heap (with_cache_dir cd w) !! l = Some (filled d))
      by (by rewrite heap_with_cache_dir).
    assert (Hu' : usable (with_cache_dir cd w) cd).
    { eapply usable_files; [|exact Hu]. by rewrite files_with_cache_dir. }
    pose proof (restore_frame) as Hrestore.
    destruct (far_file_of cd "_ru_itn.far") as [path|];
      [destruct (cache_hit ow (Some path) (with_cache_dir cd w))|].
    + destruct (Hrestore path (with_cache_dir cd w)) as (-> & _ & events & ->).
      rewrite heap_with_cache_dir, trace_with_cache_dir. eauto.
    + rewrite (Ru_build_run _ _ _ _ _ _ Hl' Hu'). cbn [snd].
      rewrite heap_saved, heap_tn_rebuilt. cbn [heap log_to].
      rewrite heap_with_cache_dir. split; [done|].
      match goal with
      | |- context [saved ?far ?g ?w0] =>
          destruct (trace_saved far g w0) as [events ->]
      end.
      match goal with
      | |- context [tn_rebuilt ?cd0 ?w0] =>
          destruct (trace_tn_rebuilt cd0 w0) as [events' ->]
      end.
      cbn [trace log_to]. rewrite trace_with_cache_dir, <- !app_assoc. eauto.
    + rewrite (Ru_build_run _ _ _ _ _ _ Hl' Hu'). cbn [snd saved].
      rewrite heap_tn_rebuilt. cbn [heap log_to].
      rewrite heap_with_cache_dir. split; [done|].
      match goal with
      | |- context [tn_rebuilt ?cd0 ?w0] =>
          destruct (trace_tn_rebuilt cd0 w0) as [events' ->]
      end.
      cbn [trace log_to]. rewrite trace_with_cache_dir, <- !app_assoc. eauto.
  - destruct (cache_far_file_unusable cd "_ru_itn.far" w Hu) as [e He].
    unfold Ru.load_or_build. erewrite bind_raise by (by apply He).
    cbn [snd]. split; [done|]. exists []. by rewrite app_nil_r.
Qed.

(** Whatever the outcome, the constructor leaves the dictionaries as
    [configure] left them and adds to the events that [configure] logged. *)
Lemma En_init_frame cd ow ex cw w :
  valid_ref w cw ->
  heap (En.ClassifyFst_init cd ow ex cw w).2 = heap (configured ex cw w) /\
  exists events : list event,
    trace (En.ClassifyFst_init cd ow ex cw w).2
    = (trace (configured ex cw w) ++ events)%list.
Proof.
  intros Hv. rewrite En_init_unfold by done.
  edestruct (En_load_or_build_frame cd ow (default [] ex) (ref_of w cw))
    as (-> & events & ->).
  { cbn [heap log_to]. by apply configured_lookup. }
  split; [done|]. cbn [trace log_to]. rewrite <- app_assoc. eauto.
Qed.

Lemma Ru_init_frame cd ow ex cw w :
  valid_ref w cw ->
  heap (Ru.ClassifyFst_init cd ow ex cw w).2 = heap (configured ex cw w) /\
  exists events : list event,
    trace (Ru.ClassifyFst_init cd ow ex cw w).2
    = (trace (configured ex cw w) ++ events)%list.
Proof.
  intros Hv. rewrite Ru_init_unfold by done.
  apply (Ru_load_or_build_frame cd ow (default [] ex) (ref_of w cw)
           _ (weights_of w cw)).
  by apply configured_lookup.
Qed.

(** ** The alternation of the built grammar *)

Lemma union_operands_alternation excluded graphs d :
  union_operands (unions (map (shifted excluded graphs d) union_order))
  = map (shifted excluded graphs d) union_order.
Proof. reflexivity. Qed.

Lemma truthy_far_file cd n path :
  n <> "" -> far_file_of cd n = Some path -> truthy (Some path) = true.
Proof.
  intros Hn. unfold far_file_of, truthy. destruct cd as [dir|]; [|done].
  destruct (String.eqb dir "None"); [done|]. intros [= <-].
  destruct (String.eqb (os_path_join dir n) "") eqn:E; [|done].
  apply String.eqb_eq in E. by apply os_path_join_nonempty in E.
Qed.

Lemma files_saved cd n path g w :
  n <> "" -> far_file_of cd n = Some path ->
  files (saved (Some path) g w) !! path
  = Some (FarArchive [("tokenize_and_classify", g)]).
Proof.
  intros Hn Hfar. unfold saved. rewrite (truthy_far_file _ _ _ Hn Hfar).
  cbn [files]. by rewrite lookup_insert_eq.
Qed.

(** * The properties of the specification

    Two assumptions on the call recur: [valid_ref], the reference the caller
    passes as [class_weights] points to a dictionary, and [usable],
    [os.makedirs] can make the cache directory (it has a name and no regular
    file is in its place).  [builds] says that the constructor takes the
    branch that builds the grammar. *)



Lemma En_init_builds cd ow ex cw w :
  valid_ref w cw -> usable w cd -> builds "_en_itn.far" cd ow w ->
  En.ClassifyFst_init cd ow ex cw w
  = (Ok (self_of (En_built (default [] ex) (weights_of w cw))),
     saved (far_file_of cd "_en_itn.far")
       (En_built (default [] ex) (weights_of w cw))
       (log_to [LogInfo "Creating ClassifyFst grammars."] (En_ready cd ex cw w))).
Proof.
  intros Hv Hu Hb. apply En_init_miss; [done..|].
  unfold En_ready. by eapply miss_of_builds.
Qed.

Lemma Ru_init_builds cd ow ex cw w :
  valid_ref w cw -> usable w cd -> builds "_ru_itn.far" cd ow w ->
  Ru.ClassifyFst_init cd ow ex cw w
  = (Ok (self_of (Ru_built (default [] ex) (weights_of w cw))),
     saved (far_file_of cd "_ru_itn.far")
       (Ru_built (default [] ex) (weights_of w cw))
       (tn_rebuilt cd
          (log_to [LogInfo "Creating ClassifyFst grammars. This might take some time..."]
             (Ru_ready cd ex cw w)))).
Proof.
  intros Hv Hu Hb. apply Ru_init_miss; [done..|].
  unfold Ru_ready. by eapply miss_of_builds.
Qed.

Lemma En_class_graphs_total :
  Forall (fun c => is_Some (dict_get c En.class_graphs)) union_order.
Proof. repeat constructor; by eexists. Qed.

Lemma Ru_class_graphs_total tn :
  Forall (fun c => is_Some (dict_get c (Ru.class_graphs tn))) union_order.
Proof. repeat constructor; by eexists. Qed.

Lemma shifted_filtered excluded graphs d c :
  is_Some (dict_get c graphs) ->
  shifted excluded graphs d c
  = add_weight
      (dict_get_default c empty_fst (exclusion_filter excluded graphs))
      (effective_weight d c).
Proof.
  intros [g Hg]. unfold shifted, dict_get_default at 2 3.
  rewrite exclusion_filter_get, Hg. reflexivity.
Qed.

(** C4. When the constructor builds the grammar, the operand of each of the
    eleven classes in the top-level alternation is the (filtered) grammar of
    the class shifted by [effective_weight]: the entry of the caller's
    [class_weights] when the caller gave one, and otherwise the default, which
    is 1.1 for cardinal, ordinal, decimal, measure, time, money, electronic
    and telephone, 1.09 for date, 1.01 for whitelist and 100 for word. *)
Theorem class_weights_shift_the_alternation cd ow ex cw w :
  valid_ref w cw -> usable w cd ->
  (builds "_en_itn.far" cd ow w ->
   exists alternation w',
     En.ClassifyFst_init cd ow ex cw w
     = (Ok (self_of (sentence 1.1%Q delete_extra_space alternation
                       En.punct_graph)), w') /\
     union_operands alternation
     = map (fun c =>
              add_weight
                (dict_get_default c empty_fst
                   (exclusion_filter (default [] ex) En.class_graphs))
                (effective_weight (weights_of w cw) c))
           union_order) /\
  (builds "_ru_itn.far" cd ow w ->
   exists alternation w',
     Ru.ClassifyFst_init cd ow ex cw w
     = (Ok (self_of (sentence 1.1%Q (add_weight delete_extra_space 1.1%Q)
                       alternation Ru.punct_graph)), w') /\
     union_operands alternation
     = map (fun c =>
              add_weight
                (dict_get_default c empty_fst
                   (exclusion_filter (default [] ex)
                      (Ru.class_graphs (TN.with_fst TN.built_fst))))
                (effective_weight (weights_of w cw) c))
           union_order) /\
  (forall c v,
     dict_get c (weights_of w cw) = Some v ->
     effective_weight (weights_of w cw) c = v) /\
  (forall c,
     dict_get c (weights_of w cw) = None ->
     effective_weight (weights_of w cw) c
     = dict_get_default c 0%Q
         [ ("cardinal", 1.1%Q); ("ordinal", 1.1%Q); ("decimal", 1.1%Q);
           ("measure", 1.1%Q); ("date", 1.09%Q); ("time", 1.1%Q);
           ("money", 1.1%Q); ("electronic", 1.1%Q); ("telephone", 1.1%Q);
           ("whitelist", 1.01%Q); ("word", 100%Q) ]).
Proof.
  intros Hv Hu. split; [|split; [|split]].
  - intros Hb. exists (En_alternation (default [] ex) (weights_of w cw)).
    eexists. split; [by apply En_init_builds|].
    unfold En_alternation. rewrite union_operands_alternation.
    apply map_ext_Forall.
    eapply Forall_impl; [apply En_class_graphs_total|].
    intros c Hc. by apply shifted_filtered.
  - intros Hb. exists (Ru_alternation (default [] ex) (weights_of w cw)).
    eexists. split; [by apply Ru_init_builds|].
    unfold Ru_alternation. rewrite union_operands_alternation.
    apply map_ext_Forall.
    eapply Forall_impl;
      [apply (Ru_class_graphs_total (TN.with_fst TN.built_fst))|].
    intros c Hc. by apply shifted_filtered.
  - intros c v Hc. unfold effective_weight. by rewrite Hc.
  - intros c Hc. unfold effective_weight, dict_get_default. rewrite Hc.
    cbn [dict_get default_class_weights].
    repeat (match goal with
            | |- context [String.eqb c ?k] =>
                let E := fresh "E" in
                destruct (String.eqb c k) eqn:E;
                [apply String.eqb_eq in E; subst c; reflexivity|clear E]
            end).
    reflexivity.
Qed.

Lemma class_weights_shift_the_alternation_witness :
  let w := world_with_dict [("cardinal", 3%Q)] in
  valid_ref w (Some 0) /\ usable w None /\
  builds "_en_itn.far" None false w /\ builds "_ru_itn.far" None false w /\
  (exists alternation w',
     En.ClassifyFst_init None false None (Some 0) w
     = (Ok (self_of (sentence 1.1%Q delete_extra_space alternation
                       En.punct_graph)), w') /\
     union_operands alternation !! 5
     = Some (add_weight (Grammar "en.CardinalFst" []) 3%Q) /\
     union_operands alternation !! 2
     = Some (add_weight
               (Grammar "en.DateFst"
                  [Grammar "en.OrdinalFst" [Grammar "en.CardinalFst" []]])
               1.09%Q)) /\
  (exists alternation w',
     Ru.ClassifyFst_init None false None (Some 0) w
     = (Ok (self_of (sentence 1.1%Q (add_weight delete_extra_space 1.1%Q)
                       alternation Ru.punct_graph)), w') /\
     union_operands alternation !! 10
     = Some (add_weight (Grammar "en.WordFst" []) 100%Q)).
Proof.
  intros w.
  assert (Hv : valid_ref w (Some 0)) by (vm_compute; lia).
  assert (Hen : builds "_en_itn.far" None false w) by (right; exact I).
  assert (Hru : builds "_ru_itn.far" None false w) by (right; exact I).
  pose proof (class_weights_shift_the_alternation None false None (Some 0) w
                Hv I) as (Hen' & Hru' & _ & _).
  split; [exact Hv|]. split; [exact I|]. split; [exact Hen|].
  split; [exact Hru|]. split.
  - destruct (Hen' Hen) as (alternation & w' & Hrun & Hops).
    exists alternation, w'. split; [exact Hrun|]. rewrite Hops.
    split; vm_compute; reflexivity.
  - destruct (Hru' Hru) as (alternation & w' & Hrun & Hops).
    exists alternation, w'. split; [exact Hrun|]. rewrite Hops.
    vm_compute; reflexivity.
Defined.

(** C8. When the constructor builds the grammar, the grammar is assembled as
    the claim says: [token] is the alternation between the inserted
    ["tokens { "] and [" }"]; [token_plus_punct] is [closure(punct +
    insert(" ")) + token + closure(insert(" ") + punct)]; the sentence is the
    deletion of the leading spaces, [token_plus_punct], the closure of the
    separator followed by [token_plus_punct], and the deletion of the trailing
    spaces, where the separator is [delete_extra_space] in English and
    [delete_extra_space] shifted by 1.1 in Russian; the result is optimized,
    and the optimized grammar is the one that is returned and the one that
    is stored in the archive when there is an archive path. *)
Theorem sentence_grammar_is_assembled_and_optimized cd ow ex cw w :
  valid_ref w cw -> usable w cd ->
  (builds "_en_itn.far" cd ow w ->
   let classify := En_alternation (default [] ex) (weights_of w cw) in
   let punct :=
     (insert "tokens { " +: add_weight En.punct_graph 1.1%Q +: insert " }")%fst in
   let token := (insert "tokens { " +: classify +: insert " }")%fst in
   let token_plus_punct :=
     (closure (punct +: insert " ") +: token +: closure (insert " " +: punct))%fst in
   let graph :=
     (delete_space
      +: (token_plus_punct +: closure (delete_extra_space +: token_plus_punct))
      +: delete_space)%fst in
   exists w',
     En.ClassifyFst_init cd ow ex cw w
     = (Ok (mkGraphFst "tokenize_and_classify" "classify" (optimize graph)), w') /\
     forall path,
       far_file_of cd "_en_itn.far" = Some path ->
       files w' !! path
       = Some (FarArchive [("tokenize_and_classify", optimize graph)])) /\
  (builds "_ru_itn.far" cd ow w ->
   let classify := Ru_alternation (default [] ex) (weights_of w cw) in
   let punct :=
     (insert "tokens { " +: add_weight Ru.punct_graph 1.1%Q +: insert " }")%fst in
   let token := (insert "tokens { " +: classify +: insert " }")%fst in
   let token_plus_punct :=
     (closure (punct +: insert " ") +: token +: closure (insert " " +: punct))%fst in
   let graph :=
     (delete_space
      +: (token_plus_punct
          +: closure (add_weight delete_extra_space 1.1%Q +: token_plus_punct))
      +: delete_space)%fst in
   exists w',
     Ru.ClassifyFst_init cd ow ex cw w
     = (Ok (mkGraphFst "tokenize_and_classify" "classify" (optimize graph)), w') /\
     forall path,
       far_file_of cd "_ru_itn.far" = Some path ->
       files w' !! path
       = Some (FarArchive [("tokenize_and_classify", optimize graph)])).
Proof.
  intros Hv Hu. split; intros Hb; cbv zeta.
  - eexists. split; [by apply En_init_builds|].
    intros path Hfar. rewrite Hfar.
    by apply (files_saved cd "_en_itn.far" path
                (En_built (default [] ex) (weights_of w cw))).
  - eexists. split; [by apply Ru_init_builds|].
    intros path Hfar. rewrite Hfar.
    by apply (files_saved cd "_ru_itn.far" path
                (Ru_built (default [] ex) (weights_of w cw))).
Qed.

Lemma sentence_grammar_is_assembled_and_optimized_witness :
  valid_ref fresh_world None /\ usable fresh_world (Some "cache") /\
  builds "_en_itn.far" (Some "cache") false fresh_world /\
  builds "_ru_itn.far" (Some "cache") false fresh_world /\
  (exists g w',
     En.ClassifyFst_init (Some "cache") false None None fresh_world
     = (Ok (mkGraphFst "tokenize_and_classify" "classify" (optimize g)), w') /\
     files w' !! "cache/_en_itn.far"
     = Some (FarArchive [("tokenize_and_classify", optimize g)])) /\
  (exists g w',
     Ru.ClassifyFst_init (Some "cache") false None None fresh_world
     = (Ok (mkGraphFst "tokenize_and_classify" "classify" (optimize g)), w') /\
     files w' !! "cache/_ru_itn.far"
     = Some (FarArchive [("tokenize_and_classify", optimize g)])).
Proof.
  assert (Hu : usable fresh_world (Some "cache")).
  { intros _. split; [discriminate|reflexivity]. }
  assert (Hen : builds "_en_itn.far" (Some "cache") false fresh_world).
  { right. vm_compute. split; [reflexivity|discriminate]. }
  assert (Hru : builds "_ru_itn.far" (Some "cache") false fresh_world).
  { right. vm_compute. split; [reflexivity|discriminate]. }
  pose proof (sentence_grammar_is_assembled_and_optimized
                (Some "cache") false None None fresh_world I Hu) as (Hen' & Hru').
  split; [exact I|]. split; [exact Hu|]. split; [exact Hen|].
  split; [exact Hru|]. split.
  - destruct (Hen' Hen) as (w' & Hrun & Hfile).
    eexists _, w'. split; [exact Hrun|]. apply Hfile. reflexivity.
  - destruct (Hru' Hru) as (w' & Hrun & Hfile).
    eexists _, w'. split; [exact Hrun|]. apply Hfile. reflexivity.
Defined.

(** ** Keys that name no class *)

Lemma str_in_elem_of (x : string) (l : list string) :
  str_in x l = true <-> x ∈ l.
Proof.
  unfold str_in. rewrite existsb_exists, list_elem_of_In. split.
  - by intros (k & Hin & ->%String.eqb_eq).
  - intros Hin. exists x. by rewrite String.eqb_refl.
Qed.

Lemma unknown_keys_spec {V} (d : dict V) (k : string) :
  k ∈ unknown_keys d <-> dict_mem k d = true /\ str_in k classes = false.
Proof.
  unfold unknown_keys. rewrite list_elem_of_In, filter_In, <- list_elem_of_In.
  rewrite <- str_in_elem_of, dict_get_keys, negb_true_iff. done.
Qed.

Lemma unknown_keys_filled (d : dict Q) (k : string) :
  k ∈ unknown_keys d -> k ∈ unknown_keys (filled d).
Proof.
  rewrite !unknown_keys_spec. intros [Hmem Hk]. split; [|done].
  unfold dict_mem in *. by rewrite dict_get_filled_other.
Qed.

Lemma weight_diagnostic_logged ex cw w k :
  k ∈ unknown_keys (weights_of w cw) ->
  weight_diagnostic k ∈ trace (configured ex cw w).
Proof.
  intros Hk%unknown_keys_filled. cbn [trace configured].
  rewrite !elem_of_app. right. right. by apply list_elem_of_fmap_2.
Qed.

Lemma excluded_diagnostic_logged ex cw w k :
  k ∈ unknown_keys (default [] ex) ->
  excluded_diagnostic k ∈ trace (configured ex cw w).
Proof.
  intros Hk. cbn [trace configured].
  rewrite !elem_of_app. right. left. by apply list_elem_of_fmap_2.
Qed.

(** C5, as the claim states it, fails: with [class_weights =
    {'punctuation': 5}] both constructors build the tagged punctuation with
    the shift 1.1, and the grammar they return is not the one with the shift
    5. *)
Lemma punctuation_entry_is_not_applied :
  let w := world_with_dict [("punctuation", 5%Q)] in
  dict_get "punctuation" (weights_of w (Some 0)) = Some 5%Q /\
  (exists w',
     En.ClassifyFst_init None false None (Some 0) w
     = (Ok (self_of (sentence 1.1%Q delete_extra_space
                       (En_alternation [] [("punctuation", 5%Q)])
                       En.punct_graph)), w')) /\
  ~ (exists alternation w',
       En.ClassifyFst_init None false None (Some 0) w
       = (Ok (self_of (sentence 5%Q delete_extra_space alternation
                         En.punct_graph)), w')) /\
  ~ (exists alternation w',
       Ru.ClassifyFst_init None false None (Some 0) w
       = (Ok (self_of (sentence 5%Q (add_weight delete_extra_space 1.1%Q)
                         alternation Ru.punct_graph)), w')).
Proof.
  intros w. split; [reflexivity|]. split; [|split].
  - eexists. vm_compute. reflexivity.
  - intros (alternation & w' & H). vm_compute in H. discriminate H.
  - intros (alternation & w' & H). vm_compute in H. discriminate H.
Qed.

(** C5, amended.  When the constructor builds the grammar, the tagged
    punctuation is the punctuation grammar shifted by 1.1, whatever
    [class_weights] holds; ['punctuation'] is not one of the class names, and
    an entry of [class_weights] under that key is reported as naming no class
    and is otherwise ignored. *)
Theorem punctuation_shift_is_fixed cd ow ex cw w :
  valid_ref w cw -> usable w cd ->
  (builds "_en_itn.far" cd ow w ->
   exists w',
     En.ClassifyFst_init cd ow ex cw w
     = (Ok (self_of (sentence 1.1%Q delete_extra_space
                       (En_alternation (default [] ex) (weights_of w cw))
                       En.punct_graph)), w')) /\
  (builds "_ru_itn.far" cd ow w ->
   exists w',
     Ru.ClassifyFst_init cd ow ex cw w
     = (Ok (self_of (sentence 1.1%Q (add_weight delete_extra_space 1.1%Q)
                       (Ru_alternation (default [] ex) (weights_of w cw))
                       Ru.punct_graph)), w')) /\
  (dict_mem "punctuation" (weights_of w cw) = true ->
   weight_diagnostic "punctuation" ∈ trace (En.ClassifyFst_init cd ow ex cw w).2 /\
   weight_diagnostic "punctuation" ∈ trace (Ru.ClassifyFst_init cd ow ex cw w).2).
Proof.
  intros Hv Hu. split; [|split].
  - intros Hb. eexists. by apply En_init_builds.
  - intros Hb. eexists. by apply Ru_init_builds.
  - intros Hmem.
    assert (Hk : "punctuation" ∈ unknown_keys (weights_of w cw)).
    { by apply unknown_keys_spec. }
    destruct (En_init_frame cd ow ex cw w Hv) as (_ & events & ->).
    destruct (Ru_init_frame cd ow ex cw w Hv) as (_ & events' & ->).
    split; apply elem_of_app; left; by apply weight_diagnostic_logged.
Qed.

Lemma punctuation_shift_is_fixed_witness :
  let w := world_with_dict [("punctuation", 5%Q)] in
  valid_ref w (Some 0) /\ usable w None /\
  builds "_en_itn.far" None false w /\ builds "_ru_itn.far" None false w /\
  dict_mem "punctuation" (weights_of w (Some 0)) = true /\
  (exists w',
     En.ClassifyFst_init None false None (Some 0) w
     = (Ok (self_of (sentence 1.1%Q delete_extra_space
                       (En_alternation [] [("punctuation", 5%Q)])
                       En.punct_graph)), w')) /\
  (exists w',
     Ru.ClassifyFst_init None false None (Some 0) w
     = (Ok (self_of (sentence 1.1%Q (add_weight delete_extra_space 1.1%Q)
                       (Ru_alternation [] [("punctuation", 5%Q)])
                       Ru.punct_graph)), w')) /\
  weight_diagnostic "punctuation"
    ∈ trace (En.ClassifyFst_init None false None (Some 0) w).2.
Proof.
  intros w.
  assert (Hv : valid_ref w (Some 0)) by (vm_compute; lia).
  assert (Hen : builds "_en_itn.far" None false w) by (right; exact I).
  assert (Hru : builds "_ru_itn.far" None false w) by (right; exact I).
  pose proof (punctuation_shift_is_fixed None false None (Some 0) w Hv I)
    as (Hen' & Hru' & Hlog).
  split; [exact Hv|]. split; [exact I|]. split; [exact Hen|].
  split; [exact Hru|]. split; [reflexivity|].
  split; [exact (Hen' Hen)|]. split; [exact (Hru' Hru)|].
  exact (proj1 (Hlog eq_refl)).
Defined.

Lemma files_En_ready cd ex cw w : files (En_ready cd ex cw w) = files w.
Proof. unfold En_ready. by rewrite files_with_cache_dir. Qed.

Lemma files_Ru_ready cd ex cw w : files (Ru_ready cd ex cw w) = files w.
Proof. unfold Ru_ready. by rewrite files_with_cache_dir. Qed.

(** C6, as the claim states it, fails: with anything that is not an archive
    at the archive path and [overwrite_cache=False], both constructors end
    with the error of the archive reader; the grammar is not rebuilt and the
    file stays as it was. *)
Lemma corrupt_archive_raises :
  (let w := world_with_file "cache/_en_itn.far" (Garbage "not an archive") in
   let run := En.ClassifyFst_init (Some "cache") false None None w in
   run.1 = Raise (FstIOError "cache/_en_itn.far") /\
   files run.2 !! "cache/_en_itn.far" = Some (Garbage "not an archive")) /\
  (let w := world_with_file "cache/_ru_itn.far" (Garbage "not an archive") in
   let run := Ru.ClassifyFst_init (Some "cache") false None None w in
   run.1 = Raise (FstIOError "cache/_ru_itn.far") /\
   files run.2 !! "cache/_ru_itn.far" = Some (Garbage "not an archive")).
Proof. split; split; vm_compute; reflexivity. Qed.

(** C6, amended.  When a file that is not a readable archive is at the
    archive path and [overwrite_cache] is false, the constructor does not
    treat it as a cache miss: the error of the archive reader reaches the
    caller, nothing is rebuilt and the file is left as it is. *)
Theorem unreadable_archive_error_reaches_the_caller cd ex cw w content :
  valid_ref w cw -> usable w cd ->
  (forall path,
     far_file_of cd "_en_itn.far" = Some path ->
     files w !! path = Some (Garbage content) ->
     (En.ClassifyFst_init cd false ex cw w).1 = Raise (FstIOError path) /\
     files (En.ClassifyFst_init cd false ex cw w).2 = files w) /\
  (forall path,
     far_file_of cd "_ru_itn.far" = Some path ->
     files w !! path = Some (Garbage content) ->
     (Ru.ClassifyFst_init cd false ex cw w).1 = Raise (FstIOError path) /\
     files (Ru.ClassifyFst_init cd false ex cw w).2 = files w).
Proof.
  intros Hv Hu. split; intros path Hfar Hfile.
  - rewrite (En_init_hit cd false ex cw w path); [|done..|];
      [|by apply (hit_of_present "_en_itn.far" cd w _ path (Garbage content))].
    rewrite restore_unreadable.
    + cbn [fst snd]. by rewrite files_En_ready.
    + intros entries. by rewrite files_En_ready, Hfile.
  - rewrite (Ru_init_hit cd false ex cw w path); [|done..|];
      [|by apply (hit_of_present "_ru_itn.far" cd w _ path (Garbage content))].
    rewrite restore_unreadable.
    + cbn [fst snd]. by rewrite files_Ru_ready.
    + intros entries. by rewrite files_Ru_ready, Hfile.
Qed.

Lemma unreadable_archive_error_reaches_the_caller_witness :
  let w := world_with_file "cache/_en_itn.far" (Garbage "not an archive") in
  valid_ref w None /\ usable w (Some "cache") /\
  far_file_of (Some "cache") "_en_itn.far" = Some "cache/_en_itn.far" /\
  files w !! "cache/_en_itn.far" = Some (Garbage "not an archive") /\
  (En.ClassifyFst_init (Some "cache") false None None w).1
  = Raise (FstIOError "cache/_en_itn.far").
Proof.
  intros w.
  assert (Hu : usable w (Some "cache")).
  { intros _. split; [discriminate|]. vm_compute. reflexivity. }
  assert (Hfile : files w !! "cache/_en_itn.far"
                  = Some (Garbage "not an archive")).
  { vm_compute. reflexivity. }
  pose proof (unreadable_archive_error_reaches_the_caller
                (Some "cache") None None w "not an archive" I Hu) as [Hen _].
  split; [exact I|]. split; [exact Hu|]. split; [reflexivity|].
  split; [exact Hfile|].
  exact (proj1 (Hen "cache/_en_itn.far" eq_refl Hfile)).
Defined.

(** C1, as the claim states it, fails: the archive path does not depend on
    [excluded_classes] or [class_weights].  A first call builds the grammar
    under one configuration and stores it; a second call with the same
    [cache_dir] and another configuration (cardinal excluded in English,
    another weight of cardinal in Russian) is given the grammar of the first
    call, which is not the grammar of its own configuration. *)
Lemma cache_slot_is_shared_between_configurations :
  (let first :=
     En.ClassifyFst_init (Some "cache") false (Some []) None fresh_world in
   let second :=
     En.ClassifyFst_init (Some "cache") false (Some [("cardinal", true)]) None
       first.2 in
   let alone :=
     En.ClassifyFst_init (Some "cache") false (Some [("cardinal", true)]) None
       fresh_world in
   (exists g, first.1 = Ok g /\ second.1 = Ok g) /\ second.1 <> alone.1) /\
  (let w := world_with_dict [("cardinal", 1.01%Q)] in
   let first := Ru.ClassifyFst_init (Some "cache") false None None w in
   let second := Ru.ClassifyFst_init (Some "cache") false None (Some 0) first.2 in
   let alone := Ru.ClassifyFst_init (Some "cache") false None (Some 0) w in
   (exists g, first.1 = Ok g /\ second.1 = Ok g) /\ second.1 <> alone.1).
Proof.
  split; cbv zeta; (split; [eexists; split; vm_compute; reflexivity|]);
    intros H; vm_compute in H; discriminate H.
Qed.

(** C1, amended.  For a fixed language and [cache_dir] the cache slot is the
    one path [os.path.join(cache_dir, "_en_itn.far")] (["_ru_itn.far"] for
    Russian), whatever [excluded_classes] and [class_weights] are: a call
    with [overwrite_cache] false that finds an archive there returns the
    grammar stored in it whatever its own configuration is, and a call that
    builds stores its grammar at that same path. *)
Theorem cache_slot_depends_on_the_directory_only cd ow ex cw w :
  valid_ref w cw -> usable w cd ->
  (forall path entries g,
     far_file_of cd "_en_itn.far" = Some path ->
     files w !! path = Some (FarArchive entries) ->
     dict_get "tokenize_and_classify" entries = Some g ->
     (En.ClassifyFst_init cd false ex cw w).1 = Ok (self_of g)) /\
  (forall path,
     far_file_of cd "_en_itn.far" = Some path ->
     builds "_en_itn.far" cd ow w ->
     exists g,
       (En.ClassifyFst_init cd ow ex cw w).1 = Ok (self_of g) /\
       files (En.ClassifyFst_init cd ow ex cw w).2 !! path
       = Some (FarArchive [("tokenize_and_classify", g)])) /\
  (forall path entries g,
     far_file_of cd "_ru_itn.far" = Some path ->
     files w !! path = Some (FarArchive entries) ->
     dict_get "tokenize_and_classify" entries = Some g ->
     (Ru.ClassifyFst_init cd false ex cw w).1 = Ok (self_of g)) /\
  (forall path,
     far_file_of cd "_ru_itn.far" = Some path ->
     builds "_ru_itn.far" cd ow w ->
     exists g,
       (Ru.ClassifyFst_init cd ow ex cw w).1 = Ok (self_of g) /\
       files (Ru.ClassifyFst_init cd ow ex cw w).2 !! path
       = Some (FarArchive [("tokenize_and_classify", g)])).
Proof.
  intros Hv Hu. split; [|split; [|split]].
  - intros path entries g Hfar Hfile Hg.
    rewrite (En_init_hit cd false ex cw w path); [|done..|];
      [|by apply (hit_of_present "_en_itn.far" cd w _ path (FarArchive entries))].
    erewrite restore_run; [done| |exact Hg]. by rewrite files_En_ready.
  - intros path Hfar Hb. eexists.
    rewrite En_init_builds by done. cbn [fst snd]. split; [done|].
    rewrite Hfar. by apply (files_saved cd "_en_itn.far").
  - intros path entries g Hfar Hfile Hg.
    rewrite (Ru_init_hit cd false ex cw w path); [|done..|];
      [|by apply (hit_of_present "_ru_itn.far" cd w _ path (FarArchive entries))].
    erewrite restore_run; [done| |exact Hg]. by rewrite files_Ru_ready.
  - intros path Hfar Hb. eexists.
    rewrite Ru_init_builds by done. cbn [fst snd]. split; [done|].
    rewrite Hfar. by apply (files_saved cd "_ru_itn.far").
Qed.

Lemma cache_slot_depends_on_the_directory_only_witness :
  let stored := Grammar "stored" [] in
  let w :=
    world_with_file "cache/_en_itn.far"
      (FarArchive [("tokenize_and_classify", stored)]) in
  valid_ref w None /\ usable w (Some "cache") /\
  far_file_of (Some "cache") "_en_itn.far" = Some "cache/_en_itn.far" /\
  far_file_of (Some "cache") "_ru_itn.far" = Some "cache/_ru_itn.far" /\
  builds "_ru_itn.far" (Some "cache") false w /\
  (En.ClassifyFst_init (Some "cache") false (Some [("cardinal", true)]) None w).1
  = Ok (self_of stored) /\
  (exists g,
     (Ru.ClassifyFst_init (Some "cache") false (Some [("cardinal", true)]) None w).1
     = Ok (self_of g) /\
     files (Ru.ClassifyFst_init (Some "cache") false
              (Some [("cardinal", true)]) None w).2 !! "cache/_ru_itn.far"
     = Some (FarArchive [("tokenize_and_classify", g)])).
Proof.
  intros stored w.
  assert (Hu : usable w (Some "cache")).
  { intros _. split; [discriminate|]. vm_compute. reflexivity. }
  assert (Hru : builds "_ru_itn.far" (Some "cache") false w).
  { right. vm_compute. split; [reflexivity|discriminate]. }
  pose proof (cache_slot_depends_on_the_directory_only (Some "cache") false
                (Some [("cardinal", true)]) None w I Hu)
    as (Hload & _ & _ & Hstore).
  split; [exact I|]. split; [exact Hu|]. split; [reflexivity|].
  split; [reflexivity|]. split; [exact Hru|]. split.
  - apply (Hload "cache/_en_itn.far" [("tokenize_and_classify", stored)] stored);
      [reflexivity| vm_compute; reflexivity | reflexivity].
  - exact (Hstore "cache/_ru_itn.far" eq_refl Hru).
Defined.

(** ** The dictionary after the defaults are filled in *)

Lemma fill_present (tbl d : dict Q) :
  Forall (fun e => dict_mem e.1 d = true) tbl -> foldl fill_step d tbl = d.
Proof.
  induction 1 as [|e tbl He _ IH]; [done|].
  cbn [foldl]. unfold fill_step at 2. by rewrite He.
Qed.

Lemma filled_idempotent (d : dict Q) : filled (filled d) = filled d.
Proof.
  apply fill_present.
  assert (Hcls : Forall (fun e : string * Q => str_in e.1 classes = true)
                   default_class_weights) by (repeat constructor).
  eapply Forall_impl; [exact Hcls|].
  intros e He. unfold dict_mem. by rewrite dict_get_filled.
Qed.

Lemma filled_keeps (d : dict Q) (k : string) (v : Q) :
  dict_get k d = Some v -> dict_get k (filled d) = Some v.
Proof. intros Hk. unfold filled. by rewrite dict_get_fill, Hk. Qed.

Lemma heap_configured_ref ex l w d :
  heap w !! l = Some d ->
  heap (configured ex (Some l) w) = <[l := filled d]> (heap w).
Proof. intros Hl. cbn [heap configured weights_of]. by rewrite Hl. Qed.

(** C9.  When the caller passes a dictionary as [class_weights], the
    constructor (English or Russian, whatever its outcome) writes to that
    same object: afterwards the object holds the caller's entries and, for
    each of the eleven classes the caller gave no weight, the default, and
    no other key is added; no other object changes.  A later construction that is given the same
    object starts from the filled dictionary: it builds with it, prints it
    (English) and finds nothing left to insert. *)
Theorem class_weights_are_filled_in_place cd ow ex l w d :
  heap w !! l = Some d ->
  let after_en := (En.ClassifyFst_init cd ow ex (Some l) w).2 in
  let after_ru := (Ru.ClassifyFst_init cd ow ex (Some l) w).2 in
  heap after_en = <[l := filled d]> (heap w) /\
  heap after_ru = <[l := filled d]> (heap w) /\
  (forall c, c ∈ classes -> dict_get c (filled d) = Some (effective_weight d c)) /\
  (forall k v, dict_get k d = Some v -> dict_get k (filled d) = Some v) /\
  (forall k, k ∉ classes -> dict_get k (filled d) = dict_get k d) /\
  (forall cd' ow' ex',
     weights_of after_en (Some l) = filled d /\
     heap (En.ClassifyFst_init cd' ow' ex' (Some l) after_en).2 = heap after_en /\
     (usable after_en cd' -> builds "_en_itn.far" cd' ow' after_en ->
      (En.ClassifyFst_init cd' ow' ex' (Some l) after_en).1
      = Ok (self_of (En_built (default [] ex') (filled d))))) /\
  (forall cd' ow' ex',
     weights_of after_ru (Some l) = filled d /\
     heap (Ru.ClassifyFst_init cd' ow' ex' (Some l) after_ru).2 = heap after_ru /\
     (usable after_ru cd' -> builds "_ru_itn.far" cd' ow' after_ru ->
      (Ru.ClassifyFst_init cd' ow' ex' (Some l) after_ru).1
      = Ok (self_of (Ru_built (default [] ex') (filled d))))).
Proof.
  intros Hl after_en after_ru.
  assert (Hv : valid_ref w (Some l)) by (by eapply lookup_lt_Some).
  assert (Hen : heap after_en = <[l := filled d]> (heap w)).
  { subst after_en. destruct (En_init_frame cd ow ex (Some l) w Hv) as [-> _].
    by apply heap_configured_ref. }
  assert (Hru : heap after_ru = <[l := filled d]> (heap w)).
  { subst after_ru. destruct (Ru_init_frame cd ow ex (Some l) w Hv) as [-> _].
    by apply heap_configured_ref. }
  assert (Hl_en : heap after_en !! l = Some (filled d)).
  { rewrite Hen. by apply list_lookup_insert_eq. }
  assert (Hl_ru : heap after_ru !! l = Some (filled d)).
  { rewrite Hru. by apply list_lookup_insert_eq. }
  split; [exact Hen|]. split; [exact Hru|]. split; [|split; [|split; [|split]]].
  - intros c Hc. apply dict_get_filled. by apply str_in_elem_of.
  - apply filled_keeps.
  - intros k Hk. apply dict_get_filled_other.
    apply not_true_is_false. by rewrite str_in_elem_of.
  - intros cd' ow' ex'.
    assert (Hv' : valid_ref after_en (Some l)) by (by eapply lookup_lt_Some).
    assert (Hw : weights_of after_en (Some l) = filled d).
    { cbn [weights_of]. by rewrite Hl_en. }
    split; [exact Hw|]. split.
    + destruct (En_init_frame cd' ow' ex' (Some l) after_en Hv') as [-> _].
      rewrite (heap_configured_ref _ _ _ _ Hl_en), filled_idempotent.
      by apply list_insert_id.
    + intros Hu Hb. rewrite En_init_builds by done. cbn [fst].
      by rewrite Hw.
  - intros cd' ow' ex'.
    assert (Hv' : valid_ref after_ru (Some l)) by (by eapply lookup_lt_Some).
    assert (Hw : weights_of after_ru (Some l) = filled d).
    { cbn [weights_of]. by rewrite Hl_ru. }
    split; [exact Hw|]. split.
    + destruct (Ru_init_frame cd' ow' ex' (Some l) after_ru Hv') as [-> _].
      rewrite (heap_configured_ref _ _ _ _ Hl_ru), filled_idempotent.
      by apply list_insert_id.
    + intros Hu Hb. rewrite Ru_init_builds by done. cbn [fst].
      by rewrite Hw.
Qed.

Lemma class_weights_are_filled_in_place_witness :
  let d := [("cardinal", 1.01%Q)] in
  let w := world_with_dict d in
  heap w !! 0 = Some d /\
  heap (En.ClassifyFst_init None false None (Some 0) w).2
  = [ [ ("cardinal", 1.01%Q); ("ordinal", 1.1%Q); ("decimal", 1.1%Q);
        ("measure", 1.1%Q); ("date", 1.09%Q); ("word", 100%Q);
        ("time", 1.1%Q); ("money", 1.1%Q); ("electronic", 1.1%Q);
        ("telephone", 1.1%Q); ("whitelist", 1.01%Q) ] ] /\
  heap (Ru.ClassifyFst_init None true None (Some 0)
          (Ru.ClassifyFst_init None false None (Some 0) w).2).2
  = heap (Ru.ClassifyFst_init None false None (Some 0) w).2.
Proof.
  intros d w.
  pose proof (class_weights_are_filled_in_place None false None 0 w d eq_refl)
    as (Hen & _ & _ & _ & _ & _ & Hlater).
  split; [reflexivity|]. split.
  - rewrite Hen. vm_compute. reflexivity.
  - exact (proj1 (proj2 (Hlater None true None))).
Defined.

(** ** The archive of the forward-direction grammar *)

Lemma tn_rebuilt_stores cd w path :
  far_file_of cd "_ru_tn.far" = Some path ->
  files (tn_rebuilt cd w) !! path
  = Some (FarArchive [("tokenize_and_classify", TN.built_fst)]) /\
  trace (tn_rebuilt cd w)
  = (trace w ++ [TNConstructed (tn_args cd); FarExport path])%list.
Proof.
  intros Hfar. unfold tn_rebuilt. rewrite Hfar. cbn [files trace].
  rewrite lookup_insert_eq, trace_with_cache_dir. cbn [trace log_to].
  by rewrite <- app_assoc.
Qed.

Lemma files_saved_other far g w path :
  far <> Some path -> files (saved far g w) !! path = files w !! path.
Proof.
  intros Hne. unfold saved. destruct far as [path'|]; [|done].
  destruct (truthy (Some path')); [|done]. cbn [files].
  apply lookup_insert_ne. congruence.
Qed.

Lemma far_file_of_inj cd n n' path :
  far_file_of cd n = Some path -> far_file_of cd n' = Some path -> n = n'.
Proof.
  unfold far_file_of. destruct cd as [dir|]; [|done].
  destruct (String.eqb dir "None"); [done|]. cbn [negb].
  intros [= <-] [= Heq]. symmetry. by eapply os_path_join_inj.
Qed.

(** C10.  Whenever the Russian constructor builds (the cache is off, nothing
    is at its archive path, or [overwrite_cache] is true), it constructs the
    forward-direction grammar with [input_case='cased'],
    [deterministic=False], the caller's [cache_dir] and
    [overwrite_cache=True], whatever [overwrite_cache] the caller passed; so,
    when there is a cache directory, the archive of the forward-direction
    grammar is written again on every such build, also over an archive that
    is already there. *)
Theorem forward_grammar_is_rebuilt_on_every_build cd ow ex cw w :
  valid_ref w cw -> usable w cd -> builds "_ru_itn.far" cd ow w ->
  let after := (Ru.ClassifyFst_init cd ow ex cw w).2 in
  TNConstructed (mkTNArgs "cased" false cd true) ∈ trace after /\
  (forall path,
     far_file_of cd "_ru_tn.far" = Some path ->
     FarExport path ∈ trace after /\
     files after !! path
     = Some (FarArchive [("tokenize_and_classify", TN.built_fst)])).
Proof.
  intros Hv Hu Hb after. subst after.
  rewrite Ru_init_builds by done. cbn [snd].
  match goal with
  | |- context [saved ?far ?g (tn_rebuilt cd ?w0)] =>
      destruct (trace_saved far g (tn_rebuilt cd w0)) as [events Hsaved];
      rewrite Hsaved; set (before := w0)
  end.
  split.
  - destruct (trace_tn_rebuilt cd before) as [events' ->].
    rewrite !elem_of_app. left. right. by left.
  - intros path Hfar.
    destruct (tn_rebuilt_stores cd before path Hfar) as [Hfile Htrace].
    split.
    + rewrite Htrace, !elem_of_app. left. right. set_solver.
    + rewrite files_saved_other; [exact Hfile|].
      intros Hitn.
      by pose proof (far_file_of_inj _ _ _ _ Hitn Hfar).
Qed.

Lemma forward_grammar_is_rebuilt_on_every_build_witness :
  let w :=
    world_with_file "cache/_ru_tn.far"
      (FarArchive [("tokenize_and_classify", Grammar "older" [])]) in
  valid_ref w None /\ usable w (Some "cache") /\
  builds "_ru_itn.far" (Some "cache") false w /\
  far_file_of (Some "cache") "_ru_tn.far" = Some "cache/_ru_tn.far" /\
  TNConstructed (mkTNArgs "cased" false (Some "cache") true)
    ∈ trace (Ru.ClassifyFst_init (Some "cache") false None None w).2 /\
  files (Ru.ClassifyFst_init (Some "cache") false None None w).2
    !! "cache/_ru_tn.far"
  = Some (FarArchive [("tokenize_and_classify", TN.built_fst)]).
Proof.
  intros w.
  assert (Hu : usable w (Some "cache")).
  { intros _. split; [discriminate|]. vm_compute. reflexivity. }
  assert (Hb : builds "_ru_itn.far" (Some "cache") false w).
  { right. vm_compute. split; [reflexivity|discriminate]. }
  pose proof (forward_grammar_is_rebuilt_on_every_build
                (Some "cache") false None None w I Hu Hb) as [Hcall Hstore].
  split; [exact I|]. split; [exact Hu|]. split; [exact Hb|].
  split; [reflexivity|]. split; [exact Hcall|].
  exact (proj2 (Hstore "cache/_ru_tn.far" eq_refl)).
Defined.

(** ** The shortest path through the grammar that is built *)

Lemma splits_app s cut : cut ∈ splits s -> s = (cut.1 ++ cut.2)%list.
Proof.
  revert cut. induction s as [|c s IH]; intros cut; cbn [splits].
  - by intros ->%list_elem_of_singleton.
  - rewrite elem_of_app, list_elem_of_fmap, list_elem_of_singleton.
    intros [(cut' & -> & Hcut')| ->]; [|done].
    cbn [fst snd]. by rewrite (IH cut' Hcut') at 1.
Qed.

Lemma splits_last s :
  exists front, splits s = (front ++ [([], s)])%list /\
    forall cut, cut ∈ front -> cut.1 <> [].
Proof.
  destruct s as [|c s]; cbn [splits].
  - exists []. split; [done|]. by intros cut ?%elem_of_nil.
  - eexists. split; [done|].
    intros cut (cut' & -> & _)%list_elem_of_fmap. discriminate.
Qed.

Lemma splits_first s :
  exists back, splits s = (s, []) :: back /\
    forall cut, cut ∈ back -> cut.2 <> [].
Proof.
  induction s as [|c s (back & Hs & Hback)]; cbn [splits].
  - exists []. split; [done|]. by intros cut ?%elem_of_nil.
  - rewrite Hs. rewrite fmap_cons. cbn [fst snd app]. eexists. split; [done|].
    intros cut. rewrite elem_of_app, list_elem_of_fmap, list_elem_of_singleton.
    intros [(cut' & -> & Hcut')| ->]; [|discriminate].
    cbn [snd]. by apply Hback.
Qed.

Lemma bind_none {A B} (f : A -> list B) (l : list A) :
  (forall x, x ∈ l -> f x = []) -> l ≫= f = [].
Proof.
  induction l as [|x l IH]; intros Hf; [done|].
  rewrite bind_cons, Hf, IH; [done| |by left].
  intros y Hy. apply Hf. by right.
Qed.

Lemma product_idle_l qs : product [idle] qs = qs.
Proof.
  unfold product. rewrite bind_singleton.
  induction qs as [|[ws cs] qs IH]; [done|].
  by rewrite bind_cons, IH.
Qed.

Lemma product_idle_r ps : product ps [idle] = ps.
Proof.
  unfold product. induction ps as [|[ws cs] ps IH]; [done|].
  rewrite bind_cons, IH, bind_singleton. unfold follow. cbn.
  by rewrite !app_nil_r.
Qed.

Lemma product_nil_r ps : product ps [] = [].
Proof. unfold product. by apply bind_none. Qed.

Section Paths.

Context (space : ascii -> bool) (cost : Fst -> list ascii -> option Q).
Context (punct_graph : Fst).

Lemma plain_pieces s cut :
  plain space cost punct_graph s -> cut ∈ splits s ->
  plain space cost punct_graph cut.1 /\ plain space cost punct_graph cut.2.
Proof.
  intros [Hspace Hpunct] Hcut%splits_app. destruct cut as [s1 s2].
  cbn [fst snd] in *. subst s.
  apply Forall_app in Hspace as [H1 H2].
  split; (split; [done|]); intros pre piece post ->.
  - apply (Hpunct pre piece (post ++ s2)%list). by rewrite <- !app_assoc.
  - apply (Hpunct (s1 ++ pre)%list piece post). by rewrite <- !app_assoc.
Qed.

Lemma plain_nil s : plain space cost punct_graph s -> plain space cost punct_graph [].
Proof.
  intros Hs. destruct (splits_last s) as (front & Hsplits & _).
  apply (plain_pieces s ([], s) Hs). rewrite Hsplits.
  apply elem_of_app. right. by apply list_elem_of_singleton.
Qed.

Lemma plain_not_space s :
  plain space cost punct_graph s -> s <> [] -> forallb space s = false.
Proof.
  intros [Hspace _] Hs. destruct s as [|c s]; [done|].
  apply Forall_cons in Hspace as [Hc _]. cbn. by rewrite Hc.
Qed.

Lemma paths_after_silent a b s :
  silent space cost punct_graph a -> plain space cost punct_graph s ->
  paths space cost (a +: b) s = paths space cost b s.
Proof.
  intros Ha Hs. cbn [paths].
  destruct (splits_last s) as (front & Hsplits & Hfront).
  rewrite Hsplits, bind_app, bind_singleton. cbn [fst snd].
  rewrite bind_none.
  - rewrite (Ha [] (plain_nil s Hs)). cbn. apply product_idle_l.
  - intros cut Hcut.
    rewrite (Ha cut.1), bool_decide_eq_false_2; [done|by apply Hfront|].
    apply (plain_pieces s cut Hs). rewrite Hsplits.
    apply elem_of_app. by left.
Qed.

Lemma paths_before_silent a b s :
  silent space cost punct_graph b -> plain space cost punct_graph s ->
  paths space cost (a +: b) s = paths space cost a s.
Proof.
  intros Hb Hs. cbn [paths].
  destruct (splits_first s) as (back & Hsplits & Hback).
  rewrite Hsplits, bind_cons. cbn [fst snd].
  rewrite (Hb [] (plain_nil s Hs)). cbn [bool_decide decide_rel].
  rewrite bind_none.
  - rewrite app_nil_r. rewrite bool_decide_eq_true_2 by done.
    apply product_idle_r.
  - intros cut Hcut.
    rewrite (Hb cut.2), bool_decide_eq_false_2;
      [apply product_nil_r|by apply Hback|].
    apply (plain_pieces s cut Hs). rewrite Hsplits. by right.
Qed.

Lemma dead_after_dead a b :
  dead space cost punct_graph a -> dead space cost punct_graph (a +: b).
Proof.
  intros Ha s Hs. cbn [paths]. apply bind_none. intros cut Hcut.
  by rewrite (Ha cut.1 (proj1 (plain_pieces s cut Hs Hcut))).
Qed.

Lemma star_dead step fuel s :
  (forall piece, plain space cost punct_graph piece -> step piece = []) ->
  plain space cost punct_graph s ->
  star step fuel s = if bool_decide (s = []) then [idle] else [].
Proof.
  intros Hstep Hs. destruct s as [|c s]; [by destruct fuel|].
  rewrite bool_decide_eq_false_2 by done.
  destruct fuel as [|fuel]; [done|]. cbn [star].
  apply bind_none. intros cut Hcut. case_bool_decide; [done|].
  by rewrite (Hstep cut.1 (proj1 (plain_pieces _ cut Hs Hcut))).
Qed.

Lemma silent_closure a :
  dead space cost punct_graph a -> silent space cost punct_graph (closure a).
Proof. intros Ha s Hs. cbn [paths]. by apply star_dead. Qed.

Lemma silent_insert x : silent space cost punct_graph (insert x).
Proof. by intros s Hs. Qed.

Lemma silent_delete_space : silent space cost punct_graph delete_space.
Proof.
  intros s Hs. cbn [paths]. case_bool_decide as Hnil; [by subst s|].
  by rewrite (plain_not_space s Hs Hnil).
Qed.

Lemma dead_delete_extra_space : dead space cost punct_graph delete_extra_space.
Proof.
  intros s Hs. cbn [paths]. case_bool_decide as Hnil; [done|].
  by rewrite (plain_not_space s Hs Hnil).
Qed.

Lemma dead_add_weight a w :
  dead space cost punct_graph a -> dead space cost punct_graph (add_weight a w).
Proof. intros Ha s Hs. cbn [paths]. by rewrite (Ha s Hs). Qed.

Lemma dead_punct_graph :
  is_leaf punct_graph = true -> dead space cost punct_graph punct_graph.
Proof.
  intros Hleaf s Hs. destruct punct_graph; try done.
  cbn [paths]. destruct Hs as [_ Hpunct].
  by rewrite (Hpunct [] s [] ltac:(by rewrite app_nil_r)).
Qed.

Lemma paths_optimize g s :
  paths space cost (optimize g) s = paths space cost g s.
Proof. done. Qed.

(** On a span that holds one token the sentence grammar has the paths of
    the alternation. *)
Lemma paths_sentence punct_weight separator classify s :
  is_leaf punct_graph = true ->
  dead space cost punct_graph separator ->
  plain space cost punct_graph s ->
  paths space cost (sentence punct_weight separator classify punct_graph) s
  = paths space cost classify s.
Proof.
  intros Hleaf Hsep Hs. unfold sentence. cbv zeta.
  rewrite paths_optimize.
  pose proof (silent_insert "tokens { ") as Hopen.
  pose proof (silent_insert " }") as Hclose.
  pose proof (silent_insert " ") as Hblank.
  assert (dead space cost punct_graph
            (insert "tokens { " +: add_weight punct_graph punct_weight
             +: insert " }")) as Hpunct.
  { intros piece Hpiece.
    rewrite (paths_before_silent _ _ _ Hclose Hpiece).
    rewrite (paths_after_silent _ _ _ Hopen Hpiece).
    apply (dead_add_weight _ _ (dead_punct_graph Hleaf) piece Hpiece). }
  assert (dead space cost punct_graph
            (insert " "
             +: (insert "tokens { " +: add_weight punct_graph punct_weight
                 +: insert " }"))) as Hafter.
  { intros piece Hpiece.
    rewrite (paths_after_silent _ _ _ Hblank Hpiece). by apply Hpunct. }
  rewrite (paths_before_silent _ _ _ silent_delete_space Hs).
  rewrite (paths_after_silent _ _ _ silent_delete_space Hs).
  rewrite (paths_before_silent _ _ _
             (silent_closure _ (dead_after_dead _ _ Hsep)) Hs).
  rewrite (paths_before_silent _ _ _ (silent_closure _ Hafter) Hs).
  rewrite (paths_after_silent _ _ _
             (silent_closure _ (dead_after_dead _ _ Hpunct)) Hs).
  rewrite (paths_before_silent _ _ _ Hclose Hs).
  by rewrite (paths_after_silent _ _ _ Hopen Hs).
Qed.

(** The paths of an alternation are the paths of its operands, each marked
    with the position of its operand. *)
Lemma paths_union_operands g s p :
  p ∈ match g with
      | union _ _ => paths space cost g s
      | _ => through 0 <$> paths space cost g s
      end
  <-> exists i o q,
        union_operands g !! i = Some o /\ q ∈ paths space cost o s /\
        p = through i q.
Proof.
  assert (forall g', union_operands g' = [g'] ->
            p ∈ through 0 <$> paths space cost g' s
            <-> exists i o q,
                  union_operands g' !! i = Some o /\
                  q ∈ paths space cost o s /\ p = through i q) as Hone.
  { intros g' ->. rewrite list_elem_of_fmap. split.
    - intros (q & -> & Hq). by exists 0, g', q.
    - intros (i & o & q & Hi & Hq & ->).
      apply list_lookup_singleton_Some in Hi as [-> ->]. by exists q. }
  induction g as [| | | | | | a IHa b _ | | |]; try by apply Hone.
  cbn [paths union_operands]. rewrite elem_of_app, IHa, list_elem_of_fmap.
  split.
  - intros [(i & o & q & Hi & Hq & ->)|(q & -> & Hq)].
    + exists i, o, q. split; [|done]. by apply lookup_app_l_Some.
    + exists (length (union_operands a)), b, q. split; [|done].
      by rewrite lookup_app_r, Nat.sub_diag.
  - intros (i & o & q & Hi & Hq & ->).
    apply lookup_app_Some in Hi as [Hi|[Hle Hi]].
    + left. by exists i, o, q.
    + right. apply list_lookup_singleton_Some in Hi as [Hi ->].
      exists q. split; [|done]. f_equal. lia.
Qed.

End Paths.

(** The order in which the pass prefers paths. *)
Lemma earlier_cons i l1 j l2 :
  earlier (i :: l1) (j :: l2) = false <-> j < i \/ (i = j /\ earlier l1 l2 = false).
Proof.
  cbn [earlier]. rewrite orb_false_iff, andb_false_iff.
  rewrite Nat.ltb_ge, Nat.eqb_neq. split.
  - intros [Hle [Hne|He]]; [left; lia|].
    destruct (decide (i = j)); [by right|left; lia].
  - intros [Hlt|[-> He]]; (split; [lia|]); [left; lia|by right].
Qed.

Lemma earlier_irrefl l : earlier l l = false.
Proof.
  induction l as [|i l IH]; [done|]. apply earlier_cons. by right.
Qed.

Lemma earlier_asym l1 l2 : earlier l1 l2 = true -> earlier l2 l1 = false.
Proof.
  revert l2. induction l1 as [|i l1 IH]; intros [|j l2]; try done.
  cbn [earlier]. rewrite orb_true_iff, andb_true_iff.
  rewrite Nat.ltb_lt, Nat.eqb_eq. intros [Hlt|[-> He]]; apply earlier_cons.
  - by left.
  - right. split; [done|]. by apply IH.
Qed.

Lemma earlier_trans l1 l2 l3 :
  earlier l1 l2 = false -> earlier l2 l3 = false -> earlier l1 l3 = false.
Proof.
  revert l2 l3. induction l1 as [|i l1 IH]; intros [|j l2] [|k l3]; try done.
  rewrite !earlier_cons. intros [?|[-> H12]] [?|[-> H23]].
  - left; lia.
  - by left.
  - by left.
  - right. split; [done|]. by apply (IH l2).
Qed.

Lemma better_false p q :
  better p q = false
  <-> (total_weight q < total_weight p)%Q \/
      ((total_weight p == total_weight q)%Q /\
       earlier (positions p) (positions q) = false).
Proof.
  unfold better. destruct (Qeq_bool (total_weight p) (total_weight q)) eqn:Heq.
  - apply Qeq_bool_iff in Heq. split; [by right|].
    intros [Hlt|[_ He]]; [lra|done].
  - apply Qeq_bool_neq in Heq. split.
    + intros Hle. left.
      assert (~ (total_weight p <= total_weight q)%Q)
        by (rewrite <- Qle_bool_iff; congruence).
      lra.
    + intros [Hlt|[He _]]; [|done].
      destruct (Qle_bool (total_weight p) (total_weight q)) eqn:Hle; [|done].
      apply Qle_bool_iff in Hle. lra.
Qed.

Lemma better_true p q :
  better p q = true
  <-> (total_weight p < total_weight q)%Q \/
      ((total_weight p == total_weight q)%Q /\
       earlier (positions p) (positions q) = true).
Proof.
  unfold better. destruct (Qeq_bool (total_weight p) (total_weight q)) eqn:Heq.
  - apply Qeq_bool_iff in Heq. split; [by right|].
    intros [Hlt|[_ He]]; [lra|done].
  - apply Qeq_bool_neq in Heq. rewrite Qle_bool_iff. split.
    + intros Hle. left. lra.
    + intros [Hlt|[He _]]; [lra|done].
Qed.

Lemma better_irrefl p : better p p = false.
Proof. apply better_false. right. split; [lra|apply earlier_irrefl]. Qed.

Lemma better_asym p q : better p q = true -> better q p = false.
Proof.
  rewrite better_true, better_false. intros [Hlt|[Heq He]]; [by left|].
  right. split; [lra|]. by apply earlier_asym.
Qed.

Lemma better_trans p q r :
  better p q = false -> better q r = false -> better p r = false.
Proof.
  rewrite !better_false.
  intros [Hpq|[Hpq Epq]] [Hqr|[Hqr Eqr]]; try (left; lra).
  right. split; [lra|]. by apply (earlier_trans _ (positions q)).
Qed.

(** The scan returns one of the paths, and none of them is better. *)
Lemma scan_spec ps : forall best b,
  scan best ps = Some b ->
  (forall b0, best = Some b0 -> better b0 b = false) /\
  (forall p, p ∈ ps -> better p b = false) /\
  (best = Some b \/ b ∈ ps).
Proof.
  induction ps as [|p ps IH]; intros best b Hscan; cbn [scan] in Hscan.
  - subst best. split; [|split]; [|by intros p ?%elem_of_nil|by left].
    intros b0 [= ->]. apply better_irrefl.
  - apply IH in Hscan as (Hbest & Hrest & Hin).
    destruct best as [b0|].
    + destruct (better p b0) eqn:Hp.
      * pose proof (Hbest p eq_refl) as Hpb.
        split; [|split].
        -- intros ? [= <-]. by apply (better_trans _ p); [apply better_asym|].
        -- intros q [->|Hq]%elem_of_cons; [done|by apply Hrest].
        -- right. destruct Hin as [[= ->]|Hin]; [by left|by right].
      * pose proof (Hbest b0 eq_refl) as Hb0.
        split; [|split].
        -- by intros ? [= <-].
        -- intros q [->|Hq]%elem_of_cons; [|by apply Hrest].
           by apply (better_trans _ b0).
        -- destruct Hin as [Hin|Hin]; [by left|right; by right].
    + split; [done|split].
      * intros q [->|Hq]%elem_of_cons; [by apply Hbest|by apply Hrest].
      * right. destruct Hin as [[= ->]|Hin]; [by left|by right].
Qed.

Lemma scan_is_Some ps best : is_Some best -> is_Some (scan best ps).
Proof.
  revert best. induction ps as [|p ps IH]; intros best Hbest; [done|].
  cbn [scan]. apply IH. destruct Hbest as [b ->]. by destruct (better p b).
Qed.

Lemma scan_None ps : is_Some (scan None ps) <-> ps <> [].
Proof.
  destruct ps as [|p ps]; cbn [scan].
  - split; [by intros [? ?]|done].
  - split; [done|]. intros _. by apply scan_is_Some.
Qed.

Lemma shortest_path_cheapest_then_earliest space cost g s :
  cheapest_then_earliest space cost g s.
Proof.
  intros winner Hscan. unfold shortest_path in Hscan.
  apply scan_spec in Hscan as (_ & Hbest & [?|Hwin]); [done|].
  split; [done|]. intros p Hp.
  destruct (proj1 (better_false p winner) (Hbest p Hp)) as [Hlt|[Heq He]].
  - split; [lra|]. intros Heq. lra.
  - split; [lra|done].
Qed.

Section Ties.

Context (space : ascii -> bool) (cost : Fst -> list ascii -> option Q).

(** The operand of a class has one path at most, and the path passes no
    alternation. *)
Lemma paths_shifted g w s :
  is_leaf g = true ->
  paths space cost (add_weight g w) s = [] \/
  exists c, paths space cost (add_weight g w) s = [mkPath [w; c] []].
Proof.
  intros Hleaf. destruct g; try done; cbn [paths]; [by left|].
  destruct (cost _ s) as [c|]; [right; by exists c|by left].
Qed.

Lemma ties_of_alternation g a b operands s :
  paths space cost g s = paths space cost (union a b) s ->
  union_operands (union a b) = operands ->
  Forall (fun o => exists g0 w, o = add_weight g0 w /\ is_leaf g0 = true)
    operands ->
  ties_go_to_the_earlier space cost g operands s.
Proof.
  intros Hpaths <- Hleaves.
  assert (forall p, p ∈ paths space cost g s
            <-> exists i o q,
                  union_operands (union a b) !! i = Some o /\
                  q ∈ paths space cost o s /\ p = through i q) as Hin.
  { intros p. rewrite Hpaths.
    apply (paths_union_operands space cost (union a b) s p). }
  assert (forall i o q,
            union_operands (union a b) !! i = Some o ->
            q ∈ paths space cost o s ->
            paths space cost o s = [q] /\ positions q = []) as Hone.
  { intros i o q Hi Hq.
    rewrite Forall_forall in Hleaves.
    destruct (Hleaves o (list_elem_of_lookup_2 _ _ _ Hi))
      as (g0 & w & -> & Hleaf).
    destruct (paths_shifted g0 w s Hleaf) as [Hnone|[c Hc]].
    - rewrite Hnone in Hq. by apply elem_of_nil in Hq.
    - rewrite Hc in Hq |- *. by apply list_elem_of_singleton in Hq as ->. }
  unfold ties_go_to_the_earlier, shortest_path. split.
  - rewrite scan_None. split.
    + intros Hne. destruct (paths space cost g s) as [|p ps] eqn:Hg; [done|].
      destruct (proj1 (Hin p) ltac:(by left)) as (i & o & q & Hi & Hq & _).
      exists o. split; [by eapply list_elem_of_lookup_2|].
      apply scan_None. intros Hnil. rewrite Hnil in Hq.
      by apply elem_of_nil in Hq.
    + intros (o & [i Hi]%list_elem_of_lookup_1 & Ho%scan_None) Hnil.
      destruct (paths space cost o s) as [|q qs] eqn:Hq; [done|].
      assert (through i q ∈ paths space cost g s) as Hp.
      { apply Hin. exists i, o, q. split; [done|]. split; [|done].
        rewrite Hq. by left. }
      rewrite Hnil in Hp. by apply elem_of_nil in Hp.
  - intros winner Hscan.
    apply scan_spec in Hscan as (_ & Hbest & [?|Hwin]); [done|].
    apply Hin in Hwin as (i & o & p & Hi & Hp & ->).
    destruct (Hone i o p Hi Hp) as [Hpaths_o Hclasses].
    exists i, o, p. cbn [positions arcs through]. rewrite Hclasses, Hpaths_o.
    do 4 (split; [done|]).
    intros j other q Hj Hq.
    apply scan_spec in Hq as (_ & _ & [?|Hq]); [done|].
    assert (better (through j q) (through i p) = false) as Hnot.
    { apply Hbest, Hin. by exists j, other, q. }
    apply better_false in Hnot.
    change (total_weight (through j q)) with (total_weight q) in Hnot.
    change (total_weight (through i p)) with (total_weight p) in Hnot |- *.
    cbn [positions through] in Hnot.
    destruct Hnot as [Hlt|[Heq He]].
    + split; [lra|]. intros Heq. lra.
    + split; [lra|]. intros _.
      apply earlier_cons in He as [?|[-> _]]; lia.
Qed.

End Ties.

Lemma leaf_operands excluded graphs d (l : list string) :
  Forall (fun c => is_leaf (dict_get_default c empty_fst graphs) = true) l ->
  Forall (fun o => exists g0 w, o = add_weight g0 w /\ is_leaf g0 = true)
    (map (shifted excluded graphs d) l).
Proof.
  induction 1 as [|c l Hc _ IH]; constructor; [|done].
  unfold shifted. eexists _, _. split; [done|].
  by destruct (dict_get_default c false excluded).
Qed.

Lemma En_class_graphs_leaves :
  Forall (fun c => is_leaf (dict_get_default c empty_fst En.class_graphs) = true)
    union_order.
Proof. by repeat constructor. Qed.

Lemma Ru_class_graphs_leaves tn :
  Forall (fun c => is_leaf (dict_get_default c empty_fst (Ru.class_graphs tn))
                   = true)
    union_order.
Proof. by repeat constructor. Qed.

Lemma ties_of_built space cost punct_weight separator excluded graphs d
    punct_graph s :
  is_leaf punct_graph = true ->
  dead space cost punct_graph separator ->
  Forall (fun c => is_leaf (dict_get_default c empty_fst graphs) = true)
    union_order ->
  plain space cost punct_graph s ->
  ties_go_to_the_earlier space cost
    (sentence punct_weight separator
       (unions (map (shifted excluded graphs d) union_order)) punct_graph)
    (map (shifted excluded graphs d) union_order) s.
Proof.
  intros Hpunct Hsep Hleaves Hs.
  eapply (ties_of_alternation space cost _ _ _ _ s).
  - rewrite (paths_sentence space cost punct_graph _ _ _ s Hpunct Hsep Hs).
    reflexivity.
  - reflexivity.
  - by apply leaf_operands.
Qed.

(** C2.  In the grammar that either constructor builds, the alternation
    inside the token lists the class grammars, each filtered and shifted by
    its weight, in exactly the order whitelist, time, date, decimal,
    measure, cardinal, ordinal, money, telephone, electronic, word.  On a
    span that holds one token, the shortest-path pass on the grammar built
    returns a path through one of these operands, of minimum total weight;
    of the operands that read the span at exactly this total weight it
    takes the one listed first.  On any text, the path it returns has the
    minimum total weight, and of two paths of exactly equal total weight it
    takes the one with the earlier operand where they first differ. *)
Theorem alternation_order_breaks_ties cd ow ex cw w :
  valid_ref w cw -> usable w cd ->
  let excluded := default [] ex in
  let caller_weights := weights_of w cw in
  let order :=
    [ "whitelist"; "time"; "date"; "decimal"; "measure"; "cardinal";
      "ordinal"; "money"; "telephone"; "electronic"; "word" ] in
  (builds "_en_itn.far" cd ow w ->
   exists classify,
     (En.ClassifyFst_init cd ow ex cw w).1
     = Ok (self_of (sentence 1.1 delete_extra_space classify En.punct_graph)) /\
     union_operands classify
     = map (shifted excluded En.class_graphs caller_weights) order /\
     forall space cost s,
       plain space cost En.punct_graph s ->
       ties_go_to_the_earlier space cost
         (sentence 1.1 delete_extra_space classify En.punct_graph)
         (union_operands classify) s /\
       forall text,
         cheapest_then_earliest space cost
           (sentence 1.1 delete_extra_space classify En.punct_graph) text) /\
  (builds "_ru_itn.far" cd ow w ->
   exists classify,
     (Ru.ClassifyFst_init cd ow ex cw w).1
     = Ok (self_of (sentence 1.1 (add_weight delete_extra_space 1.1) classify
                      Ru.punct_graph)) /\
     union_operands classify
     = map (shifted excluded (Ru.class_graphs (TN.with_fst TN.built_fst))
              caller_weights) order /\
     forall space cost s,
       plain space cost Ru.punct_graph s ->
       ties_go_to_the_earlier space cost
         (sentence 1.1 (add_weight delete_extra_space 1.1) classify
            Ru.punct_graph)
         (union_operands classify) s /\
       forall text,
         cheapest_then_earliest space cost
           (sentence 1.1 (add_weight delete_extra_space 1.1) classify
              Ru.punct_graph) text).
Proof.
  intros Hv Hu excluded caller_weights order. split; intros Hb.
  - exists (unions (map (shifted excluded En.class_graphs caller_weights)
                      union_order)).
    rewrite (En_init_builds cd ow ex cw w Hv Hu Hb).
    rewrite union_operands_alternation.
    split; [reflexivity|]. split; [reflexivity|].
    intros space cost s Hs.
    split; [|intros text; apply shortest_path_cheapest_then_earliest].
    apply ties_of_built;
      [reflexivity|apply dead_delete_extra_space
      |apply En_class_graphs_leaves|exact Hs].
  - exists (unions (map (shifted excluded
                           (Ru.class_graphs (TN.with_fst TN.built_fst))
                           caller_weights) union_order)).
    rewrite (Ru_init_builds cd ow ex cw w Hv Hu Hb).
    rewrite union_operands_alternation.
    split; [reflexivity|]. split; [reflexivity|].
    intros space cost s Hs.
    split; [|intros text; apply shortest_path_cheapest_then_earliest].
    apply ties_of_built;
      [reflexivity|apply dead_add_weight, dead_delete_extra_space
      |apply Ru_class_graphs_leaves|exact Hs].
Qed.

Lemma alternation_order_breaks_ties_witness :
  let g := sentence 1.1 delete_extra_space (En_alternation [] []) En.punct_graph in
  (En.ClassifyFst_init None false None None fresh_world).1 = Ok (self_of g) /\
  union_operands (En_alternation [] []) !! 5
  = Some (add_weight (Grammar "en.CardinalFst" []) 1.1%Q) /\
  union_operands (En_alternation [] []) !! 6
  = Some (add_weight (Grammar "en.OrdinalFst" [Grammar "en.CardinalFst" []])
            1.1%Q) /\
  shortest_path is_blank cardinal_or_ordinal g ["1"%char]
  = Some (mkPath [1.1%Q; 1%Q] [5]) /\
  shortest_path is_blank cardinal_or_ordinal
    (add_weight (Grammar "en.OrdinalFst" [Grammar "en.CardinalFst" []]) 1.1%Q)
    ["1"%char]
  = Some (mkPath [1.1%Q; 1%Q] []) /\
  5 <= 6.
Proof.
  intros g.
  destruct (proj1 (alternation_order_breaks_ties None false None None
                     fresh_world I I)
              (or_intror I))
    as (classify & Hinit & Hoperands & Hties).
  assert (classify = En_alternation [] []) as ->.
  { assert ((En.ClassifyFst_init None false None None fresh_world).1
            = Ok (self_of g)) as Hrun by (vm_compute; reflexivity).
    rewrite Hrun in Hinit. by injection Hinit. }
  assert (plain is_blank cardinal_or_ordinal En.punct_graph ["1"%char])
    as Hplain.
  { split; [by repeat constructor|]. intros; reflexivity. }
  destruct (Hties is_blank cardinal_or_ordinal ["1"%char] Hplain)
    as [[_ Hwinner] _].
  assert (shortest_path is_blank cardinal_or_ordinal g ["1"%char]
          = Some (mkPath [1.1%Q; 1%Q] [5])) as Hbest
    by (vm_compute; reflexivity).
  destruct (Hwinner _ Hbest) as (i & operand & p & Hi & _ & _ & _ & Hothers).
  injection Hi as <-.
  split; [exact Hinit|]. split; [reflexivity|]. split; [reflexivity|].
  split; [exact Hbest|]. split; [vm_compute; reflexivity|].
  apply (Hothers 6
           (add_weight (Grammar "en.OrdinalFst" [Grammar "en.CardinalFst" []])
              1.1%Q)
           (mkPath [1.1%Q; 1%Q] [])); vm_compute; reflexivity.
Defined.

(** ** The outcome depends on the entries of the known classes only *)

Lemma dict_get_known_entries {V} (c : string) (d : dict V) :
  dict_get c (known_entries d) = if str_in c classes then dict_get c d else None.
Proof.
  unfold known_entries. induction d as [|[k v] d IH]; cbn [List.filter dict_get fst].
  - by destruct (str_in c classes).
  - destruct (str_in k classes) eqn:Hk; cbn [dict_get]; rewrite IH;
      destruct (String.eqb c k) eqn:E; try done.
    + apply String.eqb_eq in E as ->. by rewrite Hk.
    + apply String.eqb_eq in E as ->. by rewrite Hk.
Qed.

Lemma shifted_known_entries excluded graphs d c :
  str_in c classes = true ->
  shifted (known_entries excluded) graphs (known_entries d) c
  = shifted excluded graphs d c.
Proof.
  intros Hc. unfold shifted, effective_weight, dict_get_default.
  by rewrite !dict_get_known_entries, Hc.
Qed.

Lemma alternation_known_entries excluded graphs d :
  map (shifted (known_entries excluded) graphs (known_entries d)) union_order
  = map (shifted excluded graphs d) union_order.
Proof.
  apply map_ext_Forall.
  assert (Hcls : Forall (fun c => str_in c classes = true) union_order)
    by (repeat constructor).
  eapply Forall_impl; [exact Hcls|].
  intros c Hc. by apply shifted_known_entries.
Qed.

Lemma En_built_known_entries excluded d :
  En_built (known_entries excluded) (known_entries d) = En_built excluded d.
Proof. unfold En_built. by rewrite alternation_known_entries. Qed.

Lemma Ru_built_known_entries excluded d :
  Ru_built (known_entries excluded) (known_entries d) = Ru_built excluded d.
Proof. unfold Ru_built. by rewrite alternation_known_entries. Qed.

Lemma cache_hit_ext ow far cd w w' :
  files w = files w' -> dirs w = dirs w' ->
  cache_hit ow far (with_cache_dir cd w) = cache_hit ow far (with_cache_dir cd w').
Proof.
  intros Hfiles Hdirs. unfold cache_hit, exists_at.
  by rewrite !files_with_cache_dir, !dirs_with_cache_dir, Hfiles, Hdirs.
Qed.

Lemma files_saved_ext far g w w' :
  files w = files w' -> files (saved far g w) = files (saved far g w').
Proof.
  intros Hfiles. unfold saved. destruct far as [path|]; [|done].
  destruct (truthy (Some path)); [|done]. cbn [files]. by rewrite Hfiles.
Qed.

Lemma files_tn_rebuilt_ext cd w w' :
  files w = files w' -> files (tn_rebuilt cd w) = files (tn_rebuilt cd w').
Proof.
  intros Hfiles. unfold tn_rebuilt.
  destruct (far_file_of cd "_ru_tn.far"); cbn [files];
    rewrite !files_with_cache_dir; cbn [files log_to]; by rewrite Hfiles.
Qed.

Lemma En_load_or_build_ext cd ow ex ex' l w w' d d' :
  files w = files w' -> dirs w = dirs w' ->
  heap w !! l = Some (filled d) -> heap w' !! l = Some (filled d') ->
  En_built ex d = En_built ex' d' ->
  (En.load_or_build cd ow ex l w).1 = (En.load_or_build cd ow ex' l w').1 /\
  files (En.load_or_build cd ow ex l w).2
  = files (En.load_or_build cd ow ex' l w').2.
Proof.
  intros Hfiles Hdirs Hl Hl' Hbuilt.
  destruct (usable_dec w cd) as [Hu|Hu].
  - assert (Hu' : usable w' cd) by (by eapply usable_files).
    rewrite !En_load_or_build_run by done.
    assert (Hfiles' : files (with_cache_dir cd w) = files (with_cache_dir cd w'))
      by (by rewrite !files_with_cache_dir).
    assert (Hbuild : forall far,
      (En.build ex l far (with_cache_dir cd w)).1
      = (En.build ex' l far (with_cache_dir cd w')).1 /\
      files (En.build ex l far (with_cache_dir cd w)).2
      = files (En.build ex' l far (with_cache_dir cd w')).2).
    { intros far.
      rewrite (En_build_run ex l far _ d), (En_build_run ex' l far _ d')
        by (by rewrite heap_with_cache_dir).
      cbn [fst snd]. rewrite Hbuilt. split; [done|].
      by apply files_saved_ext. }
    destruct (far_file_of cd "_en_itn.far") as [path|]; [|by apply Hbuild].
    rewrite (cache_hit_ext ow (Some path) cd w w') by done.
    destruct (cache_hit ow (Some path) (with_cache_dir cd w')); [|by apply Hbuild].
    split; [by apply restore_ext|].
    destruct (restore_frame path (with_cache_dir cd w)) as (_ & -> & _).
    by destruct (restore_frame path (with_cache_dir cd w')) as (_ & -> & _).
  - destruct (cache_far_file_unusable cd "_en_itn.far" w Hu) as [e He].
    unfold En.load_or_build.
    rewrite (bind_raise _ _ w e w) by (by apply He).
    by rewrite (bind_raise _ _ w' e w') by (by apply He).
Qed.

Lemma Ru_load_or_build_ext cd ow ex ex' l w w' d d' :
  files w = files w' -> dirs w = dirs w' ->
  heap w !! l = Some (filled d) -> heap w' !! l = Some (filled d') ->
  Ru_built ex d = Ru_built ex' d' ->
  (Ru.load_or_build cd ow ex l w).1 = (Ru.load_or_build cd ow ex' l w').1 /\
  files (Ru.load_or_build cd ow ex l w).2
  = files (Ru.load_or_build cd ow ex' l w').2.
Proof.
  intros Hfiles Hdirs Hl Hl' Hbuilt.
  destruct (usable_dec w cd) as [Hu|Hu].
  - assert (Hu' : usable w' cd) by (by eapply usable_files).
    rewrite !Ru_load_or_build_run by done.
    assert (Hfiles' : files (with_cache_dir cd w) = files (with_cache_dir cd w'))
      by (by rewrite !files_with_cache_dir).
    assert (Hbuild : forall far,
      (Ru.build cd ex l far (with_cache_dir cd w)).1
      = (Ru.build cd ex' l far (with_cache_dir cd w')).1 /\
      files (Ru.build cd ex l far (with_cache_dir cd w)).2
      = files (Ru.build cd ex' l far (with_cache_dir cd w')).2).
    { intros far.
      rewrite (Ru_build_run cd ex l far _ d), (Ru_build_run cd ex' l far _ d');
        [|by rewrite heap_with_cache_dir
         |eapply usable_files; [|exact Hu']; by rewrite files_with_cache_dir
         |by rewrite heap_with_cache_dir
         |eapply usable_files; [|exact Hu]; by rewrite files_with_cache_dir].
      cbn [fst snd]. rewrite Hbuilt. split; [done|].
      by apply files_saved_ext, files_tn_rebuilt_ext. }
    destruct (far_file_of cd "_ru_itn.far") as [path|]; [|by apply Hbuild].
    rewrite (cache_hit_ext ow (Some path) cd w w') by done.
    destruct (cache_hit ow (Some path) (with_cache_dir cd w')); [|by apply Hbuild].
    split; [by apply restore_ext|].
    destruct (restore_frame path (with_cache_dir cd w)) as (_ & -> & _).
    by destruct (restore_frame path (with_cache_dir cd w')) as (_ & -> & _).
  - destruct (cache_far_file_unusable cd "_ru_itn.far" w Hu) as [e He].
    unfold Ru.load_or_build.
    rewrite (bind_raise _ _ w e w) by (by apply He).
    by rewrite (bind_raise _ _ w' e w') by (by apply He).
Qed.

Lemma usable_cache_off w cd : cache_on cd = false -> usable w cd.
Proof.
  unfold cache_on, usable. destruct cd as [dir|]; [|done].
  destruct (String.eqb dir "None"); [done|]. done.
Qed.

Lemma builds_cache_off n cd ow w : cache_on cd = false -> builds n cd ow w.
Proof.
  unfold cache_on, builds, far_file_of. intros Hoff. right.
  destruct cd as [dir|]; [|done]. by rewrite Hoff.
Qed.

(** C7.  A key of [excluded_classes] or of [class_weights] that is not one
    of the eleven class names is reported in the log and otherwise ignored:
    the outcome of the construction (the grammar returned, or the error of
    the cache that ends it) and the files it leaves are those of the
    construction from the same dictionaries without the unknown keys, so an
    unknown key never makes the construction fail; with the cache off the
    constructor always returns a grammar. *)
Theorem unknown_keys_are_reported_and_ignored cd ow ex l w d :
  heap w !! l = Some d ->
  let cleaned := without_unknown_keys l d w in
  let en := En.ClassifyFst_init cd ow (Some ex) (Some l) w in
  let en' := En.ClassifyFst_init cd ow (Some (known_entries ex)) (Some l) cleaned in
  let ru := Ru.ClassifyFst_init cd ow (Some ex) (Some l) w in
  let ru' := Ru.ClassifyFst_init cd ow (Some (known_entries ex)) (Some l) cleaned in
  (en.1 = en'.1 /\ files en.2 = files en'.2) /\
  (ru.1 = ru'.1 /\ files ru.2 = files ru'.2) /\
  (forall k, k ∈ dict_keys ex -> k ∉ classes ->
     excluded_diagnostic k ∈ trace en.2 /\ excluded_diagnostic k ∈ trace ru.2) /\
  (forall k, k ∈ dict_keys d -> k ∉ classes ->
     weight_diagnostic k ∈ trace en.2 /\ weight_diagnostic k ∈ trace ru.2) /\
  (cache_on cd = false -> (exists g, en.1 = Ok g) /\ (exists g, ru.1 = Ok g)).
Proof.
  intros Hl cleaned en en' ru ru'.
  assert (Hv : valid_ref w (Some l)) by (by eapply lookup_lt_Some).
  assert (Hl' : heap cleaned !! l = Some (known_entries d)).
  { cbn [heap cleaned without_unknown_keys]. by apply list_lookup_insert_eq. }
  assert (Hv' : valid_ref cleaned (Some l)) by (by eapply lookup_lt_Some).
  assert (Hw : weights_of w (Some l) = d) by (cbn [weights_of]; by rewrite Hl).
  assert (Hw' : weights_of cleaned (Some l) = known_entries d)
    by (cbn [weights_of]; by rewrite Hl').
  assert (Hc : forall e, heap (configured e (Some l) w) !! l = Some (filled d)).
  { intros e. rewrite <- Hw. by apply (configured_lookup e (Some l)). }
  assert (Hc' : forall e,
    heap (configured e (Some l) cleaned) !! l = Some (filled (known_entries d))).
  { intros e. rewrite <- Hw'. by apply (configured_lookup e (Some l)). }
  split; [|split; [|split; [|split]]].
  - subst en en'. rewrite !En_init_unfold by done.
    apply (En_load_or_build_ext cd ow _ _ _ _ _ d (known_entries d));
      [done|done|apply Hc|apply Hc'|symmetry; apply En_built_known_entries].
  - subst ru ru'. rewrite !Ru_init_unfold by done.
    apply (Ru_load_or_build_ext cd ow _ _ _ _ _ d (known_entries d));
      [done|done|apply Hc|apply Hc'|symmetry; apply Ru_built_known_entries].
  - intros k Hk Hnot.
    assert (Hu : k ∈ unknown_keys (default [] (Some ex))).
    { apply unknown_keys_spec. split.
      - by rewrite <- dict_get_keys, str_in_elem_of.
      - apply not_true_is_false. by rewrite str_in_elem_of. }
    subst en ru.
    destruct (En_init_frame cd ow (Some ex) (Some l) w Hv) as (_ & events & ->).
    destruct (Ru_init_frame cd ow (Some ex) (Some l) w Hv) as (_ & events' & ->).
    split; apply elem_of_app; left; by apply excluded_diagnostic_logged.
  - intros k Hk Hnot.
    assert (Hu : k ∈ unknown_keys (weights_of w (Some l))).
    { rewrite Hw. apply unknown_keys_spec. split.
      - by rewrite <- dict_get_keys, str_in_elem_of.
      - apply not_true_is_false. by rewrite str_in_elem_of. }
    subst en ru.
    destruct (En_init_frame cd ow (Some ex) (Some l) w Hv) as (_ & events & ->).
    destruct (Ru_init_frame cd ow (Some ex) (Some l) w Hv) as (_ & events' & ->).
    split; apply elem_of_app; left; by apply weight_diagnostic_logged.
  - intros Hoff. subst en ru.
    rewrite En_init_builds, Ru_init_builds
      by first [done | by apply usable_cache_off | by apply builds_cache_off].
    split; by eexists.
Qed.

Lemma unknown_keys_are_reported_and_ignored_witness :
  let d := [("cardinal", 1.01%Q); ("verb", 2%Q)] in
  let ex := [("noun", true); ("ordinal", true)] in
  let w := world_with_dict d in
  heap w !! 0 = Some d /\
  "noun" ∈ dict_keys ex /\ ("noun" ∉ classes) /\
  "verb" ∈ dict_keys d /\ ("verb" ∉ classes) /\
  cache_on None = false /\
  (En.ClassifyFst_init None false (Some ex) (Some 0) w).1
  = (En.ClassifyFst_init None false (Some [("ordinal", true)]) (Some 0)
       (world_with_dict [("cardinal", 1.01%Q)])).1 /\
  excluded_diagnostic "noun"
    ∈ trace (En.ClassifyFst_init None false (Some ex) (Some 0) w).2 /\
  weight_diagnostic "verb"
    ∈ trace (Ru.ClassifyFst_init None false (Some ex) (Some 0) w).2 /\
  (exists g, (Ru.ClassifyFst_init None false (Some ex) (Some 0) w).1 = Ok g).
Proof.
  intros d ex w.
  assert (Hnoun : "noun" ∈ dict_keys ex) by (by apply str_in_elem_of).
  assert (Hverb : "verb" ∈ dict_keys d) by (by apply str_in_elem_of).
  assert (Hnoun' : "noun" ∉ classes).
  { rewrite <- str_in_elem_of. vm_compute. discriminate. }
  assert (Hverb' : "verb" ∉ classes).
  { rewrite <- str_in_elem_of. vm_compute. discriminate. }
  pose proof (unknown_keys_are_reported_and_ignored None false ex 0 w d eq_refl)
    as ([Hen _] & _ & Hex & Hcw & Hok).
  split; [reflexivity|]. split; [exact Hnoun|]. split; [exact Hnoun'|].
  split; [exact Hverb|]. split; [exact Hverb'|]. split; [reflexivity|].
  split; [exact Hen|].
  split; [exact (proj1 (Hex "noun" Hnoun Hnoun'))|].
  split; [exact (proj2 (Hcw "verb" Hverb Hverb'))|].
  exact (proj2 (Hok eq_refl)).
Defined.

(** * Further properties of the constructors *)

(** ** The cache directory stays usable *)

Lemma usable_saved cd n g w :
  n <> "" -> usable w cd -> usable (saved (far_file_of cd n) g w) cd.
Proof.
  intros Hn. unfold usable, saved, far_file_of.
  destruct cd as [dir|]; [|done].
  destruct (String.eqb dir "None"); cbn [negb]; [done|].
  intros Hu _. destruct (Hu eq_refl) as [Hdir Hfile]. split; [done|].
  destruct (truthy (Some (os_path_join dir n))); [|done]. cbn [files].
  rewrite lookup_insert_ne; [done|]. by apply os_path_join_neq_dir.
Qed.

Lemma usable_tn_rebuilt cd w : usable w cd -> usable (tn_rebuilt cd w) cd.
Proof.
  unfold usable, tn_rebuilt, far_file_of.
  destruct cd as [dir|]; [|done].
  destruct (String.eqb dir "None") eqn:E; cbn [negb]; [done|].
  intros Hu _. destruct (Hu eq_refl) as [Hdir Hfile]. split; [done|].
  cbn [files]. rewrite lookup_insert_ne by (by apply os_path_join_neq_dir).
  by rewrite files_with_cache_dir.
Qed.

(** X1.  What a construction stores, a later construction restores: after
    a call that builds with a cache directory, a call with the same
    [cache_dir] and [overwrite_cache=False] returns the very grammar the
    first call returned, whatever [excluded_classes] and [class_weights] the
    later call is given.  The archive is written by [generator_main], which
    is embedded as the specification describes it. *)
Theorem stored_grammar_is_restored cd ow ex cw ex' cw' w :
  valid_ref w cw -> usable w cd -> cache_on cd = true ->
  (builds "_en_itn.far" cd ow w ->
   let first := En.ClassifyFst_init cd ow ex cw w in
   valid_ref first.2 cw' ->
   (exists g, first.1 = Ok g) /\
   (En.ClassifyFst_init cd false ex' cw' first.2).1 = first.1) /\
  (builds "_ru_itn.far" cd ow w ->
   let first := Ru.ClassifyFst_init cd ow ex cw w in
   valid_ref first.2 cw' ->
   (exists g, first.1 = Ok g) /\
   (Ru.ClassifyFst_init cd false ex' cw' first.2).1 = first.1).
Proof.
  intros Hv Hu Hon.
  assert (Hfar : forall n, exists path, far_file_of cd n = Some path).
  { intros n. unfold far_file_of, cache_on in *. destruct cd as [dir|]; [|done].
    rewrite Hon. by eexists. }
  split; intros Hb first; subst first.
  - destruct (Hfar "_en_itn.far") as [path Hpath].
    rewrite En_init_builds by done. cbn [fst snd]. intros Hv'.
    split; [by eexists|].
    match goal with
    | |- context [saved ?far ?g ?w0] => set (stored := saved far g w0)
    end.
    assert (Hu' : usable stored cd).
    { subst stored. apply usable_saved; [done|].
      eapply usable_files; [|exact Hu]. cbn [files log_to].
      by rewrite files_En_ready. }
    assert (Hfile : files stored !! path
                    = Some (FarArchive [("tokenize_and_classify",
                        En_built (default [] ex) (weights_of w cw))])).
    { subst stored. rewrite Hpath. by apply (files_saved cd "_en_itn.far"). }
    rewrite (En_init_hit cd false ex' cw' stored path); [|done..|];
      [|by eapply (hit_of_present "_en_itn.far" cd stored)].
    rewrite (restore_run path _ _ _ (eq_trans (f_equal (.!! path)
              (files_En_ready cd ex' cw' stored)) Hfile) eq_refl).
    done.
  - destruct (Hfar "_ru_itn.far") as [path Hpath].
    rewrite Ru_init_builds by done. cbn [fst snd]. intros Hv'.
    split; [by eexists|].
    match goal with
    | |- context [saved ?far ?g ?w0] => set (stored := saved far g w0)
    end.
    assert (Hu' : usable stored cd).
    { subst stored. apply usable_saved; [done|]. apply usable_tn_rebuilt.
      eapply usable_files; [|exact Hu]. cbn [files log_to].
      by rewrite files_Ru_ready. }
    assert (Hfile : files stored !! path
                    = Some (FarArchive [("tokenize_and_classify",
                        Ru_built (default [] ex) (weights_of w cw))])).
    { subst stored. rewrite Hpath. by apply (files_saved cd "_ru_itn.far"). }
    rewrite (Ru_init_hit cd false ex' cw' stored path); [|done..|];
      [|by eapply (hit_of_present "_ru_itn.far" cd stored)].
    rewrite (restore_run path _ _ _ (eq_trans (f_equal (.!! path)
              (files_Ru_ready cd ex' cw' stored)) Hfile) eq_refl).
    done.
Qed.

Lemma stored_grammar_is_restored_witness :
  let first :=
    En.ClassifyFst_init (Some "cache") true (Some [("date", true)]) None
      (world_with_file "cache/_en_itn.far" (Garbage "not an archive")) in
  valid_ref (world_with_file "cache/_en_itn.far" (Garbage "not an archive")) None /\
  usable (world_with_file "cache/_en_itn.far" (Garbage "not an archive"))
    (Some "cache") /\
  cache_on (Some "cache") = true /\
  builds "_en_itn.far" (Some "cache") true
    (world_with_file "cache/_en_itn.far" (Garbage "not an archive")) /\
  valid_ref first.2 (Some 0) /\
  (En.ClassifyFst_init (Some "cache") false None (Some 0) first.2).1 = first.1.
Proof.
  intros first.
  set (w := world_with_file "cache/_en_itn.far" (Garbage "not an archive")) in *.
  assert (Hu : usable w (Some "cache")).
  { intros _. split; [discriminate|]. vm_compute. reflexivity. }
  assert (Hb : builds "_en_itn.far" (Some "cache") true w) by (by left).
  assert (Hv' : valid_ref first.2 (Some 0)) by (vm_compute; lia).
  pose proof (stored_grammar_is_restored (Some "cache") true
                (Some [("date", true)]) None None (Some 0) w I Hu eq_refl)
    as [Hen _].
  split; [exact I|]. split; [exact Hu|]. split; [reflexivity|].
  split; [exact Hb|]. split; [exact Hv'|].
  exact (proj2 (Hen Hb Hv')).
Defined.

(** ** The cache switched off *)

Lemma with_cache_dir_off cd w : cache_on cd = false -> with_cache_dir cd w = w.
Proof.
  unfold cache_on, with_cache_dir. destruct cd as [dir|]; [|done].
  by intros ->.
Qed.

Lemma far_file_of_off cd n : cache_on cd = false -> far_file_of cd n = None.
Proof.
  unfold cache_on, far_file_of. destruct cd as [dir|]; [|done].
  by intros ->.
Qed.

(** X2.  [cache_dir=None] and the string [cache_dir="None"] both switch the
    cache off.  Whatever [overwrite_cache] is and whatever files exist, also
    an archive from an earlier run, both constructors then return the grammar
    built from the configuration of the call, and the English constructor
    reads, writes and creates nothing on disk. *)
Theorem cache_off_always_builds cd ow ex cw w :
  valid_ref w cw -> cd = None \/ cd = Some "None" ->
  En.ClassifyFst_init cd ow ex cw w
  = (Ok (self_of (En_built (default [] ex) (weights_of w cw))),
     log_to [Print (filled (weights_of w cw));
             LogInfo "Creating ClassifyFst grammars."]
       (configured ex cw w)) /\
  files (En.ClassifyFst_init cd ow ex cw w).2 = files w /\
  dirs (En.ClassifyFst_init cd ow ex cw w).2 = dirs w /\
  (Ru.ClassifyFst_init cd ow ex cw w).1
  = Ok (self_of (Ru_built (default [] ex) (weights_of w cw))).
Proof.
  intros Hv Hcd.
  assert (Hoff : cache_on cd = false) by (by destruct Hcd as [->| ->]).
  assert (Hen : En.ClassifyFst_init cd ow ex cw w
    = (Ok (self_of (En_built (default [] ex) (weights_of w cw))),
       log_to [Print (filled (weights_of w cw));
               LogInfo "Creating ClassifyFst grammars."]
         (configured ex cw w))).
  { rewrite En_init_builds
      by first [done | by apply usable_cache_off | by apply builds_cache_off].
    rewrite far_file_of_off by done. unfold En_ready.
    rewrite with_cache_dir_off by done. cbn [saved]. unfold log_to.
    cbn [heap files dirs trace]. by rewrite <- app_assoc. }
  split; [exact Hen|]. rewrite Hen. split; [done|]. split; [done|].
  by rewrite Ru_init_builds
    by first [done | by apply usable_cache_off | by apply builds_cache_off].
Qed.

Lemma cache_off_always_builds_witness :
  let w :=
    world_with_file "None/_en_itn.far"
      (FarArchive [("tokenize_and_classify", Grammar "older" [])]) in
  valid_ref w None /\
  (En.ClassifyFst_init (Some "None") false None None w).1
  = Ok (self_of (En_built [] [])) /\
  files (En.ClassifyFst_init (Some "None") false None None w).2 = files w.
Proof.
  intros w.
  pose proof (cache_off_always_builds (Some "None") false None None w I
                (or_intror eq_refl)) as (Hen & Hfiles & _).
  split; [exact I|]. split; [|exact Hfiles].
  exact (f_equal fst Hen).
Defined.

(** ** A cache directory that cannot be made *)

Lemma cache_far_file_raises cd n w e w' :
  cache_far_file cd n w = (Raise e, w') ->
  w' = w /\
  exists dir, cd = Some dir /\ dir <> "None" /\
    ((dir = "" /\ e = FileNotFoundError dir) \/
     (dir <> "" /\ is_Some (files w !! dir) /\ e = FileExistsError dir)).
Proof.
  unfold cache_far_file. destruct cd as [dir|]; [|done].
  destruct (String.eqb dir "None") eqn:Enone; cbn [negb]; [done|].
  apply String.eqb_neq in Enone.
  unfold bind, os_makedirs.
  destruct (String.eqb dir "") eqn:E.
  - apply String.eqb_eq in E. intros [= <- <-]. split; [done|].
    exists dir. split; [done|]. split; [done|]. by left.
  - apply String.eqb_neq in E.
    destruct (files w !! dir) as [f|] eqn:Ef; [|done].
    intros [= <- <-]. split; [done|].
    exists dir. split; [done|]. split; [done|]. right. by rewrite Ef.
Qed.

(** X3.  The cache directory is made after the configuration part has run:
    when [os.makedirs] fails, because [cache_dir] is the empty string or
    because a regular file has the name of the directory, the constructor
    ends with that error, nothing is built, no file is written and the
    forward-direction grammar is not constructed, but the caller's
    [class_weights] dictionary has already been filled with the defaults. *)
Theorem makedirs_error_comes_after_configuration dir ow ex l w d :
  heap w !! l = Some d -> dir <> "None" ->
  dir = "" \/ is_Some (files w !! dir) ->
  let error :=
    if String.eqb dir "" then FileNotFoundError dir else FileExistsError dir in
  let en := En.ClassifyFst_init (Some dir) ow ex (Some l) w in
  let ru := Ru.ClassifyFst_init (Some dir) ow ex (Some l) w in
  en.1 = Raise error /\ ru.1 = Raise error /\
  files en.2 = files w /\ files ru.2 = files w /\
  heap en.2 !! l = Some (filled d) /\ heap ru.2 !! l = Some (filled d) /\
  ru.2 = configured ex (Some l) w.
Proof.
  intros Hl Hnone Hbad error en ru.
  assert (Hv : valid_ref w (Some l)) by (by eapply lookup_lt_Some).
  assert (Hraise : forall n w', files w' = files w ->
            cache_far_file (Some dir) n w' = (Raise error, w')).
  { intros n w' Hfiles. unfold cache_far_file.
    apply String.eqb_neq in Hnone. rewrite Hnone. cbn [negb].
    unfold bind, os_makedirs. subst error.
    destruct (String.eqb dir "") eqn:E; [done|].
    apply String.eqb_neq in E. destruct Hbad as [?|[f Hf]]; [done|].
    by rewrite Hfiles, Hf. }
  assert (Hfilled : heap (configured ex (Some l) w) !! l = Some (filled d)).
  { rewrite (heap_configured_ref _ _ _ _ Hl). by apply list_lookup_insert_eq. }
  assert (Hen : en = (Raise error,
            log_to [Print (filled (weights_of w (Some l)))]
              (configured ex (Some l) w))).
  { subst en. rewrite En_init_unfold by done. unfold En.load_or_build.
    by erewrite bind_raise by (by apply Hraise). }
  assert (Hru : ru = (Raise error, configured ex (Some l) w)).
  { subst ru. rewrite Ru_init_unfold by done. unfold Ru.load_or_build.
    by erewrite bind_raise by (by apply Hraise). }
  rewrite Hen, Hru. cbn [fst snd files heap log_to]. done.
Qed.

Lemma makedirs_error_comes_after_configuration_witness :
  let w := mkWorld [[("word", 2%Q)]] {["cache" := Garbage "a file"]} ∅ [] in
  heap w !! 0 = Some [("word", 2%Q)] /\ "cache" <> "None" /\
  is_Some (files w !! "cache") /\
  (En.ClassifyFst_init (Some "cache") false None (Some 0) w).1
  = Raise (FileExistsError "cache") /\
  heap (Ru.ClassifyFst_init (Some "cache") false None (Some 0) w).2 !! 0
  = Some (filled [("word", 2%Q)]).
Proof.
  intros w.
  assert (Hfile : is_Some (files w !! "cache")).
  { exists (Garbage "a file"). vm_compute. reflexivity. }
  assert (Hne : "cache" <> "None") by discriminate.
  pose proof (makedirs_error_comes_after_configuration "cache" false None 0 w
                [("word", 2%Q)] eq_refl Hne (or_intror Hfile))
    as (Hen & _ & _ & _ & _ & Hheap & _).
  split; [reflexivity|]. split; [exact Hne|]. split; [exact Hfile|].
  split; [exact Hen|exact Hheap].
Defined.

(** ** The errors a construction can end with *)

Lemma restore_raises path w e w' :
  restore path w = (Raise e, w') ->
  e = FstIOError path \/ e = KeyError "tokenize_and_classify".
Proof.
  unfold restore, bind, Far_getitem.
  destruct (files w !! path) as [[entries|content]|];
    [destruct (dict_get "tokenize_and_classify" entries)| |];
    cbn; intros [= <- <-]; auto.
Qed.

Lemma cache_hit_true ow far w :
  cache_hit ow far w = true ->
  ow = false /\ exists path, far = Some path /\ exists_at w path = true.
Proof.
  unfold cache_hit. destruct far as [path|]; [|done].
  destruct ow; cbn [negb andb]; [done|].
  intros [_ Hex]%andb_true_iff. eauto.
Qed.

(** X4.  The dictionaries cannot make a construction fail: every lookup of
    a class in [class_graphs] and [class_weights] finds its key, whatever the
    caller passed.  An error can only come from the cache: from [os.makedirs]
    on the cache directory, or, when [overwrite_cache] is false and something
    is at the archive path, from reading the archive (an unreadable file, or
    an archive without the entry ["tokenize_and_classify"]).  The grammar
    classes and [generator_main] are embedded as calls that return. *)
Theorem only_the_cache_can_fail cd ow ex cw w e :
  valid_ref w cw ->
  ((En.ClassifyFst_init cd ow ex cw w).1 = Raise e ->
   (exists dir, cd = Some dir /\
      (e = FileNotFoundError dir \/ e = FileExistsError dir)) \/
   (ow = false /\ exists path,
      far_file_of cd "_en_itn.far" = Some path /\ is_Some (files w !! path) /\
      (e = FstIOError path \/ e = KeyError "tokenize_and_classify")) \/
   (ow = false /\ exists path,
      far_file_of cd "_en_itn.far" = Some path /\ path ∈ dirs w /\
      e = FstIOError path)) /\
  ((Ru.ClassifyFst_init cd ow ex cw w).1 = Raise e ->
   (exists dir, cd = Some dir /\
      (e = FileNotFoundError dir \/ e = FileExistsError dir)) \/
   (ow = false /\ exists path,
      far_file_of cd "_ru_itn.far" = Some path /\ is_Some (files w !! path) /\
      (e = FstIOError path \/ e = KeyError "tokenize_and_classify")) \/
   (ow = false /\ exists path,
      far_file_of cd "_ru_itn.far" = Some path /\ path ∈ dirs w /\
      e = FstIOError path)).
Proof.
  intros Hv.
  assert (Hread : forall n path w0,
    n <> "" -> files w0 = files w -> dirs w0 = dirs w ->
    far_file_of cd n = Some path ->
    cache_hit ow (Some path) (with_cache_dir cd w0) = true ->
    restore path (with_cache_dir cd w0) = (Raise e, (restore path (with_cache_dir cd w0)).2) ->
    (ow = false /\ is_Some (files w !! path) /\
       (e = FstIOError path \/ e = KeyError "tokenize_and_classify")) \/
    (ow = false /\ path ∈ dirs w /\ e = FstIOError path)).
  { intros n path w0 Hn Hfiles Hdirs Hfar Hhit Hrestore.
    apply cache_hit_true in Hhit as (-> & path' & [= <-] & Hex).
    unfold exists_at in Hex.
    rewrite files_with_cache_dir, dirs_with_cache_dir, Hfiles, Hdirs in Hex.
    destruct (files w !! path) as [f|] eqn:Ef.
    - left. split; [done|]. split; [by eexists|].
      by eapply restore_raises.
    - right. split; [done|].
      assert (Hio : e = FstIOError path).
      { rewrite restore_unreadable in Hrestore.
        - by injection Hrestore as <-.
        - intros entries. by rewrite files_with_cache_dir, Hfiles, Ef. }
      split; [|done].
      unfold far_file_of in Hfar. destruct cd as [dir|]; [|done].
      destruct (String.eqb dir "None"); cbn [negb] in *; [done|].
      injection Hfar as <-. apply bool_decide_eq_true in Hex.
      apply elem_of_union in Hex as [Heq%elem_of_singleton|?]; [|done].
      by apply os_path_join_neq_dir in Heq. }
  split; intros Hraise.
  - rewrite En_init_unfold in Hraise by done.
    set (w0 := log_to _ _) in Hraise.
    destruct (usable_dec w0 cd) as [Hu|Hu].
    + rewrite En_load_or_build_run in Hraise by done.
      assert (Hl : heap (with_cache_dir cd w0) !! ref_of w cw
                   = Some (filled (weights_of w cw))).
      { rewrite heap_with_cache_dir. subst w0. cbn [heap log_to].
        by apply configured_lookup. }
      destruct (far_file_of cd "_en_itn.far") as [path|] eqn:Hfar;
        [destruct (cache_hit ow (Some path) (with_cache_dir cd w0)) eqn:Hhit|];
        [|by rewrite (En_build_run _ _ _ _ _ Hl) in Hraise..].
      right.
      destruct (Hread "_en_itn.far" path w0) as [(? & ? & ?)|(? & ? & ?)];
        [done..| |left; eauto|right; eauto].
      by destruct (restore path (with_cache_dir cd w0)); cbn in *; subst.
    + unfold En.load_or_build, bind in Hraise.
      destruct (cache_far_file cd "_en_itn.far" w0) as [[far|e'] w'] eqn:Hfar.
      * destruct (cache_far_file_unusable cd "_en_itn.far" w0 Hu) as [e'' He''].
        rewrite He'' in Hfar by done. done.
      * cbn in Hraise. injection Hraise as <-.
        apply cache_far_file_raises in Hfar
          as (_ & dir & -> & _ & [[_ ->]|(_ & _ & ->)]);
          left; eauto.
  - rewrite Ru_init_unfold in Hraise by done.
    set (w0 := configured _ _ _) in Hraise.
    destruct (usable_dec w0 cd) as [Hu|Hu].
    + rewrite Ru_load_or_build_run in Hraise by done.
      assert (Hl : heap (with_cache_dir cd w0) !! ref_of w cw
                   = Some (filled (weights_of w cw))).
      { rewrite heap_with_cache_dir. by apply configured_lookup. }
      assert (Hu' : usable (with_cache_dir cd w0) cd).
      { eapply usable_files; [|exact Hu]. by rewrite files_with_cache_dir. }
      destruct (far_file_of cd "_ru_itn.far") as [path|] eqn:Hfar;
        [destruct (cache_hit ow (Some path) (with_cache_dir cd w0)) eqn:Hhit|];
        [|by rewrite (Ru_build_run _ _ _ _ _ _ Hl Hu') in Hraise..].
      right.
      destruct (Hread "_ru_itn.far" path w0) as [(? & ? & ?)|(? & ? & ?)];
        [done..| |left; eauto|right; eauto].
      by destruct (restore path (with_cache_dir cd w0)); cbn in *; subst.
    + unfold Ru.load_or_build, bind in Hraise.
      destruct (cache_far_file cd "_ru_itn.far" w0) as [[far|e'] w'] eqn:Hfar.
      * destruct (cache_far_file_unusable cd "_ru_itn.far" w0 Hu) as [e'' He''].
        rewrite He'' in Hfar by done. done.
      * cbn in Hraise. injection Hraise as <-.
        apply cache_far_file_raises in Hfar
          as (_ & dir & -> & _ & [[_ ->]|(_ & _ & ->)]);
          left; eauto.
Qed.

Lemma only_the_cache_can_fail_witness :
  let w := world_with_file "cache/_en_itn.far" (FarArchive []) in
  valid_ref w None /\
  (En.ClassifyFst_init (Some "cache") false None None w).1
  = Raise (KeyError "tokenize_and_classify") /\
  ((exists dir, Some "cache" = Some dir /\
      (KeyError "tokenize_and_classify" = FileNotFoundError dir \/
       KeyError "tokenize_and_classify" = FileExistsError dir)) \/
   (false = false /\ exists path,
      far_file_of (Some "cache") "_en_itn.far" = Some path /\
      is_Some (files w !! path) /\
      (KeyError "tokenize_and_classify" = FstIOError path \/
       KeyError "tokenize_and_classify" = KeyError "tokenize_and_classify")) \/
   (false = false /\ exists path,
      far_file_of (Some "cache") "_en_itn.far" = Some path /\ path ∈ dirs w /\
      KeyError "tokenize_and_classify" = FstIOError path)).
Proof.
  intros w.
  assert (Hrun : (En.ClassifyFst_init (Some "cache") false None None w).1
                 = Raise (KeyError "tokenize_and_classify"))
    by (vm_compute; reflexivity).
  pose proof (only_the_cache_can_fail (Some "cache") false None None w
                (KeyError "tokenize_and_classify") I) as [Hen _].
  split; [exact I|]. split; [exact Hrun|]. exact (Hen Hrun).
Defined.

(** ** The order of the keys after the defaults are filled in *)

Lemma dict_keys_set {V} (k : string) (v : V) (d : dict V) :
  dict_keys (dict_set k v d)
  = if dict_mem k d then dict_keys d else (dict_keys d ++ [k])%list.
Proof.
  unfold dict_mem, dict_keys. induction d as [|[k' v'] d IH]; [done|].
  cbn [dict_set dict_get]. destruct (String.eqb k k'); [done|].
  cbn [map fst]. rewrite IH. by destruct (dict_get k d).
Qed.

Lemma dict_keys_fill (tbl d : dict Q) :
  NoDup (dict_keys tbl) ->
  dict_keys (foldl fill_step d tbl)
  = (dict_keys d
     ++ List.filter (fun k => negb (dict_mem k d)) (dict_keys tbl))%list.
Proof.
  revert d. induction tbl as [|[k v] tbl IH]; intros d Hnd.
  - cbn. by rewrite app_nil_r.
  - change (dict_keys ((k, v) :: tbl)) with (k :: dict_keys tbl) in *.
    apply NoDup_cons in Hnd as [Hk Hnd]. cbn [foldl].
    rewrite IH by done. unfold fill_step. cbn [fst snd List.filter].
    destruct (dict_mem k d) eqn:Hmem; cbn [negb]; [done|].
    rewrite dict_keys_set, Hmem, <- app_assoc. cbn [app]. do 2 f_equal.
    apply filter_ext_in. intros k' Hin. f_equal.
    unfold dict_mem. rewrite dict_get_set.
    destruct (String.eqb k' k) eqn:E; [|done].
    apply String.eqb_eq in E as ->. destruct Hk. by apply list_elem_of_In.
Qed.

Lemma filter_none {A} (p : A -> bool) (l : list A) :
  (forall x, In x l -> p x = false) -> List.filter p l = [].
Proof.
  induction l as [|x l IH]; intros Hp; [done|]. cbn [List.filter].
  rewrite (Hp x) by (by left). apply IH. intros y Hy. apply Hp. by right.
Qed.

Lemma default_class_weights_NoDup : NoDup (dict_keys default_class_weights).
Proof. apply (bool_decide_unpack _). by vm_compute. Qed.

Lemma unknown_keys_of_filled (d : dict Q) :
  unknown_keys (filled d) = unknown_keys d.
Proof.
  unfold unknown_keys, filled.
  rewrite dict_keys_fill by apply default_class_weights_NoDup.
  rewrite List.filter_app.
  match goal with
  | |- (_ ++ ?l)%list = _ => assert (Hnil : l = [])
  end.
  { apply filter_none. intros k Hin.
    apply filter_In in Hin as [Hin _].
    assert (Hcls : forallb (fun k => str_in k classes)
                     (dict_keys default_class_weights) = true) by reflexivity.
    rewrite forallb_forall in Hcls. by rewrite (Hcls k Hin). }
  by rewrite Hnil, app_nil_r.
Qed.

(** X5.  Filling the defaults in keeps the caller's entries in the caller's
    order and appends the missing classes after them, in the order of the
    default table (cardinal, ordinal, decimal, measure, date, word, time,
    money, electronic, telephone, whitelist); this is the order in which the
    caller's dictionary iterates afterwards. *)
Theorem defaults_are_appended_in_table_order l w d :
  heap w !! l = Some d ->
  (fill_default_weights l w).1 = Ok tt /\
  exists d',
    heap (fill_default_weights l w).2 !! l = Some d' /\
    dict_keys d'
    = (dict_keys d
       ++ List.filter (fun k => negb (dict_mem k d))
            [ "cardinal"; "ordinal"; "decimal"; "measure"; "date"; "word";
              "time"; "money"; "electronic"; "telephone"; "whitelist" ])%list /\
    (forall k v, dict_get k d = Some v -> dict_get k d' = Some v).
Proof.
  intros Hl. rewrite (fill_default_weights_run _ _ _ Hl). cbn [fst snd heap].
  split; [done|]. exists (filled d). split; [|split].
  - apply list_lookup_insert_eq. by eapply lookup_lt_Some.
  - unfold filled. by rewrite dict_keys_fill by apply default_class_weights_NoDup.
  - apply filled_keeps.
Qed.

Lemma defaults_are_appended_in_table_order_witness :
  let d := [("word", 2%Q); ("verb", 3%Q); ("cardinal", 1.01%Q)] in
  heap (world_with_dict d) !! 0 = Some d /\
  exists d',
    heap (fill_default_weights 0 (world_with_dict d)).2 !! 0 = Some d' /\
    dict_keys d'
    = [ "word"; "verb"; "cardinal"; "ordinal"; "decimal"; "measure"; "date";
        "time"; "money"; "electronic"; "telephone"; "whitelist" ].
Proof.
  intros d.
  destruct (defaults_are_appended_in_table_order 0 (world_with_dict d) d eq_refl)
    as (_ & d' & Hd' & Hkeys & _).
  split; [reflexivity|]. exists d'. split; [exact Hd'|].
  rewrite Hkeys. vm_compute. reflexivity.
Defined.

(** X6.  The configuration part logs exactly one diagnostic for each key
    that names no class, those of [excluded_classes] first and those of
    [class_weights] after them, each group in the order of its dictionary,
    and nothing else; it logs nothing when every key is a class name, and it
    touches no file. *)
Theorem diagnostics_are_exactly_the_unknown_keys ex cw w :
  valid_ref w cw ->
  trace (configure ex cw w).2
  = (trace w
     ++ map excluded_diagnostic
          (List.filter (fun k => negb (str_in k classes))
             (dict_keys (default [] ex)))
     ++ map weight_diagnostic
          (List.filter (fun k => negb (str_in k classes))
             (dict_keys (weights_of w cw))))%list /\
  files (configure ex cw w).2 = files w /\
  dirs (configure ex cw w).2 = dirs w /\
  (Forall (fun k => k ∈ classes) (dict_keys (default [] ex)) ->
   Forall (fun k => k ∈ classes) (dict_keys (weights_of w cw)) ->
   trace (configure ex cw w).2 = trace w).
Proof.
  intros Hv. rewrite configure_run by done. cbn [snd trace files dirs configured].
  rewrite unknown_keys_of_filled. split; [done|]. split; [done|]. split; [done|].
  intros Hex Hcw.
  assert (Hnone : forall l : list string,
            Forall (fun k => k ∈ classes) l ->
            List.filter (fun k => negb (str_in k classes)) l = []).
  { intros l Hl. apply filter_none. intros k Hin.
    rewrite Forall_forall in Hl. apply list_elem_of_In, Hl in Hin.
    apply str_in_elem_of in Hin. by rewrite Hin. }
  unfold unknown_keys. rewrite !Hnone by done. cbn. by rewrite app_nil_r.
Qed.

Lemma diagnostics_are_exactly_the_unknown_keys_witness :
  let w := world_with_dict [("verb", 3%Q); ("date", 1%Q)] in
  valid_ref w (Some 0) /\
  trace (configure (Some [("noun", true); ("word", true); ("x", false)])
           (Some 0) w).2
  = [ excluded_diagnostic "noun"; excluded_diagnostic "x";
      weight_diagnostic "verb" ].
Proof.
  intros w.
  assert (Hv : valid_ref w (Some 0)) by (vm_compute; lia).
  pose proof (diagnostics_are_exactly_the_unknown_keys
                (Some [("noun", true); ("word", true); ("x", false)])
                (Some 0) w Hv) as [Htrace _].
  split; [exact Hv|]. rewrite Htrace. vm_compute. reflexivity.
Defined.

(** X7.  A construction that restores the grammar from the archive builds
    nothing: it returns the stored grammar, writes no file, and after the
    configuration part it logs only that the grammar was restored (the
    English constructor prints the weights first); in particular the Russian
    constructor does not construct the forward-direction grammar. *)
Theorem restoring_builds_and_writes_nothing cd ex cw w entries g :
  valid_ref w cw -> usable w cd ->
  dict_get "tokenize_and_classify" entries = Some g ->
  (forall path,
     far_file_of cd "_en_itn.far" = Some path ->
     files w !! path = Some (FarArchive entries) ->
     let en := En.ClassifyFst_init cd false ex cw w in
     en.1 = Ok (self_of g) /\ files en.2 = files w /\
     trace en.2
     = (trace (configure ex cw w).2
        ++ [ Print (filled (weights_of w cw));
             LogInfo ("ClassifyFst.fst was restored from " ++ path ++ ".") ])%list) /\
  (forall path,
     far_file_of cd "_ru_itn.far" = Some path ->
     files w !! path = Some (FarArchive entries) ->
     let ru := Ru.ClassifyFst_init cd false ex cw w in
     ru.1 = Ok (self_of g) /\ files ru.2 = files w /\
     trace ru.2
     = (trace (configure ex cw w).2
        ++ [ LogInfo ("ClassifyFst.fst was restored from " ++ path ++ ".") ])%list).
Proof.
  intros Hv Hu Hg. rewrite configure_run by done. cbn [snd].
  split; intros path Hfar Hfile.
  - rewrite (En_init_hit cd false ex cw w path); [|done..|];
      [|by apply (hit_of_present "_en_itn.far" cd w _ path (FarArchive entries))].
    rewrite (restore_run path entries g) by (by rewrite ?files_En_ready).
    cbn [fst snd files trace log_to]. rewrite files_En_ready.
    split; [done|]. split; [done|].
    unfold En_ready. rewrite trace_with_cache_dir. cbn [trace log_to].
    by rewrite <- app_assoc.
  - rewrite (Ru_init_hit cd false ex cw w path); [|done..|];
      [|by apply (hit_of_present "_ru_itn.far" cd w _ path (FarArchive entries))].
    rewrite (restore_run path entries g) by (by rewrite ?files_Ru_ready).
    cbn [fst snd files trace log_to]. rewrite files_Ru_ready.
    split; [done|]. split; [done|].
    unfold Ru_ready. by rewrite trace_with_cache_dir.
Qed.

Lemma restoring_builds_and_writes_nothing_witness :
  let stored := Grammar "stored" [] in
  let w :=
    world_with_file "cache/_ru_itn.far"
      (FarArchive [("tokenize_and_classify", stored)]) in
  valid_ref w None /\ usable w (Some "cache") /\
  (Ru.ClassifyFst_init (Some "cache") false None None w).1 = Ok (self_of stored) /\
  trace (Ru.ClassifyFst_init (Some "cache") false None None w).2
  = [ LogInfo "ClassifyFst.fst was restored from cache/_ru_itn.far." ].
Proof.
  intros stored w.
  assert (Hu : usable w (Some "cache")).
  { intros _. split; [discriminate|]. vm_compute. reflexivity. }
  assert (Hfile : files w !! "cache/_ru_itn.far"
                  = Some (FarArchive [("tokenize_and_classify", stored)])).
  { vm_compute. reflexivity. }
  pose proof (restoring_builds_and_writes_nothing (Some "cache") None None w
                [("tokenize_and_classify", stored)] stored I Hu eq_refl)
    as [_ Hru].
  destruct (Hru "cache/_ru_itn.far" eq_refl Hfile) as (Hres & _ & Htrace).
  split; [exact I|]. split; [exact Hu|]. split; [exact Hres|].
  rewrite Htrace. vm_compute. reflexivity.
Defined.

(** * Properties of the transcription script *)

Section TranscribeProperties.

Import Transcribe.
Open Scope transcribe_scope.

Lemma and_then_returns {A B} (m : T A) (k : A -> T B) t a t' :
  m t = (Returns a, t') -> and_then m k t = k a t'.
Proof. unfold and_then. by intros ->. Qed.

Lemma and_then_raises {A B} (m : T A) (k : A -> T B) t e t' :
  m t = (Raises e, t') -> and_then m k t = (Raises e, t').
Proof. unfold and_then. by intros ->. Qed.

Lemma complete_checks cfg :
  complete cfg ->
  bool_decide (model_path cfg = None) && bool_decide (pretrained_name cfg = None)
  = false /\
  bool_decide (audio_dir cfg = None) && bool_decide (dataset_manifest cfg = None)
  = false.
Proof.
  intros [[?|?] [?|?]]; split;
    rewrite andb_false_iff, !bool_decide_eq_false; auto.
Qed.

(** X8.  [main] checks the configuration before it does anything else:
    without a model ([model_path] and [pretrained_name] both [None]) it
    raises the first [ValueError], with a model but without data ([audio_dir]
    and [dataset_manifest] both [None]) the second; in both cases only the
    configuration has been logged and no collaborator has been called. *)
Theorem main_rejects_an_incomplete_config env cfg t :
  (model_path cfg = None -> pretrained_name cfg = None ->
   main env cfg t
   = (Raises (ValueError
                "Both cfg.model_path and cfg.pretrained_name cannot be None!"),
      t ++ [Info ("Hydra config: " ++ to_yaml env cfg)])%list) /\
  (model_path cfg <> None \/ pretrained_name cfg <> None ->
   audio_dir cfg = None -> dataset_manifest cfg = None ->
   main env cfg t
   = (Raises (ValueError
                "Both cfg.audio_dir and cfg.dataset_manifest cannot be None!"),
      t ++ [Info ("Hydra config: " ++ to_yaml env cfg)])%list).
Proof.
  split.
  - intros Hm Hp. unfold main.
    erewrite and_then_returns by reflexivity.
    erewrite and_then_raises; [reflexivity|].
    by rewrite Hm, Hp.
  - intros Hmodel Ha Hd. unfold main.
    erewrite and_then_returns by reflexivity.
    erewrite and_then_returns.
    2:{ replace (bool_decide (model_path cfg = None)
                 && bool_decide (pretrained_name cfg = None)) with false;
          [reflexivity|].
        symmetry. rewrite andb_false_iff, !bool_decide_eq_false.
        by destruct Hmodel; [left|right]. }
    erewrite and_then_raises; [reflexivity|].
    by rewrite Ha, Hd.
Qed.

(** ** What a computation adds to the trace *)

Lemma emits_pure P {A} (a : A) : emits P (pure a).
Proof. intros t. exists []. by rewrite app_nil_r. Qed.

Lemma emits_throw P {A} (e : error) : emits P (@throw A e).
Proof. intros t. exists []. by rewrite app_nil_r. Qed.

Lemma emits_record (P : event -> Prop) (e : event) : P e -> emits P (record e).
Proof. intros He t. exists [e]. split; [done|]. by constructor. Qed.

Lemma emits_call (P : event -> Prop) {A} (e : event) (answer : outcome A) :
  P e -> emits P (call e answer).
Proof. intros He t. exists [e]. split; [done|]. by constructor. Qed.

Lemma emits_and_then P {A B} (m : T A) (k : A -> T B) :
  emits P m -> (forall a, emits P (k a)) -> emits P (and_then m k).
Proof.
  intros Hm Hk t. unfold and_then.
  destruct (Hm t) as (events & Hevents & HP).
  destruct (m t) as [[a|e] t'] eqn:Hrun; cbn [snd] in Hevents; subst t'.
  - destruct (Hk a (t ++ events)%list) as (events' & -> & HP').
    exists (events ++ events')%list. split; [by rewrite app_assoc|].
    by apply Forall_app.
  - by exists events.
Qed.

Ltac emits_step :=
  first
    [ apply emits_pure | apply emits_throw
    | apply emits_record; exact I
    | apply emits_call; exact I
    | apply emits_and_then; [|intros]
    | match goal with
      | |- emits _ (if ?b then _ else _) => destruct b
      | |- emits _ (match ?x with _ => _ end) => destruct x
      | |- emits _ (let '(_, _) := ?x in _) => destruct x
      end ].

Lemma emits_transcribe_audio env cfg m filepaths partial amp_on hyps :
  emits late (transcribe_audio env cfg m filepaths partial amp_on hyps).
Proof. unfold transcribe_audio. repeat emits_step. Qed.

Lemma emits_finish env cfg m name filepaths partial amp_on hyps langs :
  emits late (finish env cfg m name filepaths partial amp_on hyps langs).
Proof.
  unfold finish. repeat emits_step; apply emits_transcribe_audio.
Qed.

Lemma emits_any P {A} (m : T A) : emits P m -> emits any_event m.
Proof.
  intros Hm t. destruct (Hm t) as (events & -> & _). exists events.
  split; [done|]. by apply Forall_forall.
Qed.

Lemma emits_from P {A} (m : T A) (t0 t pre : list event) :
  emits P m -> t0 = (t ++ pre)%list ->
  exists rest, (m t0).2 = (t ++ pre ++ rest)%list /\ Forall P rest.
Proof.
  intros Hm ->. destruct (Hm (t ++ pre)%list) as (rest & -> & HP).
  exists rest. by rewrite app_assoc.
Qed.

(** ** Running [main] *)

Lemma call_returns {A} (e : event) (answer : outcome A) (a : A) t :
  answer = Returns a -> call e answer t = (Returns a, (t ++ [e])%list).
Proof. by intros ->. Qed.

Lemma call_raises {A} (e : event) (answer : outcome A) (e' : error) t :
  answer = Raises e' -> call e answer t = (Raises e', (t ++ [e])%list).
Proof. by intros ->. Qed.

Ltac run_step :=
  first
    [ erewrite and_then_returns
        by first [reflexivity | apply call_returns; eassumption]
    | erewrite and_then_raises
        by first [reflexivity | apply call_raises; eassumption] ];
  cbv iota beta.

Ltac run :=
  repeat run_step;
  cbn [andb negb String.eqb Ascii.eqb Bool.eqb device_0 fst snd
       model_path pretrained_name audio_dir dataset_manifest output_filename
       batch_size num_workers append_pred pred_name_postfix compute_langs cuda
       amp audio_type overwrite_transcripts ctc_decoding rnnt_decoding
       set_rnnt_decoding fused_batch_size rnnt_compute_langs rnnt_settings] in *;
  repeat run_step.

Lemma main_reaches_line_183 env cfg dev m name filepaths partial cfg' t :
  reaches env cfg dev m name filepaths partial cfg' ->
  main env cfg t
  = finish env cfg' m name filepaths partial (amp_enabled env cfg) true
      (compute_langs cfg) (t ++ prepared_events env cfg dev m name)%list.
Proof.
  intros (Hc & Hdev & Hsetup & Hprepare & Hname).
  destruct (complete_checks cfg Hc) as [Hcheck1 Hcheck2].
  unfold main. rewrite Hcheck1, Hcheck2.
  unfold prepared_events, loaded_events, select_device, location, device_name,
    decoded, decoding_events, amp_enabled in *.
  destruct (cuda cfg) as [n|]; [|destruct (cuda_is_available env)];
    run;
    destruct (has_change_decoding_strategy m); destruct (has_joint m); run;
    destruct (amp cfg); run;
    try (destruct (cuda_is_available env); run);
    try (destruct (has_autocast env); run);
    rewrite <- ?app_assoc; reflexivity.
Qed.

Lemma main_until_device env cfg t :
  complete cfg ->
  (exists rest,
     (main env cfg t).2
     = (t ++ [ Info ("Hydra config: " ++ to_yaml env cfg);
               TorchDevice (location env cfg) ] ++ rest)%list) /\
  (forall e,
     new_torch_device env (location env cfg) = Raises e ->
     main env cfg t
     = (Raises e,
        (t ++ [ Info ("Hydra config: " ++ to_yaml env cfg);
                TorchDevice (location env cfg) ])%list)).
Proof.
  intros Hc. destruct (complete_checks cfg Hc) as [Hcheck1 Hcheck2].
  unfold main. rewrite Hcheck1, Hcheck2.
  unfold select_device, location.
  destruct (cuda cfg) as [n|]; [|destruct (cuda_is_available env)]; run;
    (split;
     [ unfold and_then at 1, call at 1;
       match goal with
       | |- context [new_torch_device env ?name] =>
           destruct (new_torch_device env name) as [dev|e]
       end;
       [|exists []; cbn [snd]; by rewrite <- ?app_assoc];
       match goal with
       | |- exists rest, (?c ?t0).2 = (?t ++ ?pre ++ rest)%list =>
           destruct (emits_from any_event c t0 t pre) as (rest & Hrest & _);
             [|by rewrite <- ?app_assoc|by exists rest]
       end;
       repeat emits_step; eapply emits_any, emits_finish
     | intros e He; run; by rewrite <- ?app_assoc ]).
Qed.

Lemma main_until_setup env cfg dev t :
  complete cfg ->
  new_torch_device env (location env cfg) = Returns dev ->
  exists rest,
    (main env cfg t).2
    = (t ++ [ Info ("Hydra config: " ++ to_yaml env cfg);
              TorchDevice (location env cfg);
              Info ("Inference will be done on device : " ++ device_name env cfg);
              SetupModel cfg dev ] ++ rest)%list.
Proof.
  intros Hc Hdev. destruct (complete_checks cfg Hc) as [Hcheck1 Hcheck2].
  unfold main. rewrite Hcheck1, Hcheck2.
  unfold select_device, location, device_name in *.
  destruct (cuda cfg) as [n|]; [|destruct (cuda_is_available env)]; run;
    (unfold and_then at 1, call at 1;
     destruct (setup_model env cfg dev) as [[m name]|e];
     [|exists []; cbn [snd]; by rewrite <- ?app_assoc];
     match goal with
     | |- exists rest, (?c ?t0).2 = (?t ++ ?pre ++ rest)%list =>
         destruct (emits_from any_event c t0 t pre) as (rest & Hrest & _);
           [|by rewrite <- ?app_assoc|by exists rest]
     end;
     repeat emits_step; eapply emits_any, emits_finish).
Qed.

Lemma main_until_prepare env cfg dev m name t :
  complete cfg ->
  new_torch_device env (location env cfg) = Returns dev ->
  setup_model env cfg dev = Returns (m, name) ->
  exists rest,
    (main env cfg t).2 = (t ++ loaded_events env cfg dev m ++ rest)%list /\
    Forall late rest.
Proof.
  intros Hc Hdev Hsetup. destruct (complete_checks cfg Hc) as [Hcheck1 Hcheck2].
  unfold main. rewrite Hcheck1, Hcheck2.
  unfold loaded_events, select_device, location, device_name, decoded,
    decoding_events in *.
  destruct (cuda cfg) as [n|]; [|destruct (cuda_is_available env)]; run;
    destruct (has_change_decoding_strategy m); destruct (has_joint m); run;
    (unfold and_then at 1, call at 1;
     match goal with
     | |- context [prepare_audio_data env ?c] =>
         destruct (prepare_audio_data env c) as [[filepaths partial]|e]
     end;
     [|exists []; cbn [snd]; by rewrite <- ?app_assoc, ?app_nil_r];
     apply emits_from;
     [repeat emits_step; apply emits_finish
     |by rewrite <- ?app_assoc]).
Qed.

(** X9.  The device follows [cfg.cuda] alone: with [cuda=n] [main] asks
    [torch.device] for ['cuda:n'], for every integer [n], a negative one
    too, and never falls back to the CPU; ['cpu'] is asked for only when
    [cuda] is [None] and no CUDA device is available.  [device[0]] is
    evaluated only for a list, so the request is always made, straight after
    the first log message.  When [torch.device] refuses the name, [main]
    ends with its error and nothing else has happened; when it answers,
    [main] logs the device ([[n]], or the number 1 for the CPU), sets the
    model up with the device object, and makes the trainer for the devices
    [[n]] with the accelerator ['gpu'] (for 1 with ['cpu']). *)
Theorem cuda_index_always_asks_for_the_gpu env cfg t :
  complete cfg ->
  let '(shown, device_string, devices, accelerator) :=
    match cuda cfg with
    | Some n => ("[" ++ pretty n ++ "]", "cuda:" ++ pretty n, DeviceList [n], "gpu")
    | None =>
        if cuda_is_available env then ("[0]", "cuda:0", DeviceList [0%Z], "gpu")
        else ("1", "cpu", DeviceCount 1, "cpu")
    end in
  (exists rest,
     (main env cfg t).2
     = (t ++ [ Info ("Hydra config: " ++ to_yaml env cfg);
               TorchDevice device_string ] ++ rest)%list) /\
  (forall e,
     new_torch_device env device_string = Raises e ->
     main env cfg t
     = (Raises e,
        (t ++ [ Info ("Hydra config: " ++ to_yaml env cfg);
                TorchDevice device_string ])%list)) /\
  (forall dev,
     new_torch_device env device_string = Returns dev ->
     (exists rest,
        (main env cfg t).2
        = (t ++ [ Info ("Hydra config: " ++ to_yaml env cfg);
                  TorchDevice device_string;
                  Info ("Inference will be done on device : " ++ shown);
                  SetupModel cfg dev ] ++ rest)%list) /\
     (forall m name,
        setup_model env cfg dev = Returns (m, name) ->
        Trainer devices accelerator ∈ (main env cfg t).2)).
Proof.
  intros Hc.
  pose proof (main_until_device env cfg t Hc) as [Hask Hrefused].
  pose proof (fun dev => main_until_setup env cfg dev t Hc) as Hsetup.
  pose proof (fun dev m name => main_until_prepare env cfg dev m name t Hc)
    as Hprepare.
  unfold loaded_events, select_device, location, device_name in *.
  destruct (cuda cfg) as [n|]; [|destruct (cuda_is_available env)];
    (split; [exact Hask|]); (split; [exact Hrefused|]);
    intros dev Hdev; (split; [exact (Hsetup dev Hdev)|]);
    intros m name Hm;
    destruct (Hprepare dev m name Hdev Hm) as (rest & -> & _);
    rewrite elem_of_app; right; cbn [fst snd app];
    rewrite !elem_of_cons; auto 10.
Qed.

(** X10.  For a model that has [change_decoding_strategy] and [joint] (an
    RNNT model), [main] overwrites the RNNT decoding configuration before it
    hands it to the model: [fused_batch_size] becomes -1 and [compute_langs]
    becomes [cfg.compute_langs], whatever the configuration said, and the
    configuration that the audio preparation receives carries these values.
    A model without [joint] gets the CTC decoding configuration, and for a
    model without [change_decoding_strategy] no decoding strategy is set at
    all; in both cases the configuration is handed on as it was. *)
Theorem rnnt_decoding_is_overwritten env cfg dev m name t :
  complete cfg ->
  new_torch_device env (location env cfg) = Returns dev ->
  setup_model env cfg dev = Returns (m, name) ->
  let forced :=
    mkRNNT (-1) (compute_langs cfg) (rnnt_settings (rnnt_decoding cfg)) in
  (has_change_decoding_strategy m = true -> has_joint m = true ->
   ChangeDecodingRNNT m forced ∈ (main env cfg t).2 /\
   PrepareAudioData (set_rnnt_decoding cfg forced) ∈ (main env cfg t).2) /\
  (has_change_decoding_strategy m = true -> has_joint m = false ->
   ChangeDecodingCTC m (ctc_decoding cfg) ∈ (main env cfg t).2 /\
   PrepareAudioData cfg ∈ (main env cfg t).2) /\
  (has_change_decoding_strategy m = false ->
   PrepareAudioData cfg ∈ (main env cfg t).2 /\
   forall e, e ∈ (main env cfg t).2 ->
     match e with
     | ChangeDecodingRNNT _ _ | ChangeDecodingCTC _ _ => e ∈ t
     | _ => True
     end).
Proof.
  intros Hc Hdev Hsetup forced.
  destruct (main_until_prepare env cfg dev m name t Hc Hdev Hsetup)
    as (rest & Hrest & Hlate).
  unfold loaded_events, decoding_events, decoded in Hrest.
  split; [|split].
  - intros Hchange Hjoint. rewrite Hchange, Hjoint in Hrest. rewrite Hrest.
    split; rewrite !elem_of_app, !elem_of_cons; auto 20.
  - intros Hchange Hjoint. rewrite Hchange, Hjoint in Hrest. rewrite Hrest.
    split; rewrite !elem_of_app, !elem_of_cons; auto 20.
  - intros Hchange. rewrite Hchange in Hrest. cbn [andb] in Hrest.
    split; [rewrite Hrest, !elem_of_app, !elem_of_cons; auto 20|].
    intros e. rewrite Hrest, !elem_of_app, !elem_of_cons, elem_of_nil.
    rewrite Forall_forall in Hlate.
    intros He. destruct e; try exact I;
      repeat match type of He with _ \/ _ => destruct He as [He|He] end;
      first [assumption | discriminate He | by destruct He
            | by apply Hlate in He].
Qed.

Lemma finish_transcribes env cfg' m name filepaths partial amp_on langs path t :
  transcribes_anew env cfg' path ->
  finish env cfg' m name filepaths partial amp_on true langs t
  = (and_then (transcribe_audio env cfg' m filepaths partial amp_on true)
       (fun transcriptions =>
          record (Info ("Finished transcribing " ++ pretty (length filepaths)
                        ++ " files !")) ;;;
          record (Info ("Writing transcriptions into file: "
                        ++ str_option (output_filename cfg'))) ;;;
          written <~ call (WriteTranscription (best transcriptions) cfg' name
                             filepaths langs)
                          (write_transcription env (best transcriptions) cfg'
                             name filepaths langs) ;;
          record (Info ("Finished writing predictions to " ++ written ++ "!")) ;;;
          pure cfg'))
      (t ++ (if overwrite_transcripts cfg' then []
             else [PathExists (output_filename cfg')]))%list.
Proof.
  intros [Hover|[Hout Hexists]]; unfold finish.
  - rewrite Hover. cbn [negb].
    erewrite and_then_returns by reflexivity. by rewrite app_nil_r.
  - rewrite Hout, Hexists. destruct (overwrite_transcripts cfg'); cbn [negb].
    + erewrite and_then_returns by reflexivity. by rewrite app_nil_r.
    + by erewrite and_then_returns by reflexivity.
Qed.

Lemma transcribe_audio_run env cfg' m filepaths partial amp_on t :
  transcribe_audio env cfg' m filepaths partial amp_on true t
  = ((request env cfg' m filepaths partial).2,
     (t ++ [Autocast amp_on; NoGrad]
        ++ (if partial && negb (is_EncDecCTCModel m)
            then [Warning
              "RNNT models do not support transcribe partial audio for now. Transcribing full audio."]
            else [])
        ++ [(request env cfg' m filepaths partial).1])%list).
Proof.
  unfold transcribe_audio, request.
  destruct partial; [destruct (is_EncDecCTCModel m)|]; run;
    unfold call; cbn [andb negb fst snd app]; by rewrite <- ?app_assoc.
Qed.

(** X11.  When the transcripts are not to be overwritten and the output
    file exists, [main] returns the configuration that
    [compute_output_filename] gave, after one more log message, and neither
    transcribes nor writes.  The message has no space between the quoted
    flag name and "is", because the two f-strings are joined as they are. *)
Theorem existing_transcripts_are_kept env cfg dev m name filepaths partial
    cfg' path t :
  reaches env cfg dev m name filepaths partial cfg' ->
  overwrite_transcripts cfg' = false ->
  output_filename cfg' = Some path ->
  path_exists env path = true ->
  main env cfg t
  = (Returns cfg',
     (t ++ prepared_events env cfg dev m name
        ++ [ PathExists (Some path);
             Info ("Previous transcripts found at " ++ path
                   ++ ", and flag `overwrite_transcripts`is False. Returning without re-transcribing text.") ])%list) /\
  (forall e, e ∈ (main env cfg t).2 -> transcribes e = true -> e ∈ t).
Proof.
  intros Hreach Hover Hout Hexists.
  assert (main env cfg t
          = (Returns cfg',
             (t ++ prepared_events env cfg dev m name
                ++ [ PathExists (Some path);
                     Info ("Previous transcripts found at " ++ path
                           ++ ", and flag `overwrite_transcripts`is False. Returning without re-transcribing text.") ])%list))
    as Hrun.
  { rewrite (main_reaches_line_183 env cfg dev m name filepaths partial cfg' t
             Hreach).
    unfold finish. rewrite Hover, Hout, Hexists. cbn [negb].
    run. cbn [str_option str_bool]. by rewrite <- !app_assoc. }
  split; [exact Hrun|].
  rewrite Hrun. cbn [snd]. intros e.
  unfold prepared_events, loaded_events, decoding_events.
  rewrite !elem_of_app.
  destruct (has_change_decoding_strategy m), (has_joint m),
    (amp_enabled env cfg);
    rewrite !elem_of_cons, !elem_of_nil;
    intros He Htr;
    repeat match type of He with _ \/ _ => destruct He as [He|He] end;
    first [assumption | by destruct He | by subst e].
Qed.

(** X12.  When line 183 does not return and the collaborators answer,
    [main] opens [autocast] and [no_grad], asks for one transcription, logs
    twice, writes once and returns the configuration of
    [compute_output_filename].  The transcription is
    [transcribe_partial_audio] on the manifest exactly for partial audio and
    an [EncDecCTCModel]; otherwise it is [asr_model.transcribe] on the file
    paths, after a warning if the audio is partial.  [return_hypotheses] is
    always [True].  Of a tuple of two the writer gets the first component,
    and it gets the [compute_langs] of the configuration [main] was called
    with.  [os.path.exists] is not consulted when the transcripts are to be
    overwritten. *)
Theorem transcription_is_requested_once_and_written env cfg dev m name
    filepaths partial cfg' path transcriptions written t :
  reaches env cfg dev m name filepaths partial cfg' ->
  transcribes_anew env cfg' path ->
  (request env cfg' m filepaths partial).2 = Returns transcriptions ->
  write_transcription env (best transcriptions) cfg' name filepaths
    (compute_langs cfg) = Returns written ->
  main env cfg t
  = (Returns cfg',
     (t ++ requested_events env cfg cfg' dev m name filepaths partial
        ++ [ Info ("Finished transcribing " ++ pretty (length filepaths)
                   ++ " files !");
             Info ("Writing transcriptions into file: "
                   ++ str_option (output_filename cfg'));
             WriteTranscription (best transcriptions) cfg' name filepaths
               (compute_langs cfg);
             Info ("Finished writing predictions to " ++ written ++ "!") ])%list).
Proof.
  intros Hreach Hanew Hanswer Hwrite.
  rewrite (main_reaches_line_183 env cfg dev m name filepaths partial cfg' t
             Hreach).
  rewrite (finish_transcribes _ _ _ _ _ _ _ _ path _ Hanew).
  erewrite and_then_returns
    by (rewrite transcribe_audio_run, Hanswer; reflexivity).
  run. unfold requested_events. by rewrite <- !app_assoc.
Qed.

(** X13.  A transcription that raises ends [main] with the same exception:
    nothing is logged after the request and nothing is written. *)
Theorem failed_transcription_writes_nothing env cfg dev m name filepaths
    partial cfg' path e t :
  reaches env cfg dev m name filepaths partial cfg' ->
  transcribes_anew env cfg' path ->
  (request env cfg' m filepaths partial).2 = Raises e ->
  main env cfg t
  = (Raises e,
     (t ++ requested_events env cfg cfg' dev m name filepaths partial)%list).
Proof.
  intros Hreach Hanew Hanswer.
  rewrite (main_reaches_line_183 env cfg dev m name filepaths partial cfg' t
             Hreach).
  rewrite (finish_transcribes _ _ _ _ _ _ _ _ path _ Hanew).
  erewrite and_then_raises
    by (rewrite transcribe_audio_run, Hanswer; reflexivity).
  unfold requested_events. by rewrite <- !app_assoc.
Qed.

Lemma main_rejects_an_incomplete_config_witness :
  main example_env no_config []
  = (Raises (ValueError
               "Both cfg.model_path and cfg.pretrained_name cannot be None!"),
     [Info "Hydra config: cfg"]).
Proof.
  apply (proj1 (main_rejects_an_incomplete_config example_env no_config []));
    reflexivity.
Defined.

Lemma cuda_index_always_asks_for_the_gpu_witness :
  main example_env (example_config (-1) true) []
  = (Raises (Raised "torch.device"),
     [Info "Hydra config: cfg"; TorchDevice "cuda:-1"]) /\
  Trainer (DeviceList [2%Z]) "gpu"
  ∈ (main example_env (example_config 2 true) []).2.
Proof.
  assert (forall n, complete (example_config n true)) as Hc
    by (intros n; split; right; discriminate).
  split.
  - apply (proj1 (proj2 (cuda_index_always_asks_for_the_gpu example_env
                           (example_config (-1) true) [] (Hc _)))).
    reflexivity.
  - apply (proj2 (proj2 (proj2 (cuda_index_always_asks_for_the_gpu example_env
                                  (example_config 2 true) [] (Hc _)))
                    (Device "cuda:2") eq_refl)
             example_model "stt_en_conformer_transducer_large").
    reflexivity.
Defined.

Lemma rnnt_decoding_is_overwritten_witness :
  ChangeDecodingRNNT example_model
    (mkRNNT (-1) true [("strategy", "greedy_batch")])
  ∈ (main example_env (example_config 0 true) []).2.
Proof.
  assert (complete (example_config 0 true)) as Hc
    by (split; right; discriminate).
  apply (proj1 (rnnt_decoding_is_overwritten example_env (example_config 0 true)
                  (Device "cuda:0") example_model
                  "stt_en_conformer_transducer_large" [] Hc eq_refl eq_refl));
    reflexivity.
Defined.

Lemma existing_transcripts_are_kept_witness :
  (main example_env (example_config 0 false) []).1
  = Returns (example_output false).
Proof.
  assert (reaches example_env (example_config 0 false) (Device "cuda:0")
            example_model "stt_en_conformer_transducer_large" ["a.wav"] true
            (example_output false)) as Hreach
    by (split; [split; right; discriminate|]; repeat split).
  rewrite (proj1 (existing_transcripts_are_kept example_env
                    (example_config 0 false) (Device "cuda:0") example_model
                    "stt_en_conformer_transducer_large" ["a.wav"] true
                    (example_output false) "out.json" [] Hreach
                    eq_refl eq_refl eq_refl)).
  reflexivity.
Defined.

Lemma transcription_is_requested_once_and_written_witness :
  (main example_env (example_config 0 true) []).1
  = Returns (example_output true) /\
  WriteTranscription (PyList ["hello"]) (example_output true)
    "stt_en_conformer_transducer_large" ["a.wav"] true
  ∈ (main example_env (example_config 0 true) []).2.
Proof.
  assert (reaches example_env (example_config 0 true) (Device "cuda:0")
            example_model "stt_en_conformer_transducer_large" ["a.wav"] true
            (example_output true)) as Hreach
    by (split; [split; right; discriminate|]; repeat split).
  rewrite (transcription_is_requested_once_and_written example_env
             (example_config 0 true) (Device "cuda:0") example_model
             "stt_en_conformer_transducer_large" ["a.wav"] true
             (example_output true) "out.json"
             (PyTuple [PyList ["hello"]; PyList ["hello"; "hallo"]])
             "out.json" [] Hreach (or_introl eq_refl) eq_refl eq_refl).
  split; [reflexivity|].
  cbn [snd]. rewrite !elem_of_app, !elem_of_cons. auto 20.
Defined.

Lemma failed_transcription_writes_nothing_witness :
  (main failing_env (example_config 0 true) []).1
  = Raises (Raised "transcribe").
Proof.
  assert (reaches failing_env (example_config 0 true) (Device "cuda:0")
            example_model "stt_en_conformer_transducer_large" ["a.wav"] true
            (example_output true)) as Hreach
    by (split; [split; right; discriminate|]; repeat split).
  rewrite (failed_transcription_writes_nothing failing_env
             (example_config 0 true) (Device "cuda:0") example_model
             "stt_en_conformer_transducer_large" ["a.wav"] true
             (example_output true) "out.json" (Raised "transcribe") []
             Hreach (or_introl eq_refl) eq_refl).
  reflexivity.
Defined.

End TranscribeProperties.
